(** * cxgb4 debugfs: tables, logs, field decoding and write-back parsers

    A shallow embedding of the parts of
    [drivers/net/ethernet/chelsio/cxgb4/cxgb4_debugfs.c] that page tables of
    captured rows to a reader ([seq_tab]), reorder the firmware device log,
    decode bit fields, recognise unusable MPS TCAM rows, parse the trace
    filter and RSS key commands and infer the limits of the memory map;
    and, in a second part, of those that convert units, walk the mailbox
    command log, the MPS TCAM and the SGE queues, print the RSS key, read
    the flash and the adapter memories, add the holes of the memory map and
    set the mask of the TP logic analyzer.

    Conventions.  C integers are [Z]; where the C type wraps, the wrap is
    written out ([u32], [u64], [s32]).  A pointer into a captured buffer is
    the byte offset from the start of that buffer.  Text handed over by
    [copy_from_user] is a [string]; the byte the C code reads past the last
    character is the terminating NUL, written [nul].  Hardware accesses are
    recorded, in program order, as a list of [effect]s. *)

From Stdlib Require Import ZArith Lia Bool Ascii String DecimalString Sorted.
From stdpp Require Import base list.

Local Open Scope Z_scope.

(** ** Machine integers and errno values *)

Definition u32 (x : Z) : Z := x mod 2 ^ 32.
Definition u64 (x : Z) : Z := x mod 2 ^ 64.

(** Conversion of a 32-bit pattern to [int]. *)
Definition s32 (x : Z) : Z :=
  let y := u32 x in if y <? 2 ^ 31 then y else y - 2 ^ 32.

Definition EINVAL : Z := 22.
Definition EFBIG : Z := 27.

(** ** Generic seq_file support for a table of [rows] x [width] *)

Module SeqTab.

(** [struct seq_tab], without the [show] callback and the captured bytes. *)
Record seq_tab : Type := mk_seq_tab {
  rows : Z;            (* unsigned int *)
  width : Z;           (* unsigned char *)
  skip_first : bool    (* have_header != 0 *)
}.

(** What [start] and [next] hand to seq_file: [NULL], the header token, or a
    pointer to [&tb->data[off]]. *)
Inductive seq_ptr : Type :=
  | NULL
  | SEQ_START_TOKEN
  | Data (off : Z).

(** The offset [pos * tb->width] is kept exact: the table holds
    [rows * width] bytes. *)
Definition seq_tab_get_idx (tb : seq_tab) (pos : Z) : seq_ptr :=
  let pos := pos - Z.b2z (skip_first tb) in
  if pos >=? rows tb then NULL else Data (pos * width tb).

Definition seq_tab_start (tb : seq_tab) (pos : Z) : seq_ptr :=
  if skip_first tb && (pos =? 0) then SEQ_START_TOKEN
  else seq_tab_get_idx tb pos.

(** Returns the new element and the updated [*pos]. *)
Definition seq_tab_next (tb : seq_tab) (v : seq_ptr) (pos : Z) : seq_ptr * Z :=
  let v' := seq_tab_get_idx tb (pos + 1) in
  match v' with
  | NULL => (v', pos)
  | _ => (v', pos + 1)
  end.

(** The row number [seq_tab_show] passes to the table's [show] callback:
    [((char * )v - tb->data) / tb->width]. *)
Definition seq_tab_show_idx (tb : seq_tab) (off : Z) : Z :=
  Z.quot off (width tb).

(** The [width] argument is an [unsigned int]; [struct seq_tab] of
    cxgb4_debugfs.h keeps it in an [unsigned char], so that the assignment
    [p->width = width] stores it modulo 256. *)
Definition seq_open_tab (nrows nwidth have_header : Z) : seq_tab :=
  {| rows := nrows; width := nwidth mod 2 ^ 8;
     skip_first := negb (have_header =? 0) |}.

(** Returns the status and the table after the call. *)
Definition seq_tab_trim (p : seq_tab) (new_rows : Z) : Z * seq_tab :=
  if new_rows >? rows p then (- EINVAL, p)
  else (0, {| rows := new_rows; width := width p;
              skip_first := skip_first p |}).

(** [cim_obq_open] after the table is allocated: [ret] is what
    [t4_read_cim_obq] returned (words read, or a negative errno).  Returns
    the status and, unless the file was released, the table. *)
Definition cim_obq_open (p : seq_tab) (ret : Z) : Z * option seq_tab :=
  if ret <? 0 then (ret, None)
  else (0, Some (snd (seq_tab_trim p (Z.quot ret 4)))).

(** seq_file's traversal: [n] calls of [next] from element [v] at [pos]. *)
Fixpoint advance (tb : seq_tab) (n : nat) (v : seq_ptr) (pos : Z)
  : list seq_ptr :=
  match n with
  | O => []
  | S n' =>
      let '(v', pos') := seq_tab_next tb v pos in
      v' :: advance tb n' v' pos'
  end.

(** One [start] at position 0 followed by [n] calls of [next]. *)
Definition walk (tb : seq_tab) (n : nat) : list seq_ptr :=
  let v := seq_tab_start tb 0 in v :: advance tb n v 0.

(** The rows of a table in order, as pointers. *)
Definition row_ptrs (tb : seq_tab) : list seq_ptr :=
  map (fun i => Data (Z.of_nat i * width tb)) (seq 0 (Z.to_nat (rows tb))).

Definition header (tb : seq_tab) : list seq_ptr :=
  if skip_first tb then [SEQ_START_TOKEN] else [].

Definition steps (tb : seq_tab) : nat :=
  (Z.to_nat (rows tb) + if skip_first tb then 1 else 0)%nat.

End SeqTab.

(** ** Character classes

    Characters are [ascii]; [code] is the value of the [unsigned char]. *)

Definition code (c : ascii) : Z := Z.of_nat (nat_of_ascii c).

(** The NUL that ends a C string. *)
Definition nul : ascii := Ascii.zero.

(** [*p] for a pointer into a C string whose remaining text is [s]. *)
Definition deref (s : string) : ascii :=
  match s with
  | EmptyString => nul
  | String c _ => c
  end.

(** [p[n]] under the same reading; only used where the C code has already
    seen that the [n] characters before it are not NUL. *)
Definition char_at (s : string) (n : nat) : ascii :=
  match String.get n s with
  | Some c => c
  | None => nul
  end.

(** [p + n], not moving past the end of the string. *)
Fixpoint skip (n : nat) (p : string) : string :=
  match n, p with
  | S n', String _ p' => skip n' p'
  | _, _ => p
  end.

(** The string a C function sees in a buffer holding [s] followed by NUL:
    the characters before the first NUL. *)
Fixpoint cstr (s : string) : string :=
  match s with
  | EmptyString => EmptyString
  | String c s' => if Ascii.eqb c nul then EmptyString else String c (cstr s')
  end.

(** Modelled from the spec: [isspace] of <linux/ctype.h>, which is not among
    the sources.  "Whitespace" is HT, LF, VT, FF, CR and the space, and in
    the kernel's table also the Latin-1 no-break space. *)
Definition isspace (c : ascii) : bool :=
  let n := code c in
  ((9 <=? n) && (n <=? 13)) || (n =? 32) || (n =? 160).

(** Modelled from the spec: [isdigit] of <linux/ctype.h>: a decimal digit. *)
Definition isdigit (c : ascii) : bool :=
  let n := code c in (48 <=? n) && (n <=? 57).

(** Modelled from the spec: [isxdigit] of <linux/ctype.h>: a "hex digit",
    0-9, A-F or a-f. *)
Definition isxdigit (c : ascii) : bool :=
  let n := code c in
  ((48 <=? n) && (n <=? 57)) || ((65 <=? n) && (n <=? 70))
  || ((97 <=? n) && (n <=? 102)).

(** Modelled from the spec: [tolower] of <linux/ctype.h>, on the letters the
    callers pass (they test [isxdigit] first): A-Z go to a-z. *)
Definition tolower (c : ascii) : Z :=
  let n := code c in
  if (65 <=? n) && (n <=? 90) then n + 32 else n.

Definition xdigit2int (c : ascii) : Z :=
  if isdigit c then code c - 48 else u32 (tolower c - 97 + 10).

Definition nl : string := String (ascii_of_nat 10) EmptyString.

(** ** Decoding a 64-bit word through a table of fields *)

Module FieldDesc.

Record field_desc : Type := mk_field_desc {
  name : string;
  start : Z;     (* unsigned int *)
  width : Z      (* unsigned int *)
}.

(** [x << n] on [unsigned long long]: the C language gives it no meaning
    when [n] is 64 or more. *)
Definition shl64 (x n : Z) : option Z :=
  if (0 <=? n) && (n <? 64) then Some (u64 (Z.shiftl x n)) else None.

Definition shr64 (x n : Z) : option Z :=
  if (0 <=? n) && (n <? 64) then Some (Z.shiftr x n) else None.

(** The number [field_desc_show] prints for one field:
    [mask = (1ULL << p->width) - 1], then [(v >> p->start) & mask]. *)
Definition field_value (v : Z) (p : field_desc) : option Z :=
  match shl64 1 (width p) with
  | None => None
  | Some m =>
      let mask := u64 (m - 1) in
      match shr64 v (start p) with
      | None => None
      | Some s => Some (Z.land s mask)
      end
  end.

(** [%llu]. *)
Definition llu (x : Z) : string :=
  NilZero.string_of_uint (N.to_uint (Z.to_N x)).

(** [scnprintf(buf, size, ...)]: at most [size - 1] characters are kept. *)
Definition scnprintf (size : nat) (text : string) : string :=
  String.substring 0 (size - 1) text.

(** The text [field_desc_show] writes for the fields [p] (the table up to
    its [{ NULL }] entry), starting with [line_size] columns used. *)
Fixpoint field_desc_show_from (line_size : Z) (v : Z) (p : list field_desc)
  : option string :=
  match p with
  | [] => Some nl
  | f :: p' =>
      match field_value v f with
      | None => None
      | Some x =>
          let buf := scnprintf 32 (name f ++ ": " ++ llu x) in
          let len := Z.of_nat (String.length buf) in
          let wrap := line_size + len >=? 79 in
          let line_size := if wrap then 8 else line_size in
          match field_desc_show_from (line_size + len + 1) v p' with
          | None => None
          | Some rest =>
              Some ((if wrap then nl ++ "        " else "")
                    ++ buf ++ " " ++ rest)
          end
      end
  end%string.

Definition field_desc_show (v : Z) (p : list field_desc) : option string :=
  field_desc_show_from 0 v p.

(** A field the tables of the file can hold: it lies inside the word and is
    narrower than the word. *)
Definition field_ok (p : field_desc) : Prop :=
  0 <= start p /\ 1 <= width p /\ width p < 64 /\ start p + width p <= 64.

Definition fd (n : string) (s w : Z) : field_desc :=
  {| name := n; start := s; width := w |}.

Definition tp_la0 : list field_desc :=
  [ fd "RcfOpCodeOut" 60 4; fd "State" 56 4; fd "WcfState" 52 4;
    fd "RcfOpcSrcOut" 50 2; fd "CRxError" 49 1; fd "ERxError" 48 1;
    fd "SanityFailed" 47 1; fd "SpuriousMsg" 46 1; fd "FlushInputMsg" 45 1;
    fd "FlushInputCpl" 44 1; fd "RssUpBit" 43 1; fd "RssFilterHit" 42 1;
    fd "Tid" 32 10; fd "InitTcb" 31 1; fd "LineNumber" 24 7; fd "Emsg" 23 1;
    fd "EdataOut" 22 1; fd "Cmsg" 21 1; fd "CdataOut" 20 1;
    fd "EreadPdu" 19 1; fd "CreadPdu" 18 1; fd "TunnelPkt" 17 1;
    fd "RcfPeerFin" 16 1; fd "RcfReasonOut" 12 4; fd "TxCchannel" 10 2;
    fd "RcfTxChannel" 8 2; fd "RxEchannel" 6 2; fd "RcfRxChannel" 5 1;
    fd "RcfDataOutSrdy" 4 1; fd "RxDvld" 3 1; fd "RxOoDvld" 2 1;
    fd "RxCongestion" 1 1; fd "TxCongestion" 0 1 ].

Definition tp_la1 : list field_desc :=
  [ fd "CplCmdIn" 56 8; fd "CplCmdOut" 48 8; fd "ESynOut" 47 1;
    fd "EAckOut" 46 1; fd "EFinOut" 45 1; fd "ERstOut" 44 1; fd "SynIn" 43 1;
    fd "AckIn" 42 1; fd "FinIn" 41 1; fd "RstIn" 40 1; fd "DataIn" 39 1;
    fd "DataInVld" 38 1; fd "PadIn" 37 1; fd "RxBufEmpty" 36 1;
    fd "RxDdp" 35 1; fd "RxFbCongestion" 34 1; fd "TxFbCongestion" 33 1;
    fd "TxPktSumSrdy" 32 1; fd "RcfUlpType" 28 4; fd "Eread" 27 1;
    fd "Ebypass" 26 1; fd "Esave" 25 1; fd "Static0" 24 1; fd "Cread" 23 1;
    fd "Cbypass" 22 1; fd "Csave" 21 1; fd "CPktOut" 20 1;
    fd "RxPagePoolFull" 18 2; fd "RxLpbkPkt" 17 1; fd "TxLpbkPkt" 16 1;
    fd "RxVfValid" 15 1; fd "SynLearned" 14 1; fd "SetDelEntry" 13 1;
    fd "SetInvEntry" 12 1; fd "CpcmdDvld" 11 1; fd "CpcmdSave" 10 1;
    fd "RxPstructsFull" 8 2; fd "EpcmdDvld" 7 1; fd "EpcmdFlush" 6 1;
    fd "EpcmdTrimPrefix" 5 1; fd "EpcmdTrimPostfix" 4 1; fd "ERssIp4Pkt" 3 1;
    fd "ERssIp6Pkt" 2 1; fd "ERssTcpUdpPkt" 1 1; fd "ERssFceFipPkt" 0 1 ].

Definition tp_la2 : list field_desc :=
  [ fd "CplCmdIn" 56 8; fd "MpsVfVld" 55 1; fd "MpsPf" 52 3; fd "MpsVf" 44 8;
    fd "SynIn" 43 1; fd "AckIn" 42 1; fd "FinIn" 41 1; fd "RstIn" 40 1;
    fd "DataIn" 39 1; fd "DataInVld" 38 1; fd "PadIn" 37 1;
    fd "RxBufEmpty" 36 1; fd "RxDdp" 35 1; fd "RxFbCongestion" 34 1;
    fd "TxFbCongestion" 33 1; fd "TxPktSumSrdy" 32 1; fd "RcfUlpType" 28 4;
    fd "Eread" 27 1; fd "Ebypass" 26 1; fd "Esave" 25 1; fd "Static0" 24 1;
    fd "Cread" 23 1; fd "Cbypass" 22 1; fd "Csave" 21 1; fd "CPktOut" 20 1;
    fd "RxPagePoolFull" 18 2; fd "RxLpbkPkt" 17 1; fd "TxLpbkPkt" 16 1;
    fd "RxVfValid" 15 1; fd "SynLearned" 14 1; fd "SetDelEntry" 13 1;
    fd "SetInvEntry" 12 1; fd "CpcmdDvld" 11 1; fd "CpcmdSave" 10 1;
    fd "RxPstructsFull" 8 2; fd "EpcmdDvld" 7 1; fd "EpcmdFlush" 6 1;
    fd "EpcmdTrimPrefix" 5 1; fd "EpcmdTrimPostfix" 4 1; fd "ERssIp4Pkt" 3 1;
    fd "ERssIp6Pkt" 2 1; fd "ERssTcpUdpPkt" 1 1; fd "ERssFceFipPkt" 0 1 ].

End FieldDesc.

(** ** The firmware device log *)

Module Devlog.

(** A big-endian field ([__be32], [__be64]) is the list of its bytes in
    memory order, so that the embedding does not depend on the byte order of
    the host. *)
Definition be_to_cpu (bytes : list Z) : Z :=
  fold_left (fun acc b => acc * 256 + b) bytes 0.

Definition be32_to_cpu : list Z -> Z := be_to_cpu.
Definition be64_to_cpu : list Z -> Z := be_to_cpu.

Definition cpu_to_be32 (x : Z) : list Z :=
  [ (x / 2 ^ 24) mod 256; (x / 2 ^ 16) mod 256; (x / 2 ^ 8) mod 256;
    x mod 256 ].

Definition cpu_to_be64 (x : Z) : list Z :=
  cpu_to_be32 (x / 2 ^ 32) ++ cpu_to_be32 x.

(** [struct fw_devlog_e], the fields the file reads. *)
Record fw_devlog_e : Type := mk_fw_devlog_e {
  timestamp : list Z;       (* __be64 *)
  seqno : list Z;           (* __be32 *)
  level : Z;
  facility : Z;
  fmt : string;
  params : list (list Z)    (* __be32 params[8] *)
}.

(** [e->timestamp == 0]: every byte of the field is zero. *)
Definition timestamp_is_zero (e : fw_devlog_e) : bool :=
  forallb (Z.eqb 0) (timestamp e).

(** [struct devlog_info]. *)
Record devlog_info : Type := mk_devlog_info {
  nentries : Z;
  first : Z;
  log : list fw_devlog_e
}.

Definition ENXIO : Z := 6.

(** The loop of [devlog_open] from entry [index] on, [log] being the entries
    not yet visited; returns [dinfo->first]. *)
Fixpoint devlog_scan (log : list fw_devlog_e) (index fseqno first : Z) : Z :=
  match log with
  | [] => first
  | e :: log' =>
      if timestamp_is_zero e then devlog_scan log' (index + 1) fseqno first
      else
        let seqno := be32_to_cpu (seqno e) in
        if seqno <? fseqno then devlog_scan log' (index + 1) seqno index
        else devlog_scan log' (index + 1) fseqno first
  end.

(** The state [devlog_open] leaves behind once the log has been read:
    [nentries], [first = 0], the entries, and then the search for the
    earliest entry with [fseqno = ~((u32)0)]. *)
Definition captured (entries : list fw_devlog_e) : devlog_info :=
  {| nentries := Z.of_nat (length entries);
     first := devlog_scan entries 0 (u32 (Z.lnot 0)) 0;
     log := entries |}.

(** [devlog_open].  [start] is [dparams->start]; [rd] is what [t4_memory_rw]
    delivered: a nonzero status, or the [dparams->size / sizeof(struct
    fw_devlog_e)] entries of the log. *)
Definition devlog_open (start : Z) (rd : Z + list fw_devlog_e)
  : Z + devlog_info :=
  if start =? 0 then inl (- ENXIO)
  else
    match rd with
    | inl ret => inl ret
    | inr entries => inr (captured entries)
    end.

(** Iterator values are integers cast to [void *]: 0 is [NULL], 1 is
    [SEQ_START_TOKEN], and [pos + 1] stands for log position [pos]. *)
Definition NULL : Z := 0.
Definition SEQ_START_TOKEN : Z := 1.

Definition devlog_get_idx (dinfo : devlog_info) (pos : Z) : Z :=
  if pos >? nentries dinfo then NULL else pos + 1.

Definition devlog_start (dinfo : devlog_info) (pos : Z) : Z :=
  if negb (pos =? 0) then devlog_get_idx dinfo pos else SEQ_START_TOKEN.

(** Returns the new element and the updated [*pos]. *)
Definition devlog_next (dinfo : devlog_info) (v : Z) (pos : Z) : Z * Z :=
  (devlog_get_idx dinfo (pos + 1), pos + 1).

(** The entry [devlog_show] looks at for iterator value [v]:
    [index = dinfo->first + fidx], reduced once by [nentries]. *)
Definition devlog_index (dinfo : devlog_info) (v : Z) : Z :=
  let fidx := s32 (v - 2) in
  let index := u32 (first dinfo + fidx) in
  if index >=? nentries dinfo then index - nentries dinfo else index.

(** What one call of [devlog_show] writes. *)
Inductive shown : Type :=
  | Header
  | Nothing
  | Entry (index : Z) (e : fw_devlog_e).

(** [None] when [log[index]] lies outside the log. *)
Definition devlog_show (dinfo : devlog_info) (v : Z) : option shown :=
  if v =? SEQ_START_TOKEN then Some Header
  else
    let index := devlog_index dinfo v in
    match log dinfo !! Z.to_nat index with
    | None => None
    | Some e =>
        if timestamp_is_zero e then Some Nothing else Some (Entry index e)
    end.

(** seq_file's traversal: [n] calls of [next] after element [v] at [pos];
    it stops calling at the first [NULL]. *)
Fixpoint traverse_from (dinfo : devlog_info) (n : nat) (v : Z) (pos : Z)
  : list Z :=
  match n with
  | O => []
  | S n' =>
      let '(v', pos') := devlog_next dinfo v pos in
      v' :: (if v' =? NULL then [] else traverse_from dinfo n' v' pos')
  end.

Definition traverse (dinfo : devlog_info) (n : nat) : list Z :=
  let v := devlog_start dinfo 0 in v :: traverse_from dinfo n v 0.

(** A used entry, and its sequence number as the host reads it. *)
Definition live (e : fw_devlog_e) : Prop := timestamp_is_zero e = false.
Definition seqn (e : fw_devlog_e) : Z := be32_to_cpu (seqno e).

(** An entry with the given sequence number and time stamp. *)
Definition entry (seq ts : Z) : fw_devlog_e :=
  {| timestamp := cpu_to_be64 ts; seqno := cpu_to_be32 seq;
     level := 0; facility := 0; fmt := ""; params := [] |}.

End Devlog.

(** ** Results of the write-back parsers

    The parsers leave their loops through [goto]; [res] is the value a loop
    hands on, or the label it jumped to. *)

Inductive exit : Type :=
  | Inval      (* goto inval: count = -EINVAL *)
  | Efbig      (* count = -EFBIG; goto out *)
  | Out        (* goto out with count untouched *)
  | Fuel.      (* the embedding's loop bound was reached *)

Inductive res (A : Type) : Type :=
  | Ok (a : A)
  | Err (e : exit).

Arguments Ok {A} a.
Arguments Err {A} e.

Definition bind {A B : Type} (m : res A) (k : A -> res B) : res B :=
  match m with
  | Ok a => k a
  | Err e => Err e
  end.

Notation "'let*' x ':=' m 'in' k" := (bind m (fun x => k))
  (at level 10, x pattern, m at level 200, k at level 200, only parsing).

(** [a[n]] and [a[n] = x] on an array held as a list. *)
Definition load (a : list Z) (n : Z) : Z := default 0 (a !! Z.to_nat n).
Definition store (a : list Z) (n : Z) (x : Z) : list Z := <[Z.to_nat n := x]> a.

(** ** The MPS trace filter command *)

Module MpsTrc.

Inductive reg : Type :=
  | MPS_TRC_CFG_A
  | MPS_T5_TRC_RSS_CONTROL_A
  | MPS_TRC_RSS_CONTROL_A
  | MPS_TRC_FILTER1_RSS_CONTROL_A
  | MPS_TRC_FILTER2_RSS_CONTROL_A
  | MPS_TRC_FILTER3_RSS_CONTROL_A.

Definition TRC_PORT_NONE : Z := 0xff.
Definition TRC_RSS_ENABLE : Z := 0x33.
Definition TRC_RSS_DISABLE : Z := 0x13.

(** [struct trace_params] of cxgb4.h. *)
Record trace_params : Type := mk_trace_params {
  data : list Z;        (* u32 data[TRACE_LEN / 4] *)
  mask : list Z;        (* u32 mask[TRACE_LEN / 4] *)
  snap_len : Z;         (* unsigned short *)
  min_len : Z;          (* unsigned short *)
  skip_ofst : Z;        (* unsigned char *)
  skip_len : Z;         (* unsigned char *)
  invert : Z;           (* unsigned char *)
  port : Z              (* unsigned char *)
}.

(** What reaches the hardware layer, in program order.  The trace
    parameters of a call that disables the filter are the uninitialised
    local, written [None]. *)
Inductive effect : Type :=
  | t4_write_reg (r : reg) (val : Z)
  | t4_set_trace_filter (tp : option trace_params) (idx : Z) (enable : bool).

(** What the file takes from other parts of the driver and of the kernel:
    [kstrtouint s] is the number [kstrtouint(s, 10, &j)] stores, [None] when
    it fails and leaves [j] alone; [set_trace_filter_ret] is the status
    [t4_set_trace_filter] returns. *)
Record env : Type := mk_env {
  kstrtouint : string -> option Z;
  TFMINPKTSIZE_M : Z;
  TRACE_LEN : Z;
  MAX_NPORTS : Z;
  set_trace_filter_ret : option trace_params -> Z -> bool -> Z
}.

(** The fields of [struct adapter] the parser reads. *)
Record adapter : Type := mk_adapter {
  trace_rss : bool;
  chan_map : list Z
}.

Definition with_data (tp : trace_params) (d m : list Z) : trace_params :=
  mk_trace_params d m (snap_len tp) (min_len tp) (skip_ofst tp) (skip_len tp)
    (invert tp) (port tp).
Definition with_snap_len (tp : trace_params) (x : Z) : trace_params :=
  mk_trace_params (data tp) (mask tp) x (min_len tp) (skip_ofst tp)
    (skip_len tp) (invert tp) (port tp).
Definition with_min_len (tp : trace_params) (x : Z) : trace_params :=
  mk_trace_params (data tp) (mask tp) (snap_len tp) x (skip_ofst tp)
    (skip_len tp) (invert tp) (port tp).
Definition with_skip_ofst (tp : trace_params) (x : Z) : trace_params :=
  mk_trace_params (data tp) (mask tp) (snap_len tp) (min_len tp) x
    (skip_len tp) (invert tp) (port tp).
Definition with_skip_len (tp : trace_params) (x : Z) : trace_params :=
  mk_trace_params (data tp) (mask tp) (snap_len tp) (min_len tp) (skip_ofst tp)
    x (invert tp) (port tp).
Definition with_invert (tp : trace_params) (x : Z) : trace_params :=
  mk_trace_params (data tp) (mask tp) (snap_len tp) (min_len tp) (skip_ofst tp)
    (skip_len tp) x (port tp).
Definition with_port (tp : trace_params) (x : Z) : trace_params :=
  mk_trace_params (data tp) (mask tp) (snap_len tp) (min_len tp) (skip_ofst tp)
    (skip_len tp) (invert tp) x.

(** [while (isspace( *p)) p++;] *)
Fixpoint skip_spaces (p : string) : string :=
  match p with
  | EmptyString => EmptyString
  | String c p' => if isspace c then skip_spaces p' else p
  end.

(** [strsep(&p, " ")]: the word up to the first space, and the new [p],
    [None] for [NULL]. *)
Fixpoint strsep (p : string) : string * option string :=
  match p with
  | EmptyString => (EmptyString, None)
  | String c p' =>
      if Ascii.eqb c " " then (EmptyString, Some p')
      else let '(w, r) := strsep p' in (String c w, r)
  end.

(** The words the loop [while (p)] takes from the text, in order: each is
    what [strsep] returns after the white space before it has been skipped,
    up to the end of the text or the first empty word. *)
Fixpoint words (fuel : nat) (p : option string) : list string :=
  match p with
  | None => []
  | Some p =>
      let '(word, p) := strsep (skip_spaces p) in
      if Ascii.eqb (deref word) nul then []
      else word :: match fuel with
                   | O => []
                   | S fuel' => words fuel' p
                   end
  end.

Section Parser.

Context (E : env) (adap : adapter) (trcidx : Z).

(** The register a [qid=] word is written to; the [switch] has no case for
    a [trcidx] other than 0..3. *)
Definition qid_reg : option reg :=
  if negb (trace_rss adap) then Some MPS_T5_TRC_RSS_CONTROL_A
  else match trcidx with
       | 0 => Some MPS_TRC_RSS_CONTROL_A
       | 1 => Some MPS_TRC_FILTER1_RSS_CONTROL_A
       | 2 => Some MPS_TRC_FILTER2_RSS_CONTROL_A
       | 3 => Some MPS_TRC_FILTER3_RSS_CONTROL_A
       | _ => None
       end.

(** The register access of one word that the loop takes: a [qid=] word
    writes the number after the [=] to the register of [qid_reg]; no other
    word writes. *)
Definition qid_write (word : string) : list effect :=
  if String.prefix "qid=" word then
    match kstrtouint E (skip 4 word), qid_reg with
    | Some j, Some r => [t4_write_reg r j]
    | _, _ => []
    end
  else [].

(** Words that are malformed whatever came before them: a [qid=],
    [snaplen=] or [minlen=] word whose number [kstrtouint] refuses, a snap
    length above 9600, a minimum length above [TFMINPKTSIZE_M], and a word
    that is none of the key words, does not start like an interface and
    does not start with a hex digit. *)
Definition malformed (word : string) : Prop :=
  if String.prefix "qid=" word then kstrtouint E (skip 4 word) = None
  else if String.prefix "snaplen=" word then
    match kstrtouint E (skip 8 word) with
    | Some j => 9600 < j
    | None => True
    end
  else if String.prefix "minlen=" word then
    match kstrtouint E (skip 7 word) with
    | Some j => TFMINPKTSIZE_M E < j
    | None => True
    end
  else if String.eqb word "not" then False
  else if String.prefix "loopback" word || String.prefix "tx" word
          || String.prefix "rx" word then False
  else isxdigit (deref word) = false.

(** The loop over the digits of the pattern data.  [dp] is the index
    [data] points at, [i] the count of nibbles. *)
Fixpoint parse_data (word : string) (d : list Z) (dp i : Z)
  : res (string * list Z * Z * Z) :=
  match word with
  | String c word' =>
      if isxdigit c then
        if i >=? TRACE_LEN E * 2 then Err Efbig
        else
          let d := store d dp (u32 (load d dp * 2 ^ 4 + xdigit2int c)) in
          let i := i + 1 in
          parse_data word' d (if Z.rem i 8 =? 0 then dp + 1 else dp) i
      else Ok (word, d, dp, i)
  | EmptyString => Ok (word, d, dp, i)
  end.

(** The loop over the digits of an explicit mask; [j] is unsigned. *)
Fixpoint parse_mask (word : string) (m : list Z) (mp i j : Z)
  : res (string * list Z * Z * Z) :=
  match word with
  | String c word' =>
      if isxdigit c then
        if j >=? u32 i then Err Inval             (* mask longer than data *)
        else
          let m := store m mp (u32 (load m mp * 2 ^ 4 + xdigit2int c)) in
          let j := u32 (j + 1) in
          parse_mask word' m (if j mod 8 =? 0 then mp + 1 else mp) i j
      else Ok (word, m, mp, j)
  | EmptyString => Ok (word, m, mp, j)
  end.

(** [for ( ; i - j >= 8; j += 8) *mask++ = 0xffffffff;] *)
Fixpoint ones_loop (fuel : nat) (m : list Z) (mp i j : Z)
  : res (list Z * Z * Z) :=
  if u32 (i - j) >=? 8 then
    match fuel with
    | O => Err Fuel
    | S fuel' =>
        ones_loop fuel' (store m mp 0xffffffff) (mp + 1) i (u32 (j + 8))
    end
  else Ok (m, mp, j).

(** The mask of a pattern: after a slash, or all ones. *)
Definition pattern_mask (word : string) (m : list Z) (mp i j : Z)
  : res (string * list Z * Z * Z) :=
  if Ascii.eqb (deref word) "/" then
    let* (word, m, mp, j) := parse_mask (skip 1 word) m mp i j in
    if negb (u32 i =? j) then Err Inval           (* mask shorter than data *)
    else Ok (word, m, mp, j)
  else
    let* (m, mp, j) := ones_loop (Z.to_nat (u32 (i - j))) m mp i j in
    let m := if negb (Z.rem i 8 =? 0)
             then store m mp (u32 (Z.shiftl 1 (Z.rem i 8 * 4) - 1)) else m in
    Ok (word, m, mp, j).

(** The anchor of a pattern, [word] starting at the [@]. *)
Definition pattern_anchor (word : string) (tp : trace_params) (j : Z)
  : res trace_params :=
  if Ascii.eqb (deref word) "@" then
    let end_ := skip 1 word in
    let j := match kstrtouint E end_ with Some x => x | None => j end in
    if negb (Ascii.eqb (deref end_) nul)
       && negb (Ascii.eqb (deref end_) (ascii_of_nat 10)) then Err Inval
    else if negb (Z.land j 7 =? 0) then Err Inval
    else
      let j := j / 8 in
      if j <? skip_ofst tp then Err Inval         (* overlaps earlier pattern *)
      else if u32 (j - skip_ofst tp) >? 31 then Err Inval   (* skip too big *)
      else Ok (with_skip_len tp (u32 (j - skip_ofst tp) mod 2 ^ 8))
  else Ok tp.

(** A word that is a trace pattern. *)
Definition parse_pattern (word : string) (tp : trace_params) (i : Z)
  : res (trace_params * Z) :=
  let* tp := (if negb (i =? 0) then                   (* split pattern *)
                if negb (skip_len tp =? 0)
                then Err Inval                        (* too many splits *)
                else Ok (with_skip_ofst tp (Z.quot i 16 mod 2 ^ 8))
              else Ok tp) in
  let dp := Z.quot i 8 in
  let mp := Z.quot i 8 in
  let j := u32 i in
  let* (word, d, dp, i) := parse_data word (data tp) dp i in
  let* (word, m, mp, j) := pattern_mask word (mask tp) mp i j in
  let* tp := pattern_anchor word (with_data tp d m) j in
  if negb (Z.rem i 8 =? 0) then
    let sh := (8 - Z.rem i 8) * 4 in
    let d := store d dp (u32 (Z.shiftl (load d dp) sh)) in
    let m := store m mp (u32 (Z.shiftl (load m mp) sh)) in
    Ok (with_data tp d m, Z.land (i + 15) (Z.lnot 15))   (* 8-byte align *)
  else Ok (tp, i).

(** An interface word: [word[n]] must be a digit 0..3 and end the word. *)
Definition port_digit (word : string) (n : nat) : res Z :=
  let c := char_at word n in
  if (code c <? 48) || (code c >? 51)
     || negb (Ascii.eqb (char_at word (S n)) nul)
  then Err Inval else Ok (code c - 48).

(** The body of the loop for one non-empty word: the new parameters and
    nibble count and the register writes it made. *)
Definition parse_word (word : string) (tp : trace_params) (i : Z)
  : res (trace_params * Z * list effect) :=
  if String.prefix "qid=" word then
    match kstrtouint E (skip 4 word) with
    | None => Err Out
    | Some j =>
        Ok (tp, i, match qid_reg with
                   | Some r => [t4_write_reg r j]
                   | None => []
                   end)
    end
  else if String.prefix "snaplen=" word then
    match kstrtouint E (skip 8 word) with
    | None => Err Inval
    | Some j => if j >? 9600 then Err Inval
                else Ok (with_snap_len tp (j mod 2 ^ 16), i, [])
    end
  else if String.prefix "minlen=" word then
    match kstrtouint E (skip 7 word) with
    | None => Err Inval
    | Some j => if j >? TFMINPKTSIZE_M E then Err Inval
                else Ok (with_min_len tp (j mod 2 ^ 16), i, [])
    end
  else if String.eqb word "not" then
    Ok (with_invert tp (if invert tp =? 0 then 1 else 0), i, [])
  else if String.prefix "loopback" word && (port tp =? TRC_PORT_NONE) then
    let* n := port_digit word 8 in
    Ok (with_port tp (n + 8), i, [])
  else if String.prefix "tx" word && (port tp =? TRC_PORT_NONE) then
    let* n := port_digit word 2 in
    if load (chan_map adap) (Z.land (n + 4) 3) >=? MAX_NPORTS E then Err Inval
    else Ok (with_port tp (n + 4), i, [])
  else if String.prefix "rx" word && (port tp =? TRC_PORT_NONE) then
    let* n := port_digit word 2 in
    if load (chan_map adap) n >=? MAX_NPORTS E then Err Inval
    else Ok (with_port tp n, i, [])
  else if negb (isxdigit (deref word)) then Err Inval
  else
    let* (tp, i) := parse_pattern word tp i in
    Ok (tp, i, []).

(** [while (p) { ... }]: the register writes made, and the parameters at the
    end of the loop or the label the loop was left to. *)
Fixpoint parse_words (fuel : nat) (p : option string) (tp : trace_params)
  (i : Z) : list effect * res trace_params :=
  match p with
  | None => ([], Ok tp)
  | Some p =>
      let '(word, p) := strsep (skip_spaces p) in
      if Ascii.eqb (deref word) nul then ([], Ok tp)
      else
        match parse_word word tp i with
        | Err e => ([], Err e)
        | Ok (tp, i, w) =>
            match fuel with
            | O => (w, Err Fuel)
            | S fuel' =>
                let '(ws, r) := parse_words fuel' p tp i in (w ++ ws, r)
            end
        end
  end.

(** [memset(&tp, 0, sizeof(tp)); tp.port = TRC_PORT_NONE;] *)
Definition tp_init : trace_params :=
  let z := replicate (Z.to_nat (TRACE_LEN E / 4)) 0 in
  mk_trace_params z z 0 0 0 0 0 TRC_PORT_NONE.

(** [if (s[count - 1] == '\n') s[count - 1] = '\0';] *)
Fixpoint chomp (s : string) : string :=
  match s with
  | EmptyString => EmptyString
  | String c EmptyString =>
      if Ascii.eqb c (ascii_of_nat 10) then String nul EmptyString else s
  | String c s' => String c (chomp s')
  end.

(** From the label [apply] on. *)
Definition apply (count : Z) (tp : option trace_params) (enable : bool)
  (w : list effect) : Z * list effect :=
  let i := set_trace_filter_ret E tp trcidx enable in
  (if negb (i =? 0) then i else count,
   w ++ [t4_set_trace_filter tp trcidx enable]).

(** [mps_trc_write] on the [count] bytes [buf] copied from the user, the
    allocation and the copy having succeeded: the value returned and the
    accesses made.  [None]: with [count = 0] the code looks at [s[-1]],
    outside the buffer; or the loop bound of the embedding was reached. *)
Definition mps_trc_write (buf : string) : option (Z * list effect) :=
  let count := Z.of_nat (String.length buf) in
  if count >? 1024 then Some (- EFBIG, [])
  else if count =? 0 then None
  else
    let s := cstr (chomp buf) in
    let enable := negb (String.eqb "disable" s) in
    if negb enable then Some (apply count None enable [])
    else
      let cfg :=
        t4_write_reg MPS_TRC_CFG_A
          (if trace_rss adap then TRC_RSS_ENABLE else TRC_RSS_DISABLE) in
      match parse_words (String.length s) (Some s) tp_init 0 with
      | (w, Err Fuel) => None
      | (w, Err Out) => Some (count, cfg :: w)
      | (w, Err Inval) => Some (- EINVAL, cfg :: w)
      | (w, Err Efbig) => Some (- EFBIG, cfg :: w)
      | (w, Ok tp) =>
          if port tp =? TRC_PORT_NONE then Some (- EINVAL, cfg :: w)
          else Some (apply count (Some tp) enable (cfg :: w))
      end.

End Parser.

(** The register writes the command may make before the filter is set: the
    RSS routing mode, and the queue of a [qid=] word. *)
Inductive early_write (adap : adapter) (trcidx : Z) : effect -> Prop :=
  | early_cfg val : early_write adap trcidx (t4_write_reg MPS_TRC_CFG_A val)
  | early_qid r j :
      qid_reg adap trcidx = Some r ->
      early_write adap trcidx (t4_write_reg r j).

(** Modelled from the spec: [kstrtouint(s, 10, &j)] of the kernel library,
    which is not among the sources, for the "<uint>" of the grammar: decimal
    digits, one optional leading plus sign and one optional trailing
    newline, the value fitting an unsigned int. *)
Fixpoint digits (s : string) (acc : Z) : option Z :=
  match s with
  | EmptyString => Some acc
  | String c s' =>
      if isdigit c then digits s' (acc * 10 + (code c - 48))
      else if Ascii.eqb c (ascii_of_nat 10) && String.eqb s' "" then Some acc
      else None
  end.

Definition kstrtouint_dec (s : string) : option Z :=
  let s := if Ascii.eqb (deref s) "+" then skip 1 s else s in
  if isdigit (deref s) then
    match digits s 0 with
    | Some x => if x <? 2 ^ 32 then Some x else None
    | None => None
    end
  else None.

(** Modelled from the spec: an instance of what the file takes from the
    headers and the hardware layer, none of them among the sources: the
    decimal [kstrtouint], a "field-max" of 0x1ff for [minlen=], pattern data
    "capped at a fixed byte length" of 112, four ports, and a
    [t4_set_trace_filter] that accepts what it is given. *)
Definition linux_env : env :=
  {| kstrtouint := kstrtouint_dec;
     TFMINPKTSIZE_M := 0x1ff;
     TRACE_LEN := 112;
     MAX_NPORTS := 4;
     set_trace_filter_ret := fun _ _ _ => 0 |}.

Definition four_ports : adapter :=
  {| trace_rss := false; chan_map := [0; 1; 2; 3] |}.

End MpsTrc.

(** ** The MPS TCAM table *)

Module MpsTcam.

Definition ETH_ALEN : nat := 6.

(** [tcamxy2valmask]: the mask, and as address the last six bytes of [y]
    written big-endian. *)
Definition tcamxy2valmask (x y : Z) : list Z * Z :=
  let mask := Z.lor x y in
  let y := Devlog.cpu_to_be64 y in
  (take ETH_ALEN (drop 2 y), mask).

(** What [mps_tcam_show] prints for an entry: the line with a dash, or the
    line made from the decoded address and mask, the two classification
    words and the replication map.  The VNI and VLAN columns of the newest
    chips, read through the register macros of t4_regs.h, are not carried. *)
Inductive tcam_line : Type :=
  | Dash (idx : Z)
  | Decoded (idx : Z) (addr : list Z) (mask : Z) (cls_lo cls_hi : Z)
      (replicate : bool) (rplc : list Z).

Section Row.

(** [REPLICATE_F] (or [T6_REPLICATE_F]) of t4_regs.h for the chip,
    [adap->params.arch.mps_rplc_size], and the replication map the firmware
    returns through [t4_wr_mbox] for an index, [None] when the command
    fails. *)
Context (REPLICATE_F : Z) (mps_rplc_size : Z)
        (read_rplc : Z -> option (list Z)).

(** [mps_tcam_show] for iterator value [v] other than the header token,
    from the point where [tcamy], [tcamx], [cls_lo] and [cls_hi] have been
    read from the chip. *)
Definition mps_tcam_show (v : Z) (tcamy tcamx cls_lo cls_hi : Z) : tcam_line :=
  let idx := u32 (v - 2) in
  if negb (Z.land tcamx tcamy =? 0) then Dash idx
  else
    let rplc := replicate 8 0 in
    let repl := negb (Z.land cls_lo REPLICATE_F =? 0) in
    let rplc :=
      if repl then
        match read_rplc idx with
        | None => rplc      (* dev_warn: can't read MPS replication map *)
        | Some r =>
            take 4 r ++ (if mps_rplc_size >? 128 then take 4 (drop 4 r)
                         else replicate 4 0)
        end
      else rplc in
    let '(addr, mask) := tcamxy2valmask tcamx tcamy in
    Decoded idx addr mask cls_lo cls_hi repl rplc.

End Row.

Definition is_dash (l : tcam_line) : bool :=
  match l with
  | Dash _ => true
  | Decoded _ _ _ _ _ _ _ => false
  end.

(** "Every compared bit set in both": each bit that takes part in the
    match, being set in X or in Y, is set in X and in Y. *)
Definition every_compared_bit_common (x y : Z) : Prop :=
  forall n, 0 <= n ->
    Z.testbit (Z.lor x y) n = true -> Z.testbit (Z.land x y) n = true.

End MpsTcam.

(** ** The RSS secret key *)

Module RssKey.

Inductive effect : Type :=
  | t4_write_rss_key (key : list Z) (idx : Z).

(** [for (i = count; i > 0 && isspace(s[i - 1]); i--) ;] *)
Fixpoint trim_len (s : string) (i : nat) : nat :=
  match i with
  | O => O
  | S i' => if isspace (char_at s i') then trim_len s i' else i
  end.

(** The buffer after [s[i] = 0], read as a C string. *)
Definition trimmed (buf : string) : string :=
  cstr (String.substring 0 (trim_len buf (String.length buf)) buf).

Section Write.

(** [hex2val] of cxgb4.h, the value of a hex digit. *)
Context (hex2val : ascii -> Z).

(** [for (j = 0; j < 8; j++, p++)], [n] digits still to read. *)
Fixpoint key_word (n : nat) (p : string) (k : Z) : res (Z * string) :=
  match n with
  | O => Ok (k, p)
  | S n' =>
      if negb (isxdigit (deref p)) then Err Inval
      else key_word n' (skip 1 p)
             (u32 (Z.lor (Z.shiftl k 4) (hex2val (deref p))))
  end.

(** [for (p = s, i = 9; i >= 0; i--)], [n = i + 1]. *)
Fixpoint key_words (n : nat) (p : string) (key : list Z) : res (list Z) :=
  match n with
  | O => Ok key
  | S i =>
      let* (k, p) := key_word 8 p 0 in
      key_words i p (store key (Z.of_nat i) k)
  end.

(** [rss_key_write] on the [count] bytes [buf] copied from the user. *)
Definition rss_key_write (buf : string) : Z * list effect :=
  let count := Z.of_nat (String.length buf) in
  if count >? 100 - 1 then (- EINVAL, [])
  else
    match key_words 10 (trimmed buf) (replicate 10 0) with
    | Err _ => (- EINVAL, [])
    | Ok key => (count, [t4_write_rss_key key (-1)])
    end.

End Write.

(** The first [n] characters at [p] are hex digits. *)
Fixpoint xdigits (n : nat) (p : string) : bool :=
  match n with
  | O => true
  | S n' => isxdigit (deref p) && xdigits n' (skip 1 p)
  end.

(** Modelled from the spec: [hex2val] of cxgb4.h, which is not among the
    sources; a "hex digit" has the value [xdigit2int] gives it. *)
Definition hex2val_std : ascii -> Z := xdigit2int.

(** [n] copies of a character. *)
Fixpoint chars (n : nat) (c : ascii) : string :=
  match n with
  | O => EmptyString
  | S n' => String c (chars n' c)
  end.

End RssKey.

(** ** The memory map *)

Module MemInfo.

Record mem_desc : Type := mk_mem_desc {
  base : Z;     (* unsigned int *)
  limit : Z;    (* unsigned int *)
  idx : Z       (* unsigned int *)
}.

(** The difference of the two bases, as the [int] the function returns. *)
Definition mem_desc_cmp (a b : mem_desc) : Z := s32 (base a - base b).

Definition region : list string :=
  [ "DBQ contexts:"; "IMSG contexts:"; "FLM cache:"; "TCBs:";
    "Pstructs:"; "Timers:"; "Rx FL:"; "Tx FL:"; "Pstruct FL:";
    "Tx payload:"; "Rx payload:"; "LE hash:"; "iSCSI region:";
    "TDDP region:"; "TPT region:"; "STAG region:"; "RQ region:";
    "RQUDP region:"; "PBL region:"; "TXPBL region:";
    "DBVFIFO region:"; "ULPRX state:"; "ULPTX state:";
    "On-chip queues:" ]%string.

(** [ARRAY_SIZE(region)]. *)
Definition nregion : Z := Z.of_nat (length region).

(** The limit [mem[i]] has when it is shown:
    [if (!mem[i].limit) mem[i].limit = i < n - 1 ? mem[i + 1].base - 1 : ~0;] *)
Definition shown_limit (mem : list mem_desc) (i : nat) (m : mem_desc) : Z :=
  if limit m =? 0 then
    if (Z.of_nat i <? Z.of_nat (length mem) - 1)
    then match mem !! S i with
         | Some m' => u32 (base m' - 1)
         | None => 0
         end
    else u32 (Z.lnot 0)
  else limit m.

(** One turn of the loop over the sorted array: nothing for a hole or a
    hidden region, else the arguments of [mem_region_show]. *)
Definition region_row (mem : list mem_desc) (i : nat) (m : mem_desc)
  : option (string * Z * Z) :=
  if idx m >=? nregion then None           (* skip holes *)
  else Some (default EmptyString (region !! Z.to_nat (idx m)), base m,
             shown_limit mem i m).

Definition region_rows (mem : list mem_desc) : list (string * Z * Z) :=
  omap id (imap (region_row mem) mem).

Section Sorted.

(** [sort] of the kernel library, called with [mem_desc_cmp]. *)
Context (sort : (mem_desc -> mem_desc -> Z) -> list mem_desc -> list mem_desc).

(** The second block of [meminfo_show]: the [n] descriptors collected in
    [mem] are sorted and the named regions shown. *)
Definition meminfo_regions (mem : list mem_desc) : list (string * Z * Z) :=
  region_rows (sort mem_desc_cmp mem).

End Sorted.

(** Modelled from the spec: a sort for the examples.  [sort] of the kernel
    library is not among the sources and the statements take it as a
    parameter; the spec leaves the order of entries with equal bases open
    and names "stable sort by original insertion order" as "the safe
    choice".  This is that sort: an entry is put before the first entry it
    does not compare above, so that entries that compare equal stay in the
    order of the array. *)
Fixpoint insert_by (cmp : mem_desc -> mem_desc -> Z) (x : mem_desc)
  (l : list mem_desc) : list mem_desc :=
  match l with
  | [] => [x]
  | y :: l' => if cmp x y <=? 0 then x :: l else y :: insert_by cmp x l'
  end.

Definition sort_stable (cmp : mem_desc -> mem_desc -> Z) (l : list mem_desc)
  : list mem_desc :=
  foldr (insert_by cmp) [] l.

(** The bases do not decrease along the array. *)
Definition sorted_bases (l : list mem_desc) : Prop :=
  StronglySorted (fun a b => base a <= base b) l.

(** The array is in the order of the comparison function: no entry compares
    above one that comes after it. *)
Definition sorted_by_cmp (l : list mem_desc) : Prop :=
  StronglySorted (fun a b => mem_desc_cmp a b <= 0) l.

End MemInfo.

(** * Further parts of the file *)

(** ** Lines of text *)

Definition newline : ascii := ascii_of_nat 10.

(** No character of [s] is a line feed. *)
Fixpoint no_newline (s : string) : bool :=
  match s with
  | EmptyString => true
  | String c s' => negb (Ascii.eqb c newline) && no_newline s'
  end.

(** The number of characters on each line of [s], the first line starting
    with [col] characters already written. *)
Fixpoint line_widths (col : nat) (s : string) : list nat :=
  match s with
  | EmptyString => [col]
  | String c s' =>
      if Ascii.eqb c newline then col :: line_widths 0 s'
      else line_widths (S col) s'
  end.

(** Every character of [s] is a hex digit. *)
Fixpoint all_xdigit (s : string) : bool :=
  match s with
  | EmptyString => true
  | String c s' => isxdigit c && all_xdigit s'
  end.

(** ** Trace parameters within their bounds *)

(** The bounds the trace filter command checks on what it builds: the snap
    length, the minimum length, the skip length, the inversion flag and the
    interface. *)
Definition trace_params_ok (E : MpsTrc.env) (tp : MpsTrc.trace_params)
  : Prop :=
  0 <= MpsTrc.snap_len tp <= 9600
  /\ 0 <= MpsTrc.min_len tp <= MpsTrc.TFMINPKTSIZE_M E
  /\ 0 <= MpsTrc.skip_len tp <= 31
  /\ (MpsTrc.invert tp = 0 \/ MpsTrc.invert tp = 1)
  /\ (MpsTrc.port tp = MpsTrc.TRC_PORT_NONE \/ 0 <= MpsTrc.port tp <= 11).

(** ** Formatting a value in another unit *)

Module UnitConv.

(** [while (rem % 10 == 0) rem /= 10;] *)
Fixpoint strip_zeros (fuel : nat) (rem : Z) : res Z :=
  if rem mod 10 =? 0 then
    match fuel with
    | O => Err Fuel
    | S fuel' => strip_zeros fuel' (rem / 10)
    end
  else Ok rem.

(** [%u]. *)
Definition dec (x : Z) : string := FieldDesc.llu x.

(** [unit_conv]: the text left in [buf].  [None]: the remainder by a zero
    [factor] has no meaning in C; or the loop bound of the embedding was
    reached. *)
Definition unit_conv (len : nat) (val factor : Z) : option string :=
  if factor =? 0 then None
  else
    let rem := val mod factor in
    if rem =? 0 then Some (FieldDesc.scnprintf len (dec (val / factor)))
    else
      match strip_zeros (Z.to_nat rem) rem with
      | Ok rem =>
          Some (FieldDesc.scnprintf len
                  (dec (val / factor) ++ "." ++ dec rem))
      | Err _ => None
      end.

End UnitConv.

(** ** The mailbox command log *)

Module MboxLog.

(** [struct mbox_cmd] of cxgb4.h. *)
Record mbox_cmd : Type := mk_mbox_cmd {
  cmd : list Z;        (* u64 cmd[MBOX_LEN / 8] *)
  timestamp : Z;       (* u64 *)
  seqno : Z;           (* u32 *)
  access : Z;          (* s16 *)
  execute : Z          (* s16 *)
}.

(** [struct mbox_cmd_log] of cxgb4.h with the entries that follow it. *)
Record mbox_cmd_log : Type := mk_mbox_cmd_log {
  size : Z;            (* unsigned int *)
  cursor : Z;          (* unsigned int *)
  entries : list mbox_cmd
}.

(** Modelled from the spec: [mbox_cmd_log_entry] of cxgb4.h, which is not
    among the sources: "the entry at that physical slot" of the array behind
    the log header; [None] outside the array. *)
Definition mbox_cmd_log_entry (log : mbox_cmd_log) (entry_idx : Z)
  : option mbox_cmd :=
  if entry_idx <? 0 then None else entries log !! Z.to_nat entry_idx.

Definition NULL : Z := 0.
Definition SEQ_START_TOKEN : Z := 1.

(** The slot [mboxlog_show] looks at: [entry_idx] is an [int], compared
    with and reduced by the unsigned [log->size]. *)
Definition mboxlog_index (log : mbox_cmd_log) (v : Z) : Z :=
  let entry_idx := s32 (cursor log + u64 (v - 2)) in
  if u32 entry_idx >=? size log then s32 (u32 entry_idx - size log)
  else entry_idx.

Inductive shown : Type :=
  | Header
  | Nothing
  | Entry (entry_idx : Z) (e : mbox_cmd).

Definition mboxlog_show (log : mbox_cmd_log) (v : Z) : option shown :=
  if v =? SEQ_START_TOKEN then Some Header
  else
    let entry_idx := mboxlog_index log v in
    match mbox_cmd_log_entry log entry_idx with
    | None => None
    | Some e =>
        if timestamp e =? 0 then Some Nothing   (* skip over unused entries *)
        else Some (Entry entry_idx e)
    end.

Definition mboxlog_get_idx (log : mbox_cmd_log) (pos : Z) : Z :=
  if pos <=? size log then pos + 1 else NULL.

Definition mboxlog_start (log : mbox_cmd_log) (pos : Z) : Z :=
  if negb (pos =? 0) then mboxlog_get_idx log pos else SEQ_START_TOKEN.

Definition mboxlog_next (log : mbox_cmd_log) (v : Z) (pos : Z) : Z * Z :=
  (mboxlog_get_idx log (pos + 1), pos + 1).

(** seq_file's traversal, as for the device log. *)
Fixpoint traverse_from (log : mbox_cmd_log) (n : nat) (v : Z) (pos : Z)
  : list Z :=
  match n with
  | O => []
  | S n' =>
      let '(v', pos') := mboxlog_next log v pos in
      v' :: (if v' =? NULL then [] else traverse_from log n' v' pos')
  end.

Definition traverse (log : mbox_cmd_log) (n : nat) : list Z :=
  let v := mboxlog_start log 0 in v :: traverse_from log n v 0.

End MboxLog.

(** ** Walking the MPS TCAM *)

Module TcamSeq.

Definition NULL : Z := 0.
Definition SEQ_START_TOKEN : Z := 1.

Section Walk.

(** [NUM_MPS_CLS_SRAM_L_INSTANCES] or [NUM_MPS_T5_CLS_SRAM_L_INSTANCES] of
    t4_regs.h, as the chip has it. *)
Context (max_mac_addr : Z).

Definition mps_tcam_get_idx (pos : Z) : Z :=
  if pos <=? max_mac_addr then pos + 1 else NULL.

Definition mps_tcam_start (pos : Z) : Z :=
  if negb (pos =? 0) then mps_tcam_get_idx pos else SEQ_START_TOKEN.

Definition mps_tcam_next (v : Z) (pos : Z) : Z * Z :=
  (mps_tcam_get_idx (pos + 1), pos + 1).

(** [unsigned int idx = (uintptr_t)v - 2] of [mps_tcam_show]. *)
Definition mps_tcam_idx (v : Z) : Z := u32 (v - 2).

Fixpoint traverse_from (n : nat) (v : Z) (pos : Z) : list Z :=
  match n with
  | O => []
  | S n' =>
      let '(v', pos') := mps_tcam_next v pos in
      v' :: (if v' =? NULL then [] else traverse_from n' v' pos')
  end.

Definition traverse (n : nat) : list Z :=
  let v := mps_tcam_start 0 in v :: traverse_from n v 0.

End Walk.

End TcamSeq.

(** ** Showing the RSS secret key *)

Module RssKeyShow.

(** The digit [%x] prints for a nibble. *)
Definition hexdigit (n : Z) : ascii :=
  if n <? 10 then ascii_of_nat (Z.to_nat (48 + n))
  else ascii_of_nat (Z.to_nat (97 + (n - 10))).

(** The nibbles of a 32-bit value, the most significant first. *)
Definition nibbles (x : Z) : list Z :=
  [ (x / 16 ^ 7) mod 16; (x / 16 ^ 6) mod 16; (x / 16 ^ 5) mod 16;
    (x / 16 ^ 4) mod 16; (x / 16 ^ 3) mod 16; (x / 16 ^ 2) mod 16;
    (x / 16 ^ 1) mod 16; x mod 16 ].

Fixpoint hexstr (ds : list Z) : string :=
  match ds with
  | [] => EmptyString
  | d :: ds' => String (hexdigit d) (hexstr ds')
  end.

(** [%08x] on an [unsigned int]. *)
Definition fmt_08x (x : Z) : string := hexstr (nibbles (u32 x)).

(** [rss_key_show] on the key [t4_read_rss_key] delivered. *)
Definition rss_key_show (key : list Z) : string :=
  (fmt_08x (load key 9) ++ fmt_08x (load key 8) ++ fmt_08x (load key 7)
   ++ fmt_08x (load key 6) ++ fmt_08x (load key 5) ++ fmt_08x (load key 4)
   ++ fmt_08x (load key 3) ++ fmt_08x (load key 2) ++ fmt_08x (load key 1)
   ++ fmt_08x (load key 0) ++ nl)%string.

End RssKeyShow.

(** ** Reading the flash and the adapter memories *)

Module Flash.

(** What a read does: the value returned, the new [*ppos], and the bytes
    handed to [copy_to_user], the copies having succeeded. *)
Record outcome : Type := mk_outcome {
  ret : Z;
  ppos : Z;
  copied : list Z
}.

Section Read.

(** [t4_read_flash(adap, addr, nwords, data, 1)]: a nonzero status, or the
    bytes it stored in [data]. *)
Context (t4_read_flash : Z -> Z -> Z + list Z).

(** The loop [while (count)] of [flash_read]; [out] is what has been copied
    so far.  [inl]: the status of a failed read, [inr]: the final [pos]. *)
Fixpoint flash_loop (fuel : nat) (pos count : Z) (out : list Z)
  : res ((Z + Z) * list Z) :=
  if count =? 0 then Ok (inr pos, out)
  else
    match fuel with
    | O => Err Fuel
    | S fuel' =>
        let ofst := Z.land pos 3 in
        let len := Z.min (count + ofst) 256 in
        match t4_read_flash (pos - ofst) (Z.quot (len + 3) 4) with
        | inl r => Ok (inl r, out)
        | inr data =>
            let len := len - ofst in
            flash_loop fuel' (pos + len) (count - len)
              (out ++ take (Z.to_nat len) (drop (Z.to_nat ofst) data))
        end
    end.

(** [flash_read] at [*ppos = pos0] on a file of [avail] bytes.  [None]: the
    loop bound of the embedding was reached. *)
Definition flash_read (avail pos0 count : Z) : option outcome :=
  let pos := pos0 in
  if pos <? 0 then Some (mk_outcome (- EINVAL) pos0 [])
  else if pos >=? avail then Some (mk_outcome 0 pos0 [])
  else
    let count := if count >? avail - pos then avail - pos else count in
    match flash_loop (Z.to_nat count) pos count [] with
    | Ok (inl r, out) => Some (mk_outcome r pos0 out)
    | Ok (inr pos, out) => Some (mk_outcome (pos - pos0) pos out)
    | Err _ => None
    end.

End Read.

Section MemRead.

(** [t4_memory_rw(adap, 0, mem, pos, count, data, T4_MEMORY_READ)]: a
    nonzero status, or the bytes read. *)
Context (t4_memory_rw : Z -> Z -> Z + list Z).

(** [mem_read], the allocation and the copy having succeeded. *)
Definition mem_read (avail pos0 count : Z) : outcome :=
  let pos := pos0 in
  if pos <? 0 then mk_outcome (- EINVAL) pos0 []
  else if pos >=? avail then mk_outcome 0 pos0 []
  else
    let count := if count >? avail - pos then avail - pos else count in
    match t4_memory_rw pos count with
    | inl r => mk_outcome r pos0 []
    | inr data => mk_outcome count (pos + count) (take (Z.to_nat count) data)
    end.

End MemRead.

(** A device whose bytes are [mem]: it returns the [n] bytes at [addr]. *)
Definition bytes_at (mem : Z -> Z) (addr n : Z) : list Z :=
  map mem (seqZ addr n).

End Flash.

(** ** The SGE queue report *)

Module SgeQinfo.

Definition NULL : Z := 0.

Definition DIV_ROUND_UP (n d : Z) : Z := Z.quot (n + d - 1) d.

Section Queues.

(** [adap->sge.ethqsets], [adap->sge.ofldqsets], [adap->params.nports] and
    [MAX_CTRL_QUEUES] of cxgb4.h. *)
Context (ethqsets ofldqsets nports MAX_CTRL_QUEUES : Z).

Definition sge_queue_entries : Z :=
  DIV_ROUND_UP ethqsets 4 + DIV_ROUND_UP ofldqsets 4
  + DIV_ROUND_UP MAX_CTRL_QUEUES 4 + 1.

Definition sge_queue_start (pos : Z) : Z :=
  if pos <? sge_queue_entries then pos + 1 else NULL.

Definition sge_queue_next (v : Z) (pos : Z) : Z * Z :=
  let pos := pos + 1 in
  (if pos <? sge_queue_entries then pos + 1 else NULL, pos).

(** What [sge_qinfo_show] prints for one element: the kind of queue and, for
    the columns [i = 0 .. n - 1], the index of the queue shown. *)
Inductive qrow : Type :=
  | EthRow (qsets : list Z)
  | OfldRow (qsets : list Z)
  | CtrlRow (qsets : list Z)
  | FwEvtRow
  | NoRow.

Definition columns (base n : Z) : list Z := map (Z.add base) (seqZ 0 n).

Definition sge_qinfo_show (v : Z) : qrow :=
  let eth_entries := DIV_ROUND_UP ethqsets 4 in
  let ofld_entries := DIV_ROUND_UP ofldqsets 4 in
  let ctrl_entries := DIV_ROUND_UP MAX_CTRL_QUEUES 4 in
  let r := s32 (v - 1) in
  let ofld_idx := r - eth_entries in
  let ctrl_idx := ofld_idx - ofld_entries in
  let fq_idx := ctrl_idx - ctrl_entries in
  if r <? eth_entries then
    EthRow (columns (r * 4) (Z.min 4 (ethqsets - 4 * r)))
  else if ofld_idx <? ofld_entries then
    OfldRow (columns (ofld_idx * 4) (Z.min 4 (ofldqsets - 4 * ofld_idx)))
  else if ctrl_idx <? ctrl_entries then
    CtrlRow (columns (ctrl_idx * 4) (Z.min 4 (nports - 4 * ctrl_idx)))
  else if fq_idx =? 0 then FwEvtRow
  else NoRow.

(** The elements seq_file shows: [start] at 0, then [next] while it does
    not return [NULL], at most [n] times. *)
Fixpoint traverse_from (n : nat) (v : Z) (pos : Z) : list Z :=
  match n with
  | O => []
  | S n' =>
      let '(v', pos') := sge_queue_next v pos in
      if v' =? NULL then [] else v' :: traverse_from n' v' pos'
  end.

Definition traverse (n : nat) : list Z :=
  let v := sge_queue_start 0 in
  if v =? NULL then [] else v :: traverse_from n v 0.

(** The rows of the three kinds, by their number within the kind. *)
Definition eth_row (r : Z) : qrow :=
  EthRow (columns (r * 4) (Z.min 4 (ethqsets - 4 * r))).
Definition ofld_row (r : Z) : qrow :=
  OfldRow (columns (r * 4) (Z.min 4 (ofldqsets - 4 * r))).
Definition ctrl_row (r : Z) : qrow :=
  CtrlRow (columns (r * 4) (Z.min 4 (nports - 4 * r))).

Definition eth_qsets (r : qrow) : list Z :=
  match r with EthRow q => q | _ => [] end.

Definition ofld_qsets (r : qrow) : list Z :=
  match r with OfldRow q => q | _ => [] end.

End Queues.

End SgeQinfo.

(** ** Holes of the memory map and the trace mask *)

Module MemHoles.

Import MemInfo.

(** [for (n = 0; n < i - 1; n++) if (avail[n].limit < avail[n + 1].base)
    (md++)->base = avail[n].limit;] on the sorted ranges: the bases
    stored. *)
Fixpoint holes_between (avail : list mem_desc) : list Z :=
  match avail with
  | a :: (b :: _) as rest =>
      (if limit a <? base b then [limit a] else []) ++ holes_between rest
  | _ => []
  end.

(** With the hole above the last range:
    [if (avail[n].limit) (md++)->base = avail[n].limit;] *)
Definition holes (avail : list mem_desc) : list Z :=
  holes_between avail
  ++ match last avail with
     | Some a => if negb (limit a =? 0) then [limit a] else []
     | None => []
     end.

(** [ARRAY_SIZE(mem)], and the number of entries before the holes. *)
Definition mem_size : Z := nregion + 3.
Definition named_entries : Z := nregion.

(** The entries [mem] receives for the holes, which follow the
    [named_entries] entries of the regions: they keep the limit 0 and the
    index of their place that the first loop of [meminfo_show] gave them.
    [None]: there are more holes than the [mem_size - named_entries] entries
    left, and [(md++)->base] writes past the end of [mem]. *)
Definition hole_entries (avail : list mem_desc) : option (list mem_desc) :=
  if named_entries + Z.of_nat (length (holes avail)) <=? mem_size then
    Some (imap (fun k b => mk_mem_desc b 0 (named_entries + Z.of_nat k))
            (holes avail))
  else None.

End MemHoles.

Module TpLa.

Inductive effect : Type :=
  | t4_set_reg_field (mask val : Z).   (* on TP_DBG_LA_CONFIG_A *)

Section Write.

(** [kstrtoul(s, 0, &val)]: a nonzero status, or the value stored. *)
Context (kstrtoul : string -> Z + Z).

(** [tp_la_write] on the [count] bytes [buf]: the value returned, the new
    [adap->params.tp.la_mask] if it was set, and the register access. *)
Definition tp_la_write (buf : string) : Z * option Z * list effect :=
  let count := Z.of_nat (String.length buf) in
  let size := Nat.min (32 - 1) (String.length buf) in
  let s := cstr (String.substring 0 size buf) in
  match kstrtoul s with
  | inl err => (err, None, [])
  | inr val =>
      if val >? 0xffff then (- EINVAL, None, [])
      else
        let la_mask := u32 (Z.shiftl val 16) in
        (count, Some la_mask, [t4_set_reg_field 0xffff0000 la_mask])
  end.

End Write.

End TpLa.

(** * Properties *)

(** ** Machine integers *)

Lemma u32_range x : 0 <= u32 x < 2 ^ 32.
Proof. unfold u32. apply Z.mod_pos_bound. lia. Qed.

Lemma u32_small x : 0 <= x < 2 ^ 32 -> u32 x = x.
Proof. intros H. unfold u32. now apply Z.mod_small. Qed.

Lemma u64_small x : 0 <= x < 2 ^ 64 -> u64 x = x.
Proof. intros H. unfold u64. now apply Z.mod_small. Qed.

Lemma s32_small x : 0 <= x < 2 ^ 31 -> s32 x = x.
Proof.
  intros H. unfold s32. rewrite u32_small by lia.
  destruct (Z.ltb_spec x (2 ^ 31)); lia.
Qed.

(** ** The table cursor *)

Section SeqTabFacts.

Import SeqTab.

Variable tb : seq_tab.

(** A pointer [seq_tab_get_idx] returns lies in a row before [rows]. *)
Lemma seq_tab_get_idx_bound pos off :
  0 < width tb -> Z.b2z (skip_first tb) <= pos ->
  seq_tab_get_idx tb pos = Data off ->
  0 <= seq_tab_show_idx tb off < rows tb.
Proof.
  unfold seq_tab_get_idx, seq_tab_show_idx. intros Hw Hpos.
  destruct (Z.geb_spec (pos - Z.b2z (skip_first tb)) (rows tb)) as [Hge|Hlt];
    [discriminate|].
  intros [= <-]. rewrite Z.quot_mul by lia. lia.
Qed.

Lemma seq_tab_start_bound pos off :
  0 < width tb -> 0 <= pos ->
  seq_tab_start tb pos = Data off ->
  0 <= seq_tab_show_idx tb off < rows tb.
Proof.
  unfold seq_tab_start. intros Hw Hpos.
  destruct (skip_first tb) eqn:Hs; simpl.
  - destruct (Z.eqb_spec pos 0); [discriminate|].
    apply seq_tab_get_idx_bound; rewrite ?Hs; simpl; lia.
  - apply seq_tab_get_idx_bound; rewrite ?Hs; simpl; lia.
Qed.

Lemma seq_tab_next_bound v pos off :
  0 < width tb -> 0 <= pos ->
  (seq_tab_next tb v pos).1 = Data off ->
  0 <= seq_tab_show_idx tb off < rows tb.
Proof.
  unfold seq_tab_next. intros Hw Hpos H.
  apply (seq_tab_get_idx_bound (pos + 1)); [lia| |].
  - destruct (skip_first tb); simpl; lia.
  - destruct (seq_tab_get_idx tb (pos + 1)); simpl in H; congruence.
Qed.

(** From the position before row [k], with [n] rows left, [n] calls of
    [next] return those rows and one more returns [NULL]. *)
Lemma advance_to_end n : forall (k : nat) v pos,
  pos + 1 - Z.b2z (skip_first tb) = Z.of_nat k ->
  rows tb = Z.of_nat (k + n) ->
  advance tb (S n) v pos =
  map (fun i => Data (Z.of_nat i * width tb)) (seq k n) ++ [NULL].
Proof.
  induction n as [|n IH]; intros k v pos Hk Hrows.
  - simpl. unfold seq_tab_next, seq_tab_get_idx. rewrite Hk.
    destruct (Z.geb_spec (Z.of_nat k) (rows tb)); [reflexivity|lia].
  - change (advance tb (S (S n)) v pos)
      with (let '(v', pos') := seq_tab_next tb v pos in
            v' :: advance tb (S n) v' pos').
    unfold seq_tab_next at 1, seq_tab_get_idx. rewrite Hk.
    destruct (Z.geb_spec (Z.of_nat k) (rows tb)); [lia|].
    rewrite (IH (S k)) by lia. reflexivity.
Qed.

Lemma walk_to_end :
  0 <= rows tb -> walk tb (steps tb) = header tb ++ row_ptrs tb ++ [NULL].
Proof.
  intros Hr. unfold walk, steps, header, row_ptrs, seq_tab_start.
  destruct (skip_first tb) eqn:Hs; simpl andb; cbv iota.
  - rewrite Nat.add_1_r, (advance_to_end _ 0%nat) by (rewrite ?Hs; simpl; lia).
    reflexivity.
  - rewrite Nat.add_0_r. unfold seq_tab_get_idx. rewrite Hs. simpl Z.b2z.
    destruct (Z.geb_spec (0 - 0) (rows tb)) as [Hge|Hlt].
    + replace (rows tb) with 0 by lia. reflexivity.
    + destruct (Z.to_nat (rows tb)) as [|n] eqn:Hn; [lia|].
      rewrite (advance_to_end _ 1%nat) by (rewrite ?Hs; simpl; lia).
      reflexivity.
Qed.

End SeqTabFacts.

(** C1.  A cursor started at the beginning of a table and then advanced
    [rows] times, or [rows + 1] times when the table has a header, returns
    the header token if there is one, then the rows in order, and as its
    last answer [NULL]; and whatever position [start] or [next] is called
    at, a row it returns has an index below [rows]. *)
Theorem seq_tab_cursor_reaches_end (tb : SeqTab.seq_tab) :
  0 <= SeqTab.rows tb -> 0 < SeqTab.width tb ->
  SeqTab.walk tb (SeqTab.steps tb)
    = SeqTab.header tb ++ SeqTab.row_ptrs tb ++ [SeqTab.NULL]
  /\ (forall pos off, 0 <= pos ->
        SeqTab.seq_tab_start tb pos = SeqTab.Data off ->
        0 <= SeqTab.seq_tab_show_idx tb off < SeqTab.rows tb)
  /\ (forall v pos off, 0 <= pos ->
        (SeqTab.seq_tab_next tb v pos).1 = SeqTab.Data off ->
        0 <= SeqTab.seq_tab_show_idx tb off < SeqTab.rows tb).
Proof.
  intros Hr Hw. split; [|split].
  - now apply walk_to_end.
  - intros pos off Hpos. now apply seq_tab_start_bound.
  - intros v pos off Hpos. now apply seq_tab_next_bound.
Qed.

Lemma seq_tab_cursor_reaches_end_witness :
  SeqTab.walk (SeqTab.seq_open_tab 3 16 1) 4
    = [SeqTab.SEQ_START_TOKEN; SeqTab.Data 0; SeqTab.Data 16; SeqTab.Data 32;
       SeqTab.NULL].
Proof.
  exact (proj1 (seq_tab_cursor_reaches_end (SeqTab.seq_open_tab 3 16 1)
                  ltac:(now vm_compute) ltac:(now vm_compute))).
Defined.

Example walk_2x4_plain :
  SeqTab.walk (SeqTab.seq_open_tab 2 4 0) 2
  = [SeqTab.Data 0; SeqTab.Data 4; SeqTab.NULL].
Proof. reflexivity. Qed.

(** C4.  [seq_tab_trim] to at most the current number of rows succeeds and
    leaves a table whose traversal gives exactly the first [new_rows] rows
    and then [NULL], no call returning a row at or past [new_rows]; a
    larger [new_rows] is refused with [-EINVAL] and the table is left as it
    was. *)
Theorem seq_tab_trim_spec (p : SeqTab.seq_tab) (new_rows : Z) :
  0 <= new_rows -> 0 < SeqTab.width p ->
  (new_rows <= SeqTab.rows p ->
     exists p', SeqTab.seq_tab_trim p new_rows = (0, p')
       /\ SeqTab.rows p' = new_rows
       /\ SeqTab.walk p' (SeqTab.steps p')
            = SeqTab.header p
              ++ map (fun i => SeqTab.Data (Z.of_nat i * SeqTab.width p))
                   (seq 0 (Z.to_nat new_rows))
              ++ [SeqTab.NULL]
       /\ (forall pos off, 0 <= pos ->
             SeqTab.seq_tab_start p' pos = SeqTab.Data off ->
             0 <= SeqTab.seq_tab_show_idx p' off < new_rows)
       /\ (forall v pos off, 0 <= pos ->
             (SeqTab.seq_tab_next p' v pos).1 = SeqTab.Data off ->
             0 <= SeqTab.seq_tab_show_idx p' off < new_rows))
  /\ (SeqTab.rows p < new_rows ->
     SeqTab.seq_tab_trim p new_rows = (- EINVAL, p)).
Proof.
  intros Hn Hw. unfold SeqTab.seq_tab_trim. split; intros H.
  - destruct (Z.gtb_spec new_rows (SeqTab.rows p)); [lia|].
    eexists. split; [reflexivity|]. split; [reflexivity|].
    split; [|split].
    + now rewrite walk_to_end.
    + intros pos off Hpos. now apply seq_tab_start_bound.
    + intros v pos off Hpos. now apply seq_tab_next_bound.
  - destruct (Z.gtb_spec new_rows (SeqTab.rows p)); [reflexivity|lia].
Qed.

Lemma seq_tab_trim_spec_witness :
  SeqTab.seq_tab_trim (SeqTab.seq_open_tab 768 16 0) 1000
  = (- EINVAL, SeqTab.seq_open_tab 768 16 0).
Proof.
  apply (seq_tab_trim_spec (SeqTab.seq_open_tab 768 16 0) 1000);
    now vm_compute.
Defined.

Example seq_tab_trim_2_of_3 :
  let p' := (SeqTab.seq_tab_trim (SeqTab.seq_open_tab 3 16 0) 2).2 in
  SeqTab.walk p' 2 = [SeqTab.Data 0; SeqTab.Data 16; SeqTab.NULL].
Proof. reflexivity. Qed.

(** [cim_obq_open] shows the [ret / 4] rows that were read when that does
    not exceed the rows allocated. *)
Lemma cim_obq_open_rows (p : SeqTab.seq_tab) (ret : Z) :
  0 <= ret -> Z.quot ret 4 <= SeqTab.rows p ->
  exists p', SeqTab.cim_obq_open p ret = (0, Some p')
             /\ SeqTab.rows p' = Z.quot ret 4.
Proof.
  intros Hret Hle. unfold SeqTab.cim_obq_open, SeqTab.seq_tab_trim.
  destruct (Z.ltb_spec ret 0); [lia|].
  destruct (Z.gtb_spec (Z.quot ret 4) (SeqTab.rows p)); [lia|].
  eexists. split; reflexivity.
Qed.

(** ** The field decoder *)

Section FieldDescFacts.

Import FieldDesc.

Lemma shl64_one w : 0 <= w < 64 -> shl64 1 w = Some (2 ^ w).
Proof.
  intros H. unfold shl64.
  destruct (Z.leb_spec 0 w); [|lia]. destruct (Z.ltb_spec w 64); [|lia].
  simpl. rewrite Z.shiftl_1_l, u64_small; [reflexivity|].
  split; [apply Z.pow_nonneg; lia|apply Z.pow_lt_mono_r; lia].
Qed.

Lemma field_value_in_range v p :
  0 <= width p < 64 -> 0 <= start p < 64 ->
  field_value v p = Some (Z.land (Z.shiftr v (start p)) (2 ^ width p - 1)).
Proof.
  intros Hw Hs. unfold field_value. rewrite shl64_one by lia.
  unfold shr64. destruct (Z.leb_spec 0 (start p)); [|lia].
  destruct (Z.ltb_spec (start p) 64); [|lia]. simpl.
  rewrite u64_small; [reflexivity|].
  assert (0 < 2 ^ width p) by (apply Z.pow_pos_nonneg; lia).
  assert (2 ^ width p < 2 ^ 64) by (apply Z.pow_lt_mono_r; lia). lia.
Qed.

Lemma tables_ok : Forall field_ok (tp_la0 ++ tp_la1 ++ tp_la2).
Proof. repeat constructor; simpl; lia. Qed.

Lemma tables_width_le_10 :
  Forall (fun p => width p <= 10) (tp_la0 ++ tp_la1 ++ tp_la2).
Proof. repeat constructor; simpl; lia. Qed.

(** On such fields the decoder always produces its text. *)
Lemma field_desc_show_defined v p :
  Forall field_ok p -> forall line_size,
  is_Some (field_desc_show_from line_size v p).
Proof.
  induction 1 as [|f p [Hs [Hw1 [Hw2 Hsw]]] _ IH]; intros line_size; simpl.
  - eauto.
  - rewrite field_value_in_range by lia.
    match goal with |- context [field_desc_show_from ?l v p] =>
      destruct (IH l) as [rest ->] end.
    eauto.
Qed.

End FieldDescFacts.

(** C5, as the code has it.  For a field at bit offset [start], 0..63, of
    width 1..63, the decoder prints [(v >> start) & ((1 << width) - 1)], the
    bits [start .. start + width - 1] of the word; a 4-bit field at offset 0
    of 0xABCD gives 0xD.  Width 64 has no case of its own in the code, and
    the field tables of the file stay at widths of at most 10 bits. *)
Theorem field_value_spec (v : Z) (p : FieldDesc.field_desc) :
  1 <= FieldDesc.width p <= 63 -> 0 <= FieldDesc.start p <= 63 ->
  FieldDesc.field_value v p
    = Some (Z.land (Z.shiftr v (FieldDesc.start p))
                   (Z.shiftl 1 (FieldDesc.width p) - 1))
  /\ FieldDesc.field_value v p
    = Some ((v / 2 ^ FieldDesc.start p) mod 2 ^ FieldDesc.width p)
  /\ FieldDesc.field_value 0xABCD (FieldDesc.fd "f" 0 4) = Some 0xD
  /\ Forall (fun f => FieldDesc.width f <= 10)
       (FieldDesc.tp_la0 ++ FieldDesc.tp_la1 ++ FieldDesc.tp_la2).
Proof.
  intros Hw Hs. rewrite field_value_in_range by lia.
  rewrite Z.shiftl_1_l. split; [reflexivity|].
  split; [|split; [reflexivity|exact tables_width_le_10]].
  replace (2 ^ FieldDesc.width p - 1) with (Z.ones (FieldDesc.width p))
    by (rewrite Z.ones_equiv; lia).
  rewrite Z.land_ones, Z.shiftr_div_pow2 by lia. reflexivity.
Qed.

Lemma field_value_spec_witness :
  FieldDesc.field_value 0xABCD (FieldDesc.fd "Tid" 4 10)
  = Some ((0xABCD / 2 ^ 4) mod 2 ^ 10).
Proof.
  apply (field_value_spec 0xABCD (FieldDesc.fd "Tid" 4 10)); simpl; lia.
Defined.

(** A field of width 64 at offset 0 does not come out as the full word: the
    mask is computed as [(1ULL << 64) - 1] with no case for this width, a
    shift C leaves undefined. *)
Lemma field_value_width_64 :
  FieldDesc.field_value 0xABCD (FieldDesc.fd "f" 0 64) <> Some 0xABCD.
Proof. discriminate. Qed.

Example field_desc_show_two_fields :
  FieldDesc.field_desc_show 0xABCD
    [FieldDesc.fd "lo" 0 4; FieldDesc.fd "hi" 4 12]
  = Some ("lo: 13 hi: 2748 " ++ nl)%string.
Proof. reflexivity. Qed.

(** ** The device log *)

Section DevlogFacts.

Import Devlog.

(** The search either keeps the [first] it started with, no used entry
    lying below [fseqno], or ends on the earliest position among the used
    entries of least sequence number. *)
Lemma devlog_scan_spec entries : forall index fseqno first0,
  (devlog_scan entries index fseqno first0 = first0
   /\ forall e, e ∈ entries -> live e -> fseqno <= seqn e)
  \/ (exists (k : nat) e,
        entries !! k = Some e /\ live e /\ seqn e < fseqno
        /\ devlog_scan entries index fseqno first0 = index + Z.of_nat k
        /\ forall (j : nat) e', entries !! j = Some e' -> live e' ->
             seqn e <= seqn e' /\ (seqn e' = seqn e -> (k <= j)%nat)).
Proof.
  induction entries as [|e entries IH]; intros index fseqno first0.
  - left. split; [reflexivity|]. intros e He. inversion He.
  - cbn [devlog_scan]. destruct (timestamp_is_zero e) eqn:Hts.
    + (* an unused entry is passed over *)
      destruct (IH (index + 1) fseqno first0)
        as [[Hr Hall]|(k & e0 & Hk & Hl & Hlt & Hr & Hmin)].
      * left. split; [exact Hr|]. intros e' He' Hl'.
        apply elem_of_cons in He' as [->|He']; [|now apply Hall].
        unfold live in Hl'. congruence.
      * right. exists (S k), e0.
        split; [exact Hk|]. split; [exact Hl|]. split; [exact Hlt|].
        split; [rewrite Hr; lia|].
        intros [|j] e' Hj Hl'; cbn in Hj.
        -- injection Hj as <-. unfold live in Hl'. congruence.
        -- destruct (Hmin j e' Hj Hl') as [Hle Hlow].
           split; [exact Hle|]. intros Heq. specialize (Hlow Heq). lia.
    + fold (seqn e). destruct (Z.ltb_spec (seqn e) fseqno) as [Hlt|Hge].
      * (* a new minimum: the search goes on from it *)
        destruct (IH (index + 1) (seqn e) index)
          as [[Hr Hall]|(k & e0 & Hk & Hl & Hlt0 & Hr & Hmin)].
        -- right. exists 0%nat, e.
           split; [reflexivity|]. split; [exact Hts|]. split; [exact Hlt|].
           split; [rewrite Hr; lia|].
           intros [|j] e' Hj Hl'; cbn in Hj.
           ++ injection Hj as <-. split; [lia|intros _; lia].
           ++ split; [|intros _; lia].
              apply Hall; [|exact Hl']. now apply list_elem_of_lookup_2 in Hj.
        -- right. exists (S k), e0.
           split; [exact Hk|]. split; [exact Hl|]. split; [lia|].
           split; [rewrite Hr; lia|].
           intros [|j] e' Hj Hl'; cbn in Hj.
           ++ injection Hj as <-. split; [lia|intros Heq; lia].
           ++ destruct (Hmin j e' Hj Hl') as [Hle Hlow].
              split; [exact Hle|]. intros Heq. specialize (Hlow Heq). lia.
      * (* not below the minimum so far *)
        destruct (IH (index + 1) fseqno first0)
          as [[Hr Hall]|(k & e0 & Hk & Hl & Hlt0 & Hr & Hmin)].
        -- left. split; [exact Hr|]. intros e' He' Hl'.
           apply elem_of_cons in He' as [->|He']; [lia|now apply Hall].
        -- right. exists (S k), e0.
           split; [exact Hk|]. split; [exact Hl|]. split; [exact Hlt0|].
           split; [rewrite Hr; lia|].
           intros [|j] e' Hj Hl'; cbn in Hj.
           ++ injection Hj as <-. split; [lia|intros Heq; lia].
           ++ destruct (Hmin j e' Hj Hl') as [Hle Hlow].
              split; [exact Hle|]. intros Heq. specialize (Hlow Heq). lia.
Qed.

End DevlogFacts.

Section DevlogOrder.

Import Devlog.

Lemma captured_first_cases entries :
  (first (captured entries) = 0
   /\ forall e, e ∈ entries -> live e -> 0xffffffff <= seqn e)
  \/ (exists (k : nat) e,
        entries !! k = Some e /\ live e /\ seqn e < 0xffffffff
        /\ first (captured entries) = Z.of_nat k
        /\ forall (j : nat) e', entries !! j = Some e' -> live e' ->
             seqn e <= seqn e' /\ (seqn e' = seqn e -> (k <= j)%nat)).
Proof.
  change 0xffffffff with (u32 (Z.lnot 0)).
  destruct (devlog_scan_spec entries 0 (u32 (Z.lnot 0)) 0)
    as [H|(k & e & Hk & Hl & Hlt & Hr & Hmin)]; [left; exact H|].
  right. exists k, e. split; [exact Hk|]. split; [exact Hl|].
  split; [exact Hlt|]. split; [|exact Hmin].
  simpl. rewrite Hr. lia.
Qed.

(** What [devlog_open] records describes the log it read. *)
Lemma captured_wf entries :
  entries <> [] ->
  0 <= first (captured entries) < nentries (captured entries)
  /\ nentries (captured entries) = Z.of_nat (length (log (captured entries))).
Proof.
  intros Hne. split; [|reflexivity]. simpl nentries.
  destruct (captured_first_cases entries)
    as [[-> _]|(k & e & Hk & _ & _ & -> & _)].
  - destruct entries; [congruence|]. simpl length. lia.
  - apply lookup_lt_Some in Hk. lia.
Qed.

Lemma devlog_index_mod d i :
  0 <= first d < nentries d -> nentries d <= 2 ^ 31 ->
  0 <= i < nentries d ->
  devlog_index d (i + 2) = (first d + i) mod nentries d.
Proof.
  intros Hf Hn Hi. unfold devlog_index.
  replace (i + 2 - 2) with i by lia.
  rewrite s32_small, u32_small by lia.
  destruct (Z.geb_spec (first d + i) (nentries d)).
  - apply Z.mod_unique_pos with (q := 1); lia.
  - symmetry. apply Z.mod_small. lia.
Qed.

Lemma devlog_traverse_from_S d n v pos :
  traverse_from d (S n) v pos
  = devlog_get_idx d (pos + 1)
    :: (if devlog_get_idx d (pos + 1) =? NULL then []
        else traverse_from d n (devlog_get_idx d (pos + 1)) (pos + 1)).
Proof. reflexivity. Qed.

Lemma devlog_traverse_from_end d (k : nat) : forall (extra p : nat) v,
  nentries d = Z.of_nat (p + k) ->
  traverse_from d (S k + extra) v (Z.of_nat p)
  = map (fun i => Z.of_nat i + 2) (seq p k) ++ [NULL].
Proof.
  induction k as [|k IH]; intros extra p v Hn;
    rewrite Nat.add_succ_l, devlog_traverse_from_S; unfold devlog_get_idx.
  - destruct (Z.gtb_spec (Z.of_nat p + 1) (nentries d)); [reflexivity|lia].
  - destruct (Z.gtb_spec (Z.of_nat p + 1) (nentries d)); [lia|].
    destruct (Z.eqb_spec (Z.of_nat p + 1 + 1) NULL) as [E|_];
      [unfold NULL in E; lia|].
    replace (Z.of_nat p + 1) with (Z.of_nat (S p)) by lia.
    rewrite IH by lia. simpl. f_equal. lia.
Qed.

Lemma devlog_traverse_end d :
  0 <= nentries d ->
  traverse d (S (Z.to_nat (nentries d)))
  = SEQ_START_TOKEN
    :: map (fun i => Z.of_nat i + 2) (seq 0 (Z.to_nat (nentries d))) ++ [NULL].
Proof.
  intros Hn. unfold traverse. f_equal.
  rewrite <- (Nat.add_0_r (S (Z.to_nat (nentries d)))).
  apply (devlog_traverse_from_end d _ 0 0). lia.
Qed.

End DevlogOrder.

(** C2, as the code has it.  When some used entry has a sequence number
    below 0xffffffff, [devlog_open] leaves in [first] the position of a used
    entry whose sequence number is the least among the used entries; when
    none has, and so when every time stamp is zero, [first] keeps its
    initial 0.  For sequence numbers 5, 1, 3 on used entries [first] is 1,
    and of a log whose time stamps are all zero no entry is ever shown. *)
Theorem devlog_first_is_minimum (entries : list Devlog.fw_devlog_e) :
  ((exists e, e ∈ entries /\ Devlog.live e /\ Devlog.seqn e < 0xffffffff) ->
     exists e,
       entries !! Z.to_nat (Devlog.first (Devlog.captured entries)) = Some e
       /\ 0 <= Devlog.first (Devlog.captured entries)
            < Devlog.nentries (Devlog.captured entries)
       /\ Devlog.live e
       /\ forall e', e' ∈ entries -> Devlog.live e' ->
                     Devlog.seqn e <= Devlog.seqn e')
  /\ ((forall e, e ∈ entries -> Devlog.live e ->
                 0xffffffff <= Devlog.seqn e) ->
        Devlog.first (Devlog.captured entries) = 0)
  /\ (forall e0 e1 e2, Devlog.live e0 -> Devlog.live e1 -> Devlog.live e2 ->
        Devlog.seqn e0 = 5 -> Devlog.seqn e1 = 1 -> Devlog.seqn e2 = 3 ->
        Devlog.first (Devlog.captured [e0; e1; e2]) = 1)
  /\ ((forall e, e ∈ entries -> ~ Devlog.live e) ->
        (forall v index e,
           Devlog.devlog_show (Devlog.captured entries) v
           <> Some (Devlog.Entry index e))
        /\ (Z.of_nat (length entries) <= 2 ^ 31 ->
            forall i, 0 <= i < Z.of_nat (length entries) ->
              Devlog.devlog_show (Devlog.captured entries) (i + 2)
              = Some Devlog.Nothing)).
Proof.
  split; [|split; [|split]].
  - intros (e & He & Hl & Hlt).
    destruct (captured_first_cases entries)
      as [[_ Hall]|(k & e0 & Hk & Hl0 & _ & Hr & Hmin)].
    + specialize (Hall e He Hl). lia.
    + exists e0. rewrite Hr, Nat2Z.id. split; [exact Hk|].
      split; [apply lookup_lt_Some in Hk; simpl; lia|]. split; [exact Hl0|].
      intros e' He' Hl'. apply list_elem_of_lookup_1 in He' as [j Hj].
      now apply (Hmin j e').
  - intros Hall.
    destruct (captured_first_cases entries)
      as [[Hr _]|(k & e0 & Hk & Hl0 & Hlt & _)]; [exact Hr|].
    apply list_elem_of_lookup_2 in Hk. specialize (Hall e0 Hk Hl0). lia.
  - intros e0 e1 e2 H0 H1 H2 S0 S1 S2. unfold Devlog.live in *.
    unfold Devlog.captured, Devlog.first, Devlog.devlog_scan.
    rewrite H0, H1, H2. fold (Devlog.seqn e0) (Devlog.seqn e1) (Devlog.seqn e2).
    rewrite S0, S1, S2. reflexivity.
  - intros Hdead.
    assert (Hnone : forall v index e,
              Devlog.devlog_show (Devlog.captured entries) v
              <> Some (Devlog.Entry index e)).
    { intros v index e. unfold Devlog.devlog_show.
      destruct (v =? Devlog.SEQ_START_TOKEN); [discriminate|].
      destruct (Devlog.log (Devlog.captured entries) !! _) as [e'|] eqn:Hlk;
        [|discriminate].
      apply list_elem_of_lookup_2 in Hlk. simpl in Hlk.
      specialize (Hdead e' Hlk). unfold Devlog.live in Hdead.
      destruct (Devlog.timestamp_is_zero e'); [discriminate|congruence]. }
    split; [exact Hnone|]. intros Hlen i Hi.
    assert (Hf : Devlog.first (Devlog.captured entries) = 0).
    { destruct (captured_first_cases entries)
        as [[Hr _]|(k & e0 & Hk & Hl0 & _)]; [exact Hr|].
      apply list_elem_of_lookup_2 in Hk. now destruct (Hdead e0 Hk). }
    pose proof (devlog_index_mod (Devlog.captured entries) i) as Hidx.
    rewrite Hf in Hidx. simpl Devlog.nentries in Hidx.
    specialize (Hidx ltac:(lia) Hlen Hi).
    rewrite Z.add_0_l, Z.mod_small in Hidx by lia.
    unfold Devlog.devlog_show.
    destruct (Z.eqb_spec (i + 2) Devlog.SEQ_START_TOKEN) as [Heq|_];
      [unfold Devlog.SEQ_START_TOKEN in Heq; lia|].
    rewrite Hidx. simpl Devlog.log.
    destruct (entries !! Z.to_nat i) as [e'|] eqn:Hlk.
    + apply list_elem_of_lookup_2 in Hlk. specialize (Hdead e' Hlk).
      unfold Devlog.live in Hdead.
      destruct (Devlog.timestamp_is_zero e'); [reflexivity|congruence].
    + apply lookup_ge_None in Hlk. lia.
Qed.

Lemma devlog_first_is_minimum_witness :
  Devlog.first
    (Devlog.captured [Devlog.entry 5 7; Devlog.entry 1 8; Devlog.entry 3 9])
  = 1.
Proof.
  apply (devlog_first_is_minimum []); reflexivity.
Defined.

(** [first] is not always the position of a used entry: when the only used
    entries carry the sequence number 0xffffffff the search never leaves its
    initial 0, here the position of an unused entry. *)
Lemma devlog_first_unused_entry :
  let entries := [Devlog.entry 0 0; Devlog.entry 0xffffffff 1] in
  ~ exists e,
      entries !! Z.to_nat (Devlog.first (Devlog.captured entries)) = Some e
      /\ Devlog.live e
      /\ forall e', e' ∈ entries -> Devlog.live e' ->
                    Devlog.seqn e <= Devlog.seqn e'.
Proof.
  intros entries (e & He & Hl & _).
  vm_compute in He. injection He as <-. vm_compute in Hl. discriminate.
Qed.

(** C3.  Logical position [i] of the log is shown from the entry at
    [(first + i) mod nentries]; an entry whose time stamp is zero shows
    nothing there, and the traversal visits the positions 0 .. nentries - 1
    in order, whatever the entries hold, before it ends.  With three entries
    and [first = 2] the entries come in the order 2, 0, 1. *)
Theorem devlog_logical_order (d : Devlog.devlog_info) :
  0 <= Devlog.first d < Devlog.nentries d ->
  Devlog.nentries d = Z.of_nat (length (Devlog.log d)) ->
  Devlog.nentries d <= 2 ^ 31 ->
  (forall i, 0 <= i < Devlog.nentries d ->
     let index := (Devlog.first d + i) mod Devlog.nentries d in
     Devlog.devlog_index d (i + 2) = index
     /\ exists e, Devlog.log d !! Z.to_nat index = Some e
          /\ Devlog.devlog_show d (i + 2)
             = Some (if Devlog.timestamp_is_zero e then Devlog.Nothing
                     else Devlog.Entry index e))
  /\ Devlog.traverse d (S (Z.to_nat (Devlog.nentries d)))
     = Devlog.SEQ_START_TOKEN
       :: map (fun i => Z.of_nat i + 2) (seq 0 (Z.to_nat (Devlog.nentries d)))
       ++ [Devlog.NULL]
  /\ (forall entries,
        map (Devlog.devlog_index (Devlog.mk_devlog_info 3 2 entries)) [2; 3; 4]
        = [2; 0; 1]).
Proof.
  intros Hf Hlen Hn. split; [|split].
  - intros i Hi index. subst index.
    pose proof (devlog_index_mod d i Hf Hn Hi) as Hidx.
    split; [exact Hidx|].
    assert (Hm : 0 <= (Devlog.first d + i) mod Devlog.nentries d
                 < Devlog.nentries d) by (apply Z.mod_pos_bound; lia).
    destruct (Devlog.log d !! Z.to_nat ((Devlog.first d + i)
                                          mod Devlog.nentries d))
      as [e|] eqn:Hlk.
    + exists e. split; [reflexivity|]. unfold Devlog.devlog_show.
      destruct (Z.eqb_spec (i + 2) Devlog.SEQ_START_TOKEN) as [E|_];
        [unfold Devlog.SEQ_START_TOKEN in E; lia|].
      rewrite Hidx, Hlk. now destruct (Devlog.timestamp_is_zero e).
    + apply lookup_ge_None in Hlk. lia.
  - apply devlog_traverse_end. lia.
  - reflexivity.
Qed.

Lemma devlog_logical_order_witness :
  let d := Devlog.captured
             [Devlog.entry 7 1; Devlog.entry 0 0; Devlog.entry 6 1] in
  Devlog.traverse d 4 = [1; 2; 3; 4; 0]
  /\ map (Devlog.devlog_index d) [2; 3; 4] = [2; 0; 1]
  /\ map (Devlog.devlog_show d) [2; 3; 4]
     = [Some (Devlog.Entry 2 (Devlog.entry 6 1));
        Some (Devlog.Entry 0 (Devlog.entry 7 1));
        Some Devlog.Nothing].
Proof.
  intros d.
  pose proof (devlog_logical_order d ltac:(vm_compute; split; congruence)
                ltac:(reflexivity) ltac:(vm_compute; congruence)) as [_ [H _]].
  split; [exact H|]. split; reflexivity.
Defined.

(** C10, as the code has it.  When the least sequence number among the used
    entries is below 0xffffffff and several used entries carry it, [first]
    is the lowest of their positions: no used entry of that sequence number
    lies before [first]. *)
Theorem devlog_first_lowest_index (entries : list Devlog.fw_devlog_e)
  (j : nat) (e : Devlog.fw_devlog_e) :
  entries !! j = Some e -> Devlog.live e ->
  (forall e', e' ∈ entries -> Devlog.live e' ->
              Devlog.seqn e <= Devlog.seqn e') ->
  Devlog.seqn e < 0xffffffff ->
  Devlog.first (Devlog.captured entries) <= Z.of_nat j
  /\ exists e0,
       entries !! Z.to_nat (Devlog.first (Devlog.captured entries)) = Some e0
       /\ Devlog.live e0 /\ Devlog.seqn e0 = Devlog.seqn e.
Proof.
  intros Hj Hl Hmin Hlt.
  destruct (captured_first_cases entries)
    as [[_ Hall]|(k & e0 & Hk & Hl0 & _ & Hr & Hmin0)].
  - apply list_elem_of_lookup_2 in Hj. specialize (Hall e Hj Hl). lia.
  - destruct (Hmin0 j e Hj Hl) as [Hle Hlow].
    assert (Devlog.seqn e <= Devlog.seqn e0)
      by (apply Hmin; [now apply list_elem_of_lookup_2 in Hk|exact Hl0]).
    rewrite Hr, Nat2Z.id. split.
    + assert (k <= j)%nat by (apply Hlow; lia). lia.
    + exists e0. split; [exact Hk|]. split; [exact Hl0|lia].
Qed.

Lemma devlog_first_lowest_index_witness :
  Devlog.first
    (Devlog.captured [Devlog.entry 9 1; Devlog.entry 4 1; Devlog.entry 0 0;
                      Devlog.entry 4 1])
  <= 3.
Proof.
  apply (devlog_first_lowest_index
           [Devlog.entry 9 1; Devlog.entry 4 1; Devlog.entry 0 0;
            Devlog.entry 4 1] 3 (Devlog.entry 4 1)).
  - reflexivity.
  - reflexivity.
  - intros e' He' Hl'. repeat (apply elem_of_cons in He' as [->|He']);
      try (vm_compute; congruence); try (vm_compute in Hl'; congruence).
    inversion He'.
  - vm_compute. reflexivity.
Defined.

(** With the shared sequence number 0xffffffff the lowest position of a
    used entry is not selected: [first] stays 0, an unused entry, although
    the used entries at 1 and 2 share the least sequence number. *)
Lemma devlog_tie_at_max_not_lowest :
  let entries := [Devlog.entry 7 0; Devlog.entry 0xffffffff 1;
                  Devlog.entry 0xffffffff 1] in
  ~ (forall (j : nat) e,
       entries !! j = Some e -> Devlog.live e ->
       (forall e', e' ∈ entries -> Devlog.live e' ->
                   Devlog.seqn e <= Devlog.seqn e') ->
       (forall (j' : nat) e', entries !! j' = Some e' -> Devlog.live e' ->
          Devlog.seqn e' = Devlog.seqn e -> (j <= j')%nat) ->
       Devlog.first (Devlog.captured entries) = Z.of_nat j).
Proof.
  intros entries H.
  specialize (H 1%nat (Devlog.entry 0xffffffff 1) eq_refl eq_refl).
  assert (Hfirst : Devlog.first (Devlog.captured entries) = 0) by reflexivity.
  rewrite Hfirst in H. enough (0 = Z.of_nat 1) by lia. apply H.
  - intros e' He' Hl'. repeat (apply elem_of_cons in He' as [->|He']);
      try (vm_compute; congruence); try (vm_compute in Hl'; congruence).
    inversion He'.
  - intros [|j'] e' Hj' Hl' _; [|lia].
    injection Hj' as <-. vm_compute in Hl'. discriminate.
Qed.

(** ** The MPS TCAM table *)

(** The two words have a bit in common exactly when their conjunction is
    not zero. *)
Lemma land_nonzero_iff_common_bit x y :
  Z.land x y <> 0
  <-> exists i, 0 <= i /\ Z.testbit x i = true /\ Z.testbit y i = true.
Proof.
  split.
  - intros Hne.
    assert (Hbit : exists i, 0 <= i /\ Z.testbit (Z.land x y) i = true).
    { destruct (Z.lt_trichotomy (Z.land x y) 0) as [Hneg|[Hz|Hpos]].
      - exists (Z.log2 (Z.pred (- Z.land x y)) + 1).
        split; [pose proof (Z.log2_nonneg (Z.pred (- Z.land x y))); lia|].
        apply Z.bits_above_log2_neg; lia.
      - contradiction.
      - exists (Z.log2 (Z.land x y)).
        split; [apply Z.log2_nonneg|]. now apply Z.bit_log2. }
    destruct Hbit as (i & Hi & Hb). exists i. split; [exact Hi|].
    rewrite Z.land_spec in Hb. now apply andb_true_iff in Hb.
  - intros (i & Hi & Hx & Hy) Hz.
    assert (Hb : Z.testbit (Z.land x y) i = true)
      by (rewrite Z.land_spec, Hx, Hy; reflexivity).
    rewrite Hz, Z.bits_0 in Hb. discriminate.
Qed.

(** C7, as the code has it.  A TCAM entry is shown as the dash, and decoded
    no further, exactly when [tcamx & tcamy] is not zero, that is when at
    least one bit is set in both words.  [tcamx = tcamy = 0xFF] gives the
    dash; [tcamx = 0x0F], [tcamy = 0xF0] gives a decoded entry. *)
Theorem mps_tcam_dash_iff (REPLICATE_F mps_rplc_size : Z)
  (read_rplc : Z -> option (list Z)) (v tcamy tcamx cls_lo cls_hi : Z) :
  let line := MpsTcam.mps_tcam_show REPLICATE_F mps_rplc_size read_rplc
                v tcamy tcamx cls_lo cls_hi in
  (line = MpsTcam.Dash (u32 (v - 2)) <-> Z.land tcamx tcamy <> 0)
  /\ (MpsTcam.is_dash line = true
      <-> exists i, 0 <= i /\ Z.testbit tcamx i = true
                    /\ Z.testbit tcamy i = true)
  /\ MpsTcam.is_dash
       (MpsTcam.mps_tcam_show REPLICATE_F mps_rplc_size read_rplc
          v 0xFF 0xFF cls_lo cls_hi) = true
  /\ MpsTcam.is_dash
       (MpsTcam.mps_tcam_show REPLICATE_F mps_rplc_size read_rplc
          v 0xF0 0x0F cls_lo cls_hi) = false.
Proof.
  intros line.
  assert (Hd : MpsTcam.is_dash line = true <-> Z.land tcamx tcamy <> 0).
  { subst line. unfold MpsTcam.mps_tcam_show.
    destruct (Z.eqb_spec (Z.land tcamx tcamy) 0) as [E|E]; simpl.
    - split; [discriminate|contradiction].
    - split; [intros _; exact E|reflexivity]. }
  split; [|split; [|split]].
  - rewrite <- Hd. subst line. unfold MpsTcam.mps_tcam_show.
    destruct (Z.land tcamx tcamy =? 0); simpl;
      split; try reflexivity; discriminate.
  - rewrite Hd. apply land_nonzero_iff_common_bit.
  - reflexivity.
  - reflexivity.
Qed.

(** The dash does not wait for every compared bit: with [tcamx = 0x1] and
    [tcamy = 0x3] the entry is shown as the dash although bit 1, set in Y,
    is not set in X.  Read on the bits set in X or in Y, "nonzero in every
    bit position" holds at [0xFF], [0xFF] and fails at [0x0F], [0xF0], as
    the two examples have it, and fails here. *)
Lemma mps_tcam_dash_one_common_bit :
  MpsTcam.is_dash
    (MpsTcam.mps_tcam_show 0 0 (fun _ => None) 2 0x3 0x1 0 0) = true
  /\ Z.testbit (Z.lor 0x1 0x3) 1 = true
  /\ Z.testbit (Z.land 0x1 0x3) 1 = false
  /\ ~ MpsTcam.every_compared_bit_common 0x1 0x3
  /\ MpsTcam.every_compared_bit_common 0xFF 0xFF
  /\ ~ MpsTcam.every_compared_bit_common 0x0F 0xF0
  /\ ~ (forall tcamx tcamy,
          MpsTcam.is_dash
            (MpsTcam.mps_tcam_show 0 0 (fun _ => None) 2 tcamy tcamx 0 0)
          = true
          <-> MpsTcam.every_compared_bit_common tcamx tcamy).
Proof.
  assert (H13 : ~ MpsTcam.every_compared_bit_common 0x1 0x3).
  { intros H. specialize (H 1 ltac:(lia) eq_refl). discriminate H. }
  split; [reflexivity|]. split; [reflexivity|]. split; [reflexivity|].
  split; [exact H13|]. split; [|split].
  - intros n _ H. exact H.
  - intros H. specialize (H 0 ltac:(lia) eq_refl). discriminate H.
  - intros H. apply H13. apply (H 0x1 0x3). reflexivity.
Qed.

Example tcamxy2valmask_address :
  MpsTcam.tcamxy2valmask 0x0000ffffffffffff 0x0000001122334455
  = ([0x00; 0x11; 0x22; 0x33; 0x44; 0x55], 0x0000ffffffffffff).
Proof. reflexivity. Qed.

(** ** The RSS secret key *)

Section RssKeyFacts.

Import RssKey.

Variable hex2val : ascii -> Z.

Lemma skip_skip a : forall b p, skip a (skip b p) = skip (b + a) p.
Proof.
  intros b. induction b as [|b IH]; intros p; [reflexivity|].
  destruct p as [|c p]; simpl; [now destruct a|apply IH].
Qed.

Lemma xdigits_app a : forall b p,
  xdigits (a + b) p = xdigits a p && xdigits b (skip a p).
Proof.
  induction a as [|a IH]; intros b p; [reflexivity|].
  cbn [xdigits Nat.add]. rewrite IH, skip_skip, andb_assoc. reflexivity.
Qed.

Lemma char_at_skip1 p k : char_at (skip 1 p) k = char_at p (S k).
Proof. destruct p as [|c p]; reflexivity. Qed.

(** [xdigits] says that the characters at 0 .. n - 1 are hex digits. *)
Lemma xdigits_char_at n : forall p,
  xdigits n p = true
  <-> forall k, (k < n)%nat -> isxdigit (char_at p k) = true.
Proof.
  induction n as [|n IH]; intros p; cbn [xdigits].
  - split; [intros _ k Hk; lia|reflexivity].
  - rewrite andb_true_iff, IH. split.
    + intros [H0 Hrest] [|k] Hk; [destruct p; exact H0|].
      rewrite <- char_at_skip1. apply Hrest. lia.
    + intros H. split; [specialize (H 0%nat ltac:(lia)); now destruct p|].
      intros k Hk. rewrite char_at_skip1. apply H. lia.
Qed.

Lemma key_word_ok n : forall p k,
  xdigits n p = true ->
  exists k', key_word hex2val n p k = Ok (k', skip n p).
Proof.
  induction n as [|n IH]; intros p k H; cbn [key_word xdigits] in *.
  - exists k. now destruct p.
  - apply andb_true_iff in H as [H0 Hrest]. rewrite H0. cbn [negb].
    destruct (IH _ (u32 (Z.lor (Z.shiftl k 4) (hex2val (deref p)))) Hrest)
      as [k' ->].
    exists k'. rewrite skip_skip. reflexivity.
Qed.

Lemma key_word_err n : forall p k,
  xdigits n p = false -> key_word hex2val n p k = Err Inval.
Proof.
  induction n as [|n IH]; intros p k H; cbn [key_word xdigits] in *;
    [discriminate|].
  destruct (isxdigit (deref p)); cbn [negb andb] in *;
    [now apply IH|reflexivity].
Qed.

Lemma key_words_ok n : forall p key,
  xdigits (8 * n) p = true ->
  exists key', key_words hex2val n p key = Ok key'
               /\ length key' = length key.
Proof.
  induction n as [|n IH]; intros p key H.
  - exists key. split; reflexivity.
  - replace (8 * S n)%nat with (8 + 8 * n)%nat in H by lia.
    rewrite xdigits_app in H. apply andb_true_iff in H as [H8 Hrest].
    cbn [key_words]. destruct (key_word_ok 8 p 0 H8) as [k ->]. cbn [bind].
    destruct (IH (skip 8 p) (store key (Z.of_nat n) k) Hrest)
      as (key' & -> & Hlen).
    exists key'. split; [reflexivity|].
    rewrite Hlen. unfold store. apply length_insert.
Qed.

Lemma key_words_err n : forall p key,
  xdigits (8 * n) p = false -> key_words hex2val n p key = Err Inval.
Proof.
  induction n as [|n IH]; intros p key H; [discriminate|].
  replace (8 * S n)%nat with (8 + 8 * n)%nat in H by lia.
  rewrite xdigits_app in H. cbn [key_words].
  destruct (xdigits 8 p) eqn:H8.
  - destruct (key_word_ok 8 p 0 H8) as [k ->]. cbn [bind]. now apply IH.
  - now rewrite (key_word_err 8 p 0 H8).
Qed.

End RssKeyFacts.

(** C8, as the code has it.  [rss_key_write] accepts an input exactly when
    it is at most 99 bytes long and, its trailing whitespace cut off, starts
    with 80 hex digits; whatever follows them is not looked at.  It then
    writes one ten-word key and returns the byte count.  Every other input
    is refused with [-EINVAL] and nothing is written. *)
Theorem rss_key_write_spec (hex2val : ascii -> Z) (buf : string) :
  let count := Z.of_nat (String.length buf) in
  let accepted :=
    count <= 99
    /\ forall k, (k < 80)%nat ->
         isxdigit (char_at (RssKey.trimmed buf) k) = true in
  (accepted ->
     exists key, length key = 10%nat
       /\ RssKey.rss_key_write hex2val buf
          = (count, [RssKey.t4_write_rss_key key (-1)]))
  /\ (~ accepted -> RssKey.rss_key_write hex2val buf = (- EINVAL, [])).
Proof.
  intros count accepted. subst accepted. unfold RssKey.rss_key_write.
  fold count. split.
  - intros [Hc Hx]. destruct (Z.gtb_spec count (100 - 1)); [lia|].
    apply xdigits_char_at in Hx.
    destruct (key_words_ok hex2val 10 _ (replicate 10 0) Hx)
      as (key & -> & Hlen).
    exists key. split; [exact Hlen|reflexivity].
  - intros Hn. destruct (Z.gtb_spec count (100 - 1)); [reflexivity|].
    destruct (RssKey.xdigits 80 (RssKey.trimmed buf)) eqn:Hx.
    + exfalso. apply Hn. split; [lia|]. now apply xdigits_char_at.
    + now rewrite (key_words_err hex2val 10 _ _ Hx).
Qed.

Lemma rss_key_write_spec_witness :
  RssKey.rss_key_write RssKey.hex2val_std
    (RssKey.chars 79 "a" ++ nl)%string = (- EINVAL, []).
Proof.
  apply (rss_key_write_spec RssKey.hex2val_std
           (RssKey.chars 79 "a" ++ nl)%string).
  intros [_ H]. specialize (H 79%nat ltac:(lia)). vm_compute in H.
  discriminate.
Defined.

(** An input of 81 hex digits is accepted and a key written, so the input
    need not consist of exactly 80 digits. *)
Lemma rss_key_write_accepts_81_digits :
  let buf := RssKey.chars 81 "0" in
  RssKey.rss_key_write RssKey.hex2val_std buf
  = (81, [RssKey.t4_write_rss_key (replicate 10 0) (-1)])
  /\ String.length (RssKey.trimmed buf) <> 80%nat.
Proof. split; [reflexivity|vm_compute; lia]. Qed.

Example rss_key_write_word_order :
  RssKey.rss_key_write RssKey.hex2val_std
    ("00000009000000080000000700000006000000050000000400000003000000020000000100000000"
     ++ nl)%string
  = (81, [RssKey.t4_write_rss_key [0; 1; 2; 3; 4; 5; 6; 7; 8; 9] (-1)]).
Proof. reflexivity. Qed.

(** ** The memory map *)

Section MemInfoFacts.

Import MemInfo.

(** The row shown for a named region at position [i] of the sorted array. *)
Lemma region_row_named mem (i : nat) m :
  mem !! i = Some m -> idx m < nregion ->
  region_row mem i m
  = Some (default EmptyString (region !! Z.to_nat (idx m)), base m,
          shown_limit mem i m)
  /\ (default EmptyString (region !! Z.to_nat (idx m)), base m,
      shown_limit mem i m) ∈ region_rows mem.
Proof.
  intros Hi Hidx.
  assert (Hrow : region_row mem i m
                 = Some (default EmptyString (region !! Z.to_nat (idx m)),
                         base m, shown_limit mem i m)).
  { unfold region_row.
    destruct (Z.geb_spec (idx m) nregion); [lia|reflexivity]. }
  split; [exact Hrow|].
  unfold region_rows. apply list_elem_of_omap.
  exists (region_row mem i m). split; [|now rewrite Hrow].
  apply list_elem_of_lookup_2 with i. now rewrite list_lookup_imap, Hi.
Qed.

Lemma shown_limit_unset mem (i : nat) m :
  mem !! i = Some m -> limit m = 0 ->
  shown_limit mem i m
  = match mem !! S i with
    | Some m' => u32 (base m' - 1)
    | None => 0xffffffff
    end.
Proof.
  intros Hi Hl. unfold shown_limit. rewrite Hl. simpl.
  destruct (mem !! S i) as [m'|] eqn:Hn.
  - apply lookup_lt_Some in Hn.
    destruct (Z.ltb_spec (Z.of_nat i) (Z.of_nat (length mem) - 1));
      [reflexivity|lia].
  - apply lookup_ge_None in Hn.
    destruct (Z.ltb_spec (Z.of_nat i) (Z.of_nat (length mem) - 1));
      [lia|reflexivity].
Qed.

Lemma shown_limit_set mem (i : nat) m :
  limit m <> 0 -> shown_limit mem i m = limit m.
Proof.
  intros Hl. unfold shown_limit.
  destruct (Z.eqb_spec (limit m) 0); [contradiction|reflexivity].
Qed.

(** The modelled sort keeps the descriptors and, for bases whose
    differences fit an [int], puts them in ascending order. *)
Lemma insert_by_perm cmp x l : insert_by cmp x l ≡ₚ x :: l.
Proof.
  induction l as [|y l IH]; simpl; [reflexivity|].
  destruct (cmp x y <=? 0); [reflexivity|].
  rewrite IH. apply Permutation_swap.
Qed.

Lemma sort_stable_perm cmp l : sort_stable cmp l ≡ₚ l.
Proof.
  induction l as [|x l IH]; simpl; [reflexivity|].
  rewrite insert_by_perm. now rewrite IH.
Qed.

(** Between bases that are less than 2^31 apart the comparison is their
    difference. *)
Lemma mem_desc_cmp_near a b :
  0 <= base a < 2 ^ 32 -> 0 <= base b < 2 ^ 32 ->
  - 2 ^ 31 <= base a - base b < 2 ^ 31 ->
  mem_desc_cmp a b = base a - base b.
Proof.
  intros Ha Hb Hd. unfold mem_desc_cmp, s32, u32. cbv zeta.
  destruct (Z.lt_ge_cases (base a - base b) 0) as [Hneg|Hpos].
  - replace ((base a - base b) mod 2 ^ 32) with (base a - base b + 2 ^ 32)
      by (apply Z.mod_unique_pos with (q := -1); lia).
    destruct (Z.ltb_spec (base a - base b + 2 ^ 32) (2 ^ 31)); lia.
  - rewrite Z.mod_small by lia.
    destruct (Z.ltb_spec (base a - base b) (2 ^ 31)); lia.
Qed.

Lemma mem_desc_cmp_le a b :
  0 <= base a < 2 ^ 31 -> 0 <= base b < 2 ^ 31 ->
  (mem_desc_cmp a b <=? 0) = (base a <=? base b).
Proof.
  intros Ha Hb. rewrite mem_desc_cmp_near by lia.
  destruct (Z.leb_spec (base a - base b) 0), (Z.leb_spec (base a) (base b));
    lia.
Qed.

Lemma insert_by_sorted x l :
  0 <= base x < 2 ^ 31 -> Forall (fun m => 0 <= base m < 2 ^ 31) l ->
  sorted_bases l -> sorted_bases (insert_by mem_desc_cmp x l).
Proof.
  intros Hx Hl Hs. induction Hs as [|y l Hs IH Hy]; simpl.
  - repeat constructor.
  - apply Forall_cons in Hl as [Hby Hl].
    rewrite mem_desc_cmp_le by assumption.
    destruct (Z.leb_spec (base x) (base y)).
    + constructor; [now constructor|].
      constructor; [lia|]. eapply Forall_impl; [exact Hy|].
      simpl. intros; lia.
    + constructor; [now apply IH|].
      rewrite insert_by_perm. constructor; [lia|exact Hy].
Qed.

Lemma sort_stable_sorted l :
  Forall (fun m => 0 <= base m < 2 ^ 31) l ->
  sorted_bases (sort_stable mem_desc_cmp l).
Proof.
  induction 1 as [|x l Hx Hl IH]; simpl; [constructor|].
  apply insert_by_sorted; [exact Hx| |exact IH].
  now rewrite sort_stable_perm.
Qed.

(** Where the comparison is the difference of the bases, the modelled sort
    leaves the array in the order of the comparison. *)
Lemma insert_by_sorted_by_cmp x l :
  (forall a b, a ∈ x :: l -> b ∈ x :: l ->
               mem_desc_cmp a b = base a - base b) ->
  sorted_by_cmp l -> sorted_by_cmp (insert_by mem_desc_cmp x l).
Proof.
  unfold sorted_by_cmp. intros Hc Hs.
  induction Hs as [|y l Hs IH Hy]; simpl.
  - repeat constructor.
  - assert (Hx : x ∈ x :: y :: l) by (apply elem_of_cons; now left).
    assert (Hyin : y ∈ x :: y :: l)
      by (apply elem_of_cons; right; apply elem_of_cons; now left).
    destruct (Z.leb_spec (mem_desc_cmp x y) 0) as [Hle|Hgt].
    + constructor; [now constructor|].
      constructor; [exact Hle|]. rewrite Forall_forall in *. intros z Hz.
      assert (Hzin : z ∈ x :: y :: l)
        by (now do 2 (apply elem_of_cons; right)).
      specialize (Hy z Hz).
      rewrite Hc in * by assumption. lia.
    + constructor.
      * apply IH. intros a b Ha Hb. apply Hc.
        -- apply elem_of_cons in Ha as [->|Ha]; [exact Hx|].
           now do 2 (apply elem_of_cons; right).
        -- apply elem_of_cons in Hb as [->|Hb]; [exact Hx|].
           now do 2 (apply elem_of_cons; right).
      * rewrite insert_by_perm. constructor; [|exact Hy].
        rewrite Hc in * by assumption. lia.
Qed.

Lemma sort_stable_sorted_by_cmp l :
  (forall a b, a ∈ l -> b ∈ l -> mem_desc_cmp a b = base a - base b) ->
  sorted_by_cmp (sort_stable mem_desc_cmp l).
Proof.
  induction l as [|x l IH]; intros Hc; simpl; [constructor|].
  apply insert_by_sorted_by_cmp.
  - intros a b Ha Hb. apply Hc.
    + apply elem_of_cons in Ha as [->|Ha]; [apply elem_of_cons; now left|].
      apply elem_of_cons; right. now rewrite sort_stable_perm in Ha.
    + apply elem_of_cons in Hb as [->|Hb]; [apply elem_of_cons; now left|].
      apply elem_of_cons; right. now rewrite sort_stable_perm in Hb.
  - apply IH. intros a b Ha Hb. apply Hc; apply elem_of_cons; now right.
Qed.

(** Entries with the same base keep the order they were put in. *)
Example sort_stable_ties :
  sort_stable mem_desc_cmp
    [mk_mem_desc 5 0 0; mk_mem_desc 3 0 1; mk_mem_desc 5 0 2]
  = [mk_mem_desc 3 0 1; mk_mem_desc 5 0 0; mk_mem_desc 5 0 2].
Proof. reflexivity. Qed.

Lemma StronglySorted_lookup {A} (R : A -> A -> Prop) l :
  StronglySorted R l ->
  forall (i j : nat) a b,
    l !! i = Some a -> l !! j = Some b -> (i < j)%nat -> R a b.
Proof.
  induction 1 as [|x l Hs IH Hx]; intros i j a b Hi Hj Hij;
    [now rewrite lookup_nil in Hi|].
  destruct j as [|j]; [lia|]. cbn in Hj. destruct i as [|i]; cbn in Hi.
  - injection Hi as <-. rewrite Forall_forall in Hx. apply Hx.
    now apply list_elem_of_lookup_2 with j.
  - apply (IH i j); [assumption..|lia].
Qed.

(** An array in the order of the comparison function is in the order of
    the bases when these are less than 2^31 apart. *)
Lemma sorted_by_cmp_bases l :
  Forall (fun m => 0 <= base m < 2 ^ 32) l ->
  Forall (fun a => Forall (fun b => base a - base b < 2 ^ 31) l) l ->
  sorted_by_cmp l -> sorted_bases l.
Proof.
  intros Hr Hd Hs. unfold sorted_by_cmp, sorted_bases in *.
  assert (Hall : forall a b, a ∈ l -> b ∈ l ->
            mem_desc_cmp a b <= 0 -> base a <= base b).
  { intros a b Ha Hb Hc. rewrite Forall_forall in Hr, Hd.
    pose proof (Hd a Ha) as Hab. pose proof (Hd b Hb) as Hba.
    rewrite Forall_forall in Hab, Hba.
    specialize (Hab b Hb). specialize (Hba a Ha).
    rewrite mem_desc_cmp_near in Hc by (try apply Hr; auto; lia). lia. }
  clear Hr Hd. induction Hs as [|x l Hs IH Hx]; constructor.
  - apply IH. intros a b Ha Hb. apply Hall; now apply elem_of_cons; right.
  - rewrite Forall_forall in *. intros b Hb.
    apply Hall; [apply elem_of_cons; now left|now apply elem_of_cons; right|].
    now apply Hx.
Qed.

End MemInfoFacts.




(** ** The trace filter command *)

Section MpsTrcFacts.

Import MpsTrc.

Context (E : env) (adap : adapter) (trcidx : Z).

Local Abbreviation early_write := (MpsTrc.early_write adap trcidx).

Lemma u32_sub_8 i j :
  8 <= u32 (i - j) -> u32 (i - u32 (j + 8)) = u32 (i - j) - 8.
Proof.
  unfold u32. intros H.
  rewrite Zminus_mod_idemp_r.
  replace (i - (j + 8)) with (i - j - 8) by lia.
  rewrite <- Zminus_mod_idemp_l.
  apply Z.mod_small.
  pose proof (Z.mod_pos_bound (i - j) (2 ^ 32) ltac:(lia)). lia.
Qed.

Lemma ones_loop_total fuel : forall m mp i j,
  u32 (i - j) <= Z.of_nat fuel ->
  exists r, ones_loop fuel m mp i j = Ok r.
Proof.
  induction fuel as [|fuel IH]; intros m mp i j Hf.
  - simpl. destruct (Z.geb_spec (u32 (i - j)) 8); [lia|eauto].
  - cbn [ones_loop]. destruct (Z.geb_spec (u32 (i - j)) 8); [|eauto].
    apply IH. rewrite u32_sub_8 by lia. lia.
Qed.

Lemma parse_data_no_fuel word : forall d dp i,
  parse_data E word d dp i <> Err Fuel.
Proof.
  induction word as [|c word IH]; intros d dp i; simpl; [discriminate|].
  destruct (isxdigit c); [|discriminate].
  destruct (i >=? TRACE_LEN E * 2); [discriminate|apply IH].
Qed.

Lemma parse_mask_no_fuel word : forall m mp i j,
  parse_mask word m mp i j <> Err Fuel.
Proof.
  induction word as [|c word IH]; intros m mp i j; simpl; [discriminate|].
  destruct (isxdigit c); [|discriminate].
  destruct (j >=? u32 i); [discriminate|apply IH].
Qed.

Lemma pattern_mask_no_fuel word m mp i j :
  pattern_mask word m mp i j <> Err Fuel.
Proof.
  unfold pattern_mask. destruct (Ascii.eqb (deref word) "/").
  - pose proof (parse_mask_no_fuel (skip 1 word) m mp i j) as Hm.
    destruct (parse_mask (skip 1 word) m mp i j) as [[[[w m'] mp'] j']|e];
      simpl; [|congruence].
    destruct (negb (u32 i =? j')); discriminate.
  - destruct (ones_loop_total (Z.to_nat (u32 (i - j))) m mp i j) as [r ->].
    + pose proof (u32_range (i - j)). lia.
    + destruct r as [[m' mp'] j']. simpl. discriminate.
Qed.

Lemma pattern_anchor_no_fuel word tp j :
  pattern_anchor E word tp j <> Err Fuel.
Proof.
  unfold pattern_anchor.
  repeat match goal with
         | |- context [if ?c then _ else _] => destruct c
         end; discriminate.
Qed.

Lemma parse_pattern_no_fuel word tp i :
  parse_pattern E word tp i <> Err Fuel.
Proof.
  unfold parse_pattern.
  destruct (negb (i =? 0)); [destruct (negb (skip_len tp =? 0))|];
    simpl; try discriminate.
  all: match goal with
       | |- context [parse_data E ?w0 ?d ?dp ?i] =>
           pose proof (parse_data_no_fuel w0 d dp i) as Hd;
           destruct (parse_data E w0 d dp i) as [[[[w d'] dp'] i']|e];
           simpl; [|congruence]
       end.
  all: match goal with
       | |- context [pattern_mask ?w ?m ?mp ?i ?j] =>
           pose proof (pattern_mask_no_fuel w m mp i j) as Hm;
           destruct (pattern_mask w m mp i j) as [[[[w2 m'] mp'] j']|e];
           simpl; [|congruence]
       end.
  all: match goal with
       | |- context [pattern_anchor E ?w ?tp ?j] =>
           pose proof (pattern_anchor_no_fuel w tp j) as Ha;
           destruct (pattern_anchor E w tp j) as [tp'|e];
           simpl; [|congruence]
       end.
  all: destruct (negb (Z.rem i' 8 =? 0)); discriminate.
Qed.

Lemma port_digit_no_fuel word n : port_digit word n <> Err Fuel.
Proof. unfold port_digit. destruct (_ || _); discriminate. Qed.

Ltac split_word :=
  repeat match goal with
         | |- context [match kstrtouint E ?s with _ => _ end] =>
             destruct (kstrtouint E s)
         | |- context [bind (port_digit ?w ?n) _] =>
             let H := fresh "Hp" in
             pose proof (port_digit_no_fuel w n) as H;
             destruct (port_digit w n); simpl
         | |- context [bind (parse_pattern E ?w ?tp ?i) _] =>
             let H := fresh "Hp" in
             pose proof (parse_pattern_no_fuel w tp i) as H;
             destruct (parse_pattern E w tp i) as [[? ?]|?]; simpl
         | |- context [if ?c then _ else _] => destruct c
         end.

Lemma parse_word_no_fuel word tp i :
  parse_word E adap trcidx word tp i <> Err Fuel.
Proof.
  unfold parse_word. split_word; congruence.
Qed.

(** One word writes nothing, or the queue register of a [qid=]. *)
Lemma parse_word_writes word tp i tp' i' w :
  parse_word E adap trcidx word tp i = Ok (tp', i', w) ->
  Forall early_write w.
Proof.
  unfold parse_word. split_word; intros [= <- <- <-];
    try (constructor; fail).
  all: destruct (qid_reg adap trcidx) eqn:Hq; repeat constructor.
  all: assumption.
Qed.

(** Words the loop refuses: a snap length or minimum length that is not a
    number or is too large, and a word that is neither a keyword nor starts
    with a hex digit. *)
Lemma parse_word_snaplen_rejected word tp i :
  String.prefix "qid=" word = false ->
  String.prefix "snaplen=" word = true ->
  (forall j, kstrtouint E (skip 8 word) = Some j -> 9600 < j) ->
  parse_word E adap trcidx word tp i = Err Inval.
Proof.
  intros Hq Hs Hj. unfold parse_word. rewrite Hq, Hs.
  destruct (kstrtouint E (skip 8 word)) as [j|]; [|reflexivity].
  specialize (Hj j eq_refl). destruct (Z.gtb_spec j 9600); [reflexivity|lia].
Qed.

Lemma parse_word_minlen_rejected word tp i :
  String.prefix "qid=" word = false ->
  String.prefix "snaplen=" word = false ->
  String.prefix "minlen=" word = true ->
  (forall j, kstrtouint E (skip 7 word) = Some j -> TFMINPKTSIZE_M E < j) ->
  parse_word E adap trcidx word tp i = Err Inval.
Proof.
  intros Hq Hs Hm Hj. unfold parse_word. rewrite Hq, Hs, Hm.
  destruct (kstrtouint E (skip 7 word)) as [j|]; [|reflexivity].
  specialize (Hj j eq_refl).
  destruct (Z.gtb_spec j (TFMINPKTSIZE_M E)); [reflexivity|lia].
Qed.

Lemma parse_word_unknown_rejected word tp i :
  String.prefix "qid=" word = false ->
  String.prefix "snaplen=" word = false ->
  String.prefix "minlen=" word = false ->
  String.eqb word "not" = false ->
  String.prefix "loopback" word = false ->
  String.prefix "tx" word = false ->
  String.prefix "rx" word = false ->
  isxdigit (deref word) = false ->
  parse_word E adap trcidx word tp i = Err Inval.
Proof.
  intros Hq Hs Hm Hn Hl Ht Hr Hx. unfold parse_word.
  now rewrite Hq, Hs, Hm, Hn, Hl, Ht, Hr, Hx.
Qed.

(** A rejected word ends the loop at once. *)
Lemma parse_words_rejected fuel p tp i e :
  let '(word, _) := strsep (skip_spaces p) in
  deref word <> nul ->
  parse_word E adap trcidx word tp i = Err e ->
  parse_words E adap trcidx fuel (Some p) tp i = ([], Err e).
Proof.
  destruct (strsep (skip_spaces p)) as [word p'] eqn:Hs. intros Hw He.
  destruct fuel; cbn [parse_words]; rewrite Hs;
    (destruct (Ascii.eqb_spec (deref word) nul); [contradiction|]);
    now rewrite He.
Qed.

Lemma skip_spaces_length p :
  (String.length (skip_spaces p) <= String.length p)%nat.
Proof.
  induction p as [|c p IH]; simpl; [lia|].
  destruct (isspace c); simpl; lia.
Qed.

Lemma strsep_shorter p : forall w p',
  strsep p = (w, Some p') -> (String.length p' < String.length p)%nat.
Proof.
  induction p as [|c p IH]; intros w p'; simpl; [discriminate|].
  destruct (Ascii.eqb c " ").
  - intros [= <- <-]. lia.
  - destruct (strsep p) as [w0 r] eqn:Hs. intros [= <- ->].
    specialize (IH w0 p' eq_refl). lia.
Qed.

Lemma strsep_empty p w p' :
  strsep p = (w, p') -> String.length p = 0%nat -> deref w = nul.
Proof.
  destruct p; [|simpl; lia]. intros [= <- <-] _. reflexivity.
Qed.

(** The loop ends by itself when it is given as many turns as the text has
    characters. *)
Lemma parse_words_total fuel : forall p tp i,
  (forall s, p = Some s -> (String.length s <= fuel)%nat) ->
  (parse_words E adap trcidx fuel p tp i).2 <> Err Fuel.
Proof.
  induction fuel as [|fuel IH]; intros [s|] tp i Hlen;
    cbn [parse_words]; try discriminate.
  - specialize (Hlen s eq_refl).
    destruct (strsep (skip_spaces s)) as [word p'] eqn:Hs.
    assert (Hw : deref word = nul).
    { apply (strsep_empty _ _ _ Hs).
      pose proof (skip_spaces_length s). lia. }
    rewrite Hw. simpl. discriminate.
  - specialize (Hlen s eq_refl).
    destruct (strsep (skip_spaces s)) as [word p'] eqn:Hs.
    destruct (Ascii.eqb (deref word) nul); [discriminate|].
    pose proof (parse_word_no_fuel word tp i) as Hnf.
    destruct (parse_word E adap trcidx word tp i) as [[[tp' i'] w]|e];
      [|simpl; congruence].
    specialize (IH p' tp' i').
    destruct (parse_words E adap trcidx fuel p' tp' i') as [ws r].
    simpl in *. apply IH. intros s' ->.
    pose proof (strsep_shorter _ _ _ Hs). pose proof (skip_spaces_length s).
    lia.
Qed.

(** Whatever the loop writes is the queue register of a [qid=] word. *)
Lemma parse_words_writes fuel : forall p tp i,
  Forall early_write (parse_words E adap trcidx fuel p tp i).1.
Proof.
  induction fuel as [|fuel IH]; intros [s|] tp i;
    cbn [parse_words]; try constructor.
  - destruct (strsep (skip_spaces s)) as [word p'].
    destruct (Ascii.eqb (deref word) nul); [constructor|].
    destruct (parse_word E adap trcidx word tp i) as [[[tp' i'] w]|e] eqn:Hw;
      [|constructor].
    simpl. now apply parse_word_writes in Hw.
  - destruct (strsep (skip_spaces s)) as [word p'].
    destruct (Ascii.eqb (deref word) nul); [constructor|].
    destruct (parse_word E adap trcidx word tp i) as [[[tp' i'] w]|e] eqn:Hw;
      [|constructor].
    specialize (IH p' tp' i').
    destruct (parse_words E adap trcidx fuel p' tp' i') as [ws r].
    simpl in *. apply Forall_app. split; [|exact IH].
    now apply parse_word_writes in Hw.
Qed.

End MpsTrcFacts.

(** ** The words of the trace filter command and what each does *)

Section MpsTrcWords.

Import MpsTrc.

Context (E : env) (adap : adapter) (trcidx : Z).

Local Abbreviation qid_write := (MpsTrc.qid_write E adap trcidx).
Local Abbreviation malformed := (MpsTrc.malformed E).

Lemma port_digit_err word n e : port_digit word n = Err e -> e = Inval.
Proof.
  unfold port_digit. destruct (_ || _); [|discriminate]. now intros [= <-].
Qed.

(** What a word that is taken writes, and that it is well formed. *)
Lemma parse_word_taken word tp i tp' i' w :
  parse_word E adap trcidx word tp i = Ok (tp', i', w) ->
  w = qid_write word /\ ~ malformed word.
Proof.
  unfold parse_word, MpsTrc.qid_write, MpsTrc.malformed. intros H.
  destruct (String.prefix "qid=" word).
  { destruct (kstrtouint E (skip 4 word)) as [j|]; [|discriminate].
    injection H as <- <- <-. split; [|discriminate].
    now destruct (qid_reg adap trcidx). }
  destruct (String.prefix "snaplen=" word).
  { destruct (kstrtouint E (skip 8 word)) as [j|]; [|discriminate].
    destruct (Z.gtb_spec j 9600); [discriminate|].
    injection H as <- <- <-. split; [reflexivity|lia]. }
  destruct (String.prefix "minlen=" word).
  { destruct (kstrtouint E (skip 7 word)) as [j|]; [|discriminate].
    destruct (Z.gtb_spec j (TFMINPKTSIZE_M E)); [discriminate|].
    injection H as <- <- <-. split; [reflexivity|lia]. }
  destruct (String.eqb word "not").
  { injection H as <- <- <-. split; [reflexivity|tauto]. }
  destruct (String.prefix "loopback" word); cbn [andb orb] in *.
  { split; [|tauto]. destruct (port tp =? TRC_PORT_NONE).
    - destruct (port_digit word 8); [|discriminate].
      now injection H as <- <- <-.
    - destruct (String.prefix "tx" word); cbn [andb] in H.
      + destruct (String.prefix "rx" word); cbn [andb] in H;
          destruct (negb (isxdigit (deref word))); try discriminate;
          destruct (parse_pattern E word tp i) as [[? ?]|?];
          try discriminate; now injection H as <- <- <-.
      + destruct (String.prefix "rx" word); cbn [andb] in H;
          destruct (negb (isxdigit (deref word))); try discriminate;
          destruct (parse_pattern E word tp i) as [[? ?]|?];
          try discriminate; now injection H as <- <- <-. }
  destruct (String.prefix "tx" word); cbn [andb orb] in *.
  { split; [|tauto]. destruct (port tp =? TRC_PORT_NONE).
    - destruct (port_digit word 2); [|discriminate]. cbn [bind] in H.
      destruct (_ >=? MAX_NPORTS E); [discriminate|].
      now injection H as <- <- <-.
    - destruct (String.prefix "rx" word); cbn [andb] in H;
        destruct (negb (isxdigit (deref word))); try discriminate;
        destruct (parse_pattern E word tp i) as [[? ?]|?];
        try discriminate; now injection H as <- <- <-. }
  destruct (String.prefix "rx" word); cbn [andb orb] in *.
  { split; [|tauto]. destruct (port tp =? TRC_PORT_NONE).
    - destruct (port_digit word 2); [|discriminate]. cbn [bind] in H.
      destruct (_ >=? MAX_NPORTS E); [discriminate|].
      now injection H as <- <- <-.
    - destruct (negb (isxdigit (deref word))); try discriminate.
      destruct (parse_pattern E word tp i) as [[? ?]|?];
        try discriminate; now injection H as <- <- <-. }
  destruct (isxdigit (deref word)); cbn [negb] in H; [|discriminate].
  destruct (parse_pattern E word tp i) as [[? ?]|?]; [|discriminate].
  injection H as <- <- <-. split; [reflexivity|discriminate].
Qed.

Lemma parse_data_err word : forall d dp i e,
  parse_data E word d dp i = Err e -> e = Efbig.
Proof.
  induction word as [|c word IH]; intros d dp i e; simpl; [discriminate|].
  destruct (isxdigit c); [|discriminate].
  destruct (i >=? TRACE_LEN E * 2); [now intros [= <-]|apply IH].
Qed.

Lemma parse_mask_err word : forall m mp i j e,
  parse_mask word m mp i j = Err e -> e = Inval.
Proof.
  induction word as [|c word IH]; intros m mp i j e; simpl; [discriminate|].
  destruct (isxdigit c); [|discriminate].
  destruct (j >=? u32 i); [now intros [= <-]|apply IH].
Qed.

Lemma pattern_mask_err word m mp i j e :
  pattern_mask word m mp i j = Err e -> e = Inval.
Proof.
  unfold pattern_mask. destruct (Ascii.eqb (deref word) "/").
  - destruct (parse_mask (skip 1 word) m mp i j)
      as [[[[w m'] mp'] j']|e'] eqn:Hm; cbn [bind].
    + destruct (negb (u32 i =? j')); [now intros [= <-]|discriminate].
    + intros [= <-]. now apply parse_mask_err in Hm.
  - destruct (ones_loop_total (Z.to_nat (u32 (i - j))) m mp i j ltac:(lia))
      as [[[m' mp'] j'] ->]. cbn [bind]. discriminate.
Qed.

Lemma pattern_anchor_err word tp j e :
  pattern_anchor E word tp j = Err e -> e = Inval.
Proof.
  unfold pattern_anchor.
  repeat match goal with
         | |- context [if ?c then _ else _] => destruct c
         end; try discriminate; now intros [= <-].
Qed.

Lemma parse_pattern_err word tp i e :
  parse_pattern E word tp i = Err e -> e = Inval \/ e = Efbig.
Proof.
  unfold parse_pattern.
  destruct (negb (i =? 0)); [destruct (negb (skip_len tp =? 0))|];
    cbn [bind]; try (intros [= <-]; now left).
  all: match goal with
       | |- context [parse_data E ?w0 ?d ?dp ?i] =>
           destruct (parse_data E w0 d dp i) as [[[[w d'] dp'] i']|e0]
             eqn:Hd; cbn [bind];
           [|intros [= <-]; right; now apply parse_data_err in Hd]
       end.
  all: match goal with
       | |- context [pattern_mask ?w ?m ?mp ?i ?j] =>
           destruct (pattern_mask w m mp i j) as [[[[w2 m'] mp'] j']|e0]
             eqn:Hm; cbn [bind];
           [|intros [= <-]; left; now apply pattern_mask_err in Hm]
       end.
  all: match goal with
       | |- context [pattern_anchor E ?w ?tp ?j] =>
           destruct (pattern_anchor E w tp j) as [tp2|e0] eqn:Ha;
           cbn [bind];
           [|intros [= <-]; left; now apply pattern_anchor_err in Ha]
       end.
  all: destruct (negb (Z.rem i' 8 =? 0)); discriminate.
Qed.

(** How a word is refused: through [goto out] only for a [qid=] word whose
    number does not parse, with [-EFBIG] only for a pattern. *)
Lemma parse_word_refused word tp i e :
  parse_word E adap trcidx word tp i = Err e ->
  match e with
  | Out => String.prefix "qid=" word = true
           /\ kstrtouint E (skip 4 word) = None
  | Inval => String.prefix "qid=" word = false
  | Efbig => String.prefix "qid=" word = false
             /\ isxdigit (deref word) = true
  | Fuel => False
  end.
Proof.
  unfold parse_word. intros H.
  destruct (String.prefix "qid=" word).
  { destruct (kstrtouint E (skip 4 word)) as [j|]; [discriminate|].
    injection H as <-. now split. }
  match goal with
  | |- ?G => assert (Hi : e = Inval -> G) by (now intros ->)
  end.
  destruct (String.prefix "snaplen=" word).
  { apply Hi. destruct (kstrtouint E (skip 8 word)) as [j|];
      [destruct (j >? 9600); [|discriminate]|]; now injection H as <-. }
  destruct (String.prefix "minlen=" word).
  { apply Hi. destruct (kstrtouint E (skip 7 word)) as [j|];
      [destruct (j >? TFMINPKTSIZE_M E); [|discriminate]|];
      now injection H as <-. }
  destruct (String.eqb word "not"); [discriminate|].
  destruct (String.prefix "loopback" word && (port tp =? TRC_PORT_NONE)).
  { apply Hi. destruct (port_digit word 8) as [n|e'] eqn:Hp; cbn [bind] in H;
      [discriminate|]. injection H as <-. now apply port_digit_err in Hp. }
  destruct (String.prefix "tx" word && (port tp =? TRC_PORT_NONE)).
  { apply Hi. destruct (port_digit word 2) as [n|e'] eqn:Hp; cbn [bind] in H.
    - destruct (_ >=? MAX_NPORTS E); [now injection H as <-|discriminate].
    - injection H as <-. now apply port_digit_err in Hp. }
  destruct (String.prefix "rx" word && (port tp =? TRC_PORT_NONE)).
  { apply Hi. destruct (port_digit word 2) as [n|e'] eqn:Hp; cbn [bind] in H.
    - destruct (_ >=? MAX_NPORTS E); [now injection H as <-|discriminate].
    - injection H as <-. now apply port_digit_err in Hp. }
  destruct (isxdigit (deref word)); cbn [negb] in H;
    [|apply Hi; now injection H as <-].
  destruct (parse_pattern E word tp i) as [[tp2 i2]|e'] eqn:Hp;
    cbn [bind] in H; [discriminate|]. injection H as <-.
  apply parse_pattern_err in Hp as [->| ->]; [reflexivity|now split].
Qed.

(** The loop against the words of the text: it takes the first [n] of
    them, makes their register writes in order, and then either has taken
    them all or refuses the next one. *)
Lemma parse_words_words fuel : forall p tp i,
  exists n : nat,
    (n <= length (words fuel p))%nat
    /\ (parse_words E adap trcidx fuel p tp i).1
       = concat (map qid_write (take n (words fuel p)))
    /\ Forall (fun w => ~ malformed w) (take n (words fuel p))
    /\ match (parse_words E adap trcidx fuel p tp i).2 with
       | Ok _ => n = length (words fuel p)
       | Err Fuel => True
       | Err e =>
           exists word,
             words fuel p !! n = Some word
             /\ match e with
                | Out => String.prefix "qid=" word = true
                         /\ kstrtouint E (skip 4 word) = None
                | Inval => String.prefix "qid=" word = false
                | Efbig => String.prefix "qid=" word = false
                           /\ isxdigit (deref word) = true
                | Fuel => False
                end
       end.
Proof.
  induction fuel as [|fuel IH]; intros [s|] tp i;
    cbn [parse_words words];
    try (exists 0%nat; repeat split; constructor).
  - destruct (strsep (skip_spaces s)) as [word p'].
    destruct (Ascii.eqb (deref word) nul);
      [exists 0%nat; repeat split; constructor|].
    destruct (parse_word E adap trcidx word tp i) as [[[tp2 i2] w]|e] eqn:Hw.
    + apply parse_word_taken in Hw as [-> Hok].
      exists 1%nat. cbn [fst snd take map concat length].
      rewrite app_nil_r. repeat split; [lia|]. now constructor.
    + exists 0%nat. cbn [fst snd take map concat length].
      split; [lia|]. split; [reflexivity|]. split; [constructor|].
      pose proof (parse_word_refused _ _ _ _ Hw) as Hr.
      destruct e; try (exists word; now split). contradiction.
  - destruct (strsep (skip_spaces s)) as [word p'].
    destruct (Ascii.eqb (deref word) nul);
      [exists 0%nat; repeat split; constructor|].
    destruct (parse_word E adap trcidx word tp i) as [[[tp2 i2] w]|e] eqn:Hw.
    + apply parse_word_taken in Hw as [-> Hok].
      destruct (IH p' tp2 i2) as (n & Hn & Hw' & Hm & Hr).
      destruct (parse_words E adap trcidx fuel p' tp2 i2) as [ws r].
      cbn [fst snd] in *. exists (S n).
      cbn [take map concat length lookup list_lookup].
      split; [lia|]. split; [now rewrite Hw'|].
      split; [now constructor|].
      destruct r as [tp3|[]]; auto.
    + exists 0%nat. cbn [fst snd take map concat length].
      split; [lia|]. split; [reflexivity|]. split; [constructor|].
      pose proof (parse_word_refused _ _ _ _ Hw) as Hr.
      destruct e; try (exists word; now split). contradiction.
Qed.

(** [words] has taken every word of the text when it is given as many
    turns as the text has characters. *)
Lemma words_enough fuel : forall p (extra : nat),
  (forall s, p = Some s -> (String.length s <= fuel)%nat) ->
  words (fuel + extra) p = words fuel p.
Proof.
  induction fuel as [|fuel IH]; intros [s|] extra Hlen;
    try (destruct extra; reflexivity); specialize (Hlen s eq_refl) as Hs.
  - pose proof (skip_spaces_length s) as Hsk.
    destruct extra as [|extra]; [reflexivity|].
    cbn [Nat.add words].
    destruct (strsep (skip_spaces s)) as [word p'] eqn:Hsep.
    rewrite (strsep_empty _ _ _ Hsep) by lia. reflexivity.
  - pose proof (skip_spaces_length s) as Hsk.
    cbn [Nat.add words].
    destruct (strsep (skip_spaces s)) as [word p'] eqn:Hsep.
    destruct (Ascii.eqb (deref word) nul); [reflexivity|]. f_equal.
    apply IH. intros s' ->. apply strsep_shorter in Hsep. lia.
Qed.

End MpsTrcWords.




(** A [qid=] word whose number does not parse ends the command through
    [goto out]: the byte count is returned, and nothing but the routing
    mode was written. *)
Example mps_trc_write_bad_qid :
  MpsTrc.mps_trc_write MpsTrc.linux_env MpsTrc.four_ports 0 "rx0 qid=abc"
  = Some (11, [MpsTrc.t4_write_reg MpsTrc.MPS_TRC_CFG_A
                 MpsTrc.TRC_RSS_DISABLE]).
Proof. reflexivity. Qed.

Example mps_trc_write_words :
  MpsTrc.words 35 (Some "rx1 qid=5 not snaplen=128 0a0b/ff0f"%string)
  = ["rx1"; "qid=5"; "not"; "snaplen=128"; "0a0b/ff0f"]%string.
Proof. reflexivity. Qed.

Example mps_trc_write_disable :
  MpsTrc.mps_trc_write MpsTrc.linux_env MpsTrc.four_ports 1 ("disable" ++ nl)
  = Some (8, [MpsTrc.t4_set_trace_filter None 1 false]).
Proof. reflexivity. Qed.

Example mps_trc_write_pattern :
  exists tp,
    MpsTrc.mps_trc_write MpsTrc.linux_env MpsTrc.four_ports 0
      "rx0 qid=3 snaplen=9600 deadbeef/ffffffff"
    = Some (40, [MpsTrc.t4_write_reg MpsTrc.MPS_TRC_CFG_A 0x13;
                 MpsTrc.t4_write_reg MpsTrc.MPS_T5_TRC_RSS_CONTROL_A 3;
                 MpsTrc.t4_set_trace_filter (Some tp) 0 true])
    /\ MpsTrc.port tp = 0 /\ MpsTrc.snap_len tp = 9600
    /\ MpsTrc.data tp !! 0%nat = Some 0xdeadbeef
    /\ MpsTrc.mask tp !! 0%nat = Some 0xffffffff.
Proof. eexists. split; [reflexivity|]. repeat split. Qed.

(** * Properties of further parts of the file *)

(** ** Restarting the table cursor *)

Section SeqTabRestart.

Import SeqTab.

Variable tb : seq_tab.

Lemma seq_tab_get_idx_null_mono p q :
  seq_tab_get_idx tb p = NULL -> p <= q -> seq_tab_get_idx tb q = NULL.
Proof.
  unfold seq_tab_get_idx. intros Hp Hle.
  destruct (Z.geb_spec (p - Z.b2z (skip_first tb)) (rows tb));
    [|discriminate].
  destruct (Z.geb_spec (q - Z.b2z (skip_first tb)) (rows tb));
    [reflexivity|lia].
Qed.

Lemma advance_lookup n : forall v pos (j : nat),
  (j < n)%nat ->
  advance tb n v pos !! j
  = Some (seq_tab_get_idx tb (pos + 1 + Z.of_nat j)).
Proof.
  induction n as [|n IH]; intros v pos j Hj; [lia|].
  cbn [advance]. unfold seq_tab_next.
  destruct (seq_tab_get_idx tb (pos + 1)) as [| |off] eqn:Hv.
  - destruct j as [|j]; cbn.
    + now rewrite Z.add_0_r, Hv.
    + rewrite IH by lia.
      rewrite !(seq_tab_get_idx_null_mono (pos + 1)) by (assumption || lia).
      reflexivity.
  - destruct j as [|j]; cbn.
    + now rewrite Z.add_0_r, Hv.
    + rewrite IH by lia. do 2 f_equal. lia.
  - destruct j as [|j]; cbn.
    + now rewrite Z.add_0_r, Hv.
    + rewrite IH by lia. do 2 f_equal. lia.
Qed.

End SeqTabRestart.

(** X1.  Paging is consistent: the element a traversal reaches after [k]
    calls of [next] is the element [start] returns when it is called afresh
    at position [k], also past the end of the table, where both are
    [NULL]. *)
Theorem seq_tab_restart (tb : SeqTab.seq_tab) (n k : nat) :
  (k <= n)%nat ->
  SeqTab.walk tb n !! k = Some (SeqTab.seq_tab_start tb (Z.of_nat k)).
Proof.
  intros Hk. unfold SeqTab.walk. destruct k as [|k]; [reflexivity|].
  cbn [lookup list_lookup]. rewrite advance_lookup by lia.
  unfold SeqTab.seq_tab_start.
  destruct (Z.eqb_spec (Z.of_nat (S k)) 0) as [E|_]; [lia|].
  rewrite andb_false_r. do 2 f_equal. lia.
Qed.

Lemma seq_tab_restart_witness :
  SeqTab.walk (SeqTab.seq_open_tab 3 16 1) 4 !! 2%nat
  = Some (SeqTab.seq_tab_start (SeqTab.seq_open_tab 3 16 1) 2)
  /\ SeqTab.seq_tab_start (SeqTab.seq_open_tab 3 16 1) 2 = SeqTab.Data 16.
Proof.
  split; [|reflexivity].
  apply (seq_tab_restart (SeqTab.seq_open_tab 3 16 1) 4 2). lia.
Defined.

(** X2.  [cim_obq_open] never shows more rows than it allocated: a failed
    read gives the status back and no table; otherwise the table is cut to
    the [ret / 4] rows that were read when they fit, and left whole when
    they do not, and its traversal gives exactly those rows. *)
Theorem cim_obq_open_rows_shown (p : SeqTab.seq_tab) (ret : Z) :
  0 <= SeqTab.rows p ->
  (ret < 0 -> SeqTab.cim_obq_open p ret = (ret, None))
  /\ (0 <= ret ->
      exists p',
        SeqTab.cim_obq_open p ret = (0, Some p')
        /\ SeqTab.rows p' = Z.min (Z.quot ret 4) (SeqTab.rows p)
        /\ SeqTab.width p' = SeqTab.width p
        /\ SeqTab.skip_first p' = SeqTab.skip_first p
        /\ SeqTab.walk p' (SeqTab.steps p')
           = SeqTab.header p'
             ++ map (fun i => SeqTab.Data (Z.of_nat i * SeqTab.width p))
                  (seq 0 (Z.to_nat (Z.min (Z.quot ret 4) (SeqTab.rows p))))
             ++ [SeqTab.NULL]).
Proof.
  intros Hr. unfold SeqTab.cim_obq_open. split; intros Hret.
  - destruct (Z.ltb_spec ret 0); [reflexivity|lia].
  - destruct (Z.ltb_spec ret 0); [lia|].
    assert (0 <= Z.quot ret 4) by (apply Z.quot_pos; lia).
    eexists. split; [reflexivity|]. unfold SeqTab.seq_tab_trim.
    destruct (Z.gtb_spec (Z.quot ret 4) (SeqTab.rows p)); cbn [snd].
    + rewrite Z.min_r by lia. repeat split. now rewrite walk_to_end.
    + rewrite Z.min_l by lia. repeat split.
      rewrite walk_to_end by (simpl; lia). reflexivity.
Qed.

Lemma cim_obq_open_rows_shown_witness :
  exists p',
    SeqTab.cim_obq_open (SeqTab.seq_open_tab 768 16 0) 10 = (0, Some p')
    /\ SeqTab.rows p' = 2.
Proof.
  destruct (proj2 (cim_obq_open_rows_shown (SeqTab.seq_open_tab 768 16 0) 10
                     ltac:(now vm_compute)) ltac:(lia))
    as (p' & H1 & H2 & _).
  exists p'. split; [exact H1|exact H2].
Defined.

(** ** The width of the decoded lines *)

Section LineWidths.

Lemma string_length_app a b :
  String.length (a ++ b) = (String.length a + String.length b)%nat.
Proof. induction a as [|c a IH]; simpl; [reflexivity|now rewrite IH]. Qed.

Lemma no_newline_app a b :
  no_newline (a ++ b) = no_newline a && no_newline b.
Proof.
  induction a as [|c a IH]; simpl; [reflexivity|].
  now rewrite IH, andb_assoc.
Qed.

Lemma no_newline_substring s : forall n m,
  no_newline s = true -> no_newline (String.substring n m s) = true.
Proof.
  induction s as [|c s IH]; intros n m H; simpl in *.
  - now destruct n, m.
  - apply andb_true_iff in H as [Hc Hs].
    destruct n as [|n]; [destruct m as [|m]|]; simpl; auto.
    rewrite Hc. simpl. now apply IH.
Qed.

Lemma no_newline_uint d : no_newline (NilEmpty.string_of_uint d) = true.
Proof. induction d; simpl; auto. Qed.

Lemma no_newline_llu x : no_newline (FieldDesc.llu x) = true.
Proof.
  unfold FieldDesc.llu, NilZero.string_of_uint.
  destruct (N.to_uint (Z.to_N x)) eqn:E; try reflexivity;
    rewrite <- E; apply no_newline_uint.
Qed.

Lemma line_widths_newline col s :
  line_widths col (String newline s) = col :: line_widths 0 s.
Proof. cbn [line_widths]. now rewrite Ascii.eqb_refl. Qed.

(** Text without a line feed only moves the column. *)
Lemma line_widths_app a : forall col b,
  no_newline a = true ->
  line_widths col (a ++ b) = line_widths (col + String.length a) b.
Proof.
  induction a as [|c a IH]; intros col b H; simpl in *.
  - now rewrite Nat.add_0_r.
  - apply andb_true_iff in H as [Hc Ha].
    destruct (Ascii.eqb c newline); [discriminate|].
    rewrite IH by assumption. f_equal. lia.
Qed.

Lemma scnprintf_length size text :
  (String.length (FieldDesc.scnprintf size text) <= size - 1)%nat.
Proof.
  unfold FieldDesc.scnprintf. generalize (size - 1)%nat as m.
  induction text as [|c text IH]; intros [|m]; simpl; try lia.
  specialize (IH m). lia.
Qed.

(** The decoder keeps every line within 79 columns. *)
Lemma field_desc_show_from_widths v p :
  Forall (fun f => no_newline (FieldDesc.name f) = true) p ->
  forall line_size out,
    0 <= line_size <= 79 ->
    FieldDesc.field_desc_show_from line_size v p = Some out ->
    Forall (fun w => (w <= 79)%nat) (line_widths (Z.to_nat line_size) out).
Proof.
  induction 1 as [|f p Hname _ IH]; intros line_size out Hls Hout.
  - injection Hout as <-. change nl with (String newline EmptyString).
    rewrite line_widths_newline. cbn [line_widths].
    repeat (constructor; [lia|]). constructor.
  - cbn [FieldDesc.field_desc_show_from] in Hout.
    destruct (FieldDesc.field_value v f) as [x|]; [|discriminate].
    set (buf := FieldDesc.scnprintf 32
                  (FieldDesc.name f ++ ": " ++ FieldDesc.llu x)) in *.
    assert (Hbuf : no_newline buf = true).
    { apply no_newline_substring. rewrite !no_newline_app, Hname.
      now rewrite no_newline_llu. }
    pose proof (scnprintf_length 32 (FieldDesc.name f ++ ": "
                                      ++ FieldDesc.llu x)) as Hlen.
    fold buf in Hlen.
    cbv zeta in Hout.
    set (len := Z.of_nat (String.length buf)) in *.
    assert (Hlen' : 0 <= len <= 31) by (subst len; lia).
    destruct (Z.geb_spec (line_size + len) 79) as [Hwrap|Hfit].
    + destruct (FieldDesc.field_desc_show_from (8 + len + 1) v p)
        as [rest|] eqn:Hrest; [|discriminate].
      injection Hout as <-.
      apply IH in Hrest; [|lia].
      change ((nl ++ "        ") ++ buf ++ " " ++ rest)%string
        with (String newline ("        " ++ (buf ++ " " ++ rest)))%string.
      rewrite line_widths_newline. constructor; [lia|].
      change (Forall (fun w => (w <= 79)%nat)
                (line_widths 0 ("        " ++ buf ++ " " ++ rest)%string)).
      rewrite (line_widths_app "        ") by reflexivity.
      rewrite line_widths_app by exact Hbuf.
      rewrite (line_widths_app " ") by reflexivity.
      replace (0 + String.length "        " + String.length buf
               + String.length " ")%nat
        with (Z.to_nat (8 + len + 1)) by (subst len; simpl; lia).
      exact Hrest.
    + destruct (FieldDesc.field_desc_show_from (line_size + len + 1) v p)
        as [rest|] eqn:Hrest; [|discriminate].
      injection Hout as <-.
      apply IH in Hrest; [|lia].
      change (Forall (fun w => (w <= 79)%nat)
                (line_widths (Z.to_nat line_size)
                   (buf ++ " " ++ rest)%string)).
      rewrite line_widths_app by exact Hbuf.
      rewrite (line_widths_app " ") by reflexivity.
      replace (Z.to_nat line_size + String.length buf
               + String.length " ")%nat
        with (Z.to_nat (line_size + len + 1)) by (subst len; simpl; lia).
      exact Hrest.
Qed.

End LineWidths.

(** X3.  For a table of fields that lie inside the word and whose names
    hold no line feed, [field_desc_show] writes its text for every word, and
    no line of that text is longer than 79 characters; the three tables of
    the file are such tables. *)
Theorem field_desc_show_line_budget (v : Z) (p : list FieldDesc.field_desc) :
  Forall FieldDesc.field_ok p ->
  Forall (fun f => no_newline (FieldDesc.name f) = true) p ->
  (exists out,
     FieldDesc.field_desc_show v p = Some out
     /\ Forall (fun w => (w <= 79)%nat) (line_widths 0 out))
  /\ Forall (fun f => no_newline (FieldDesc.name f) = true)
       (FieldDesc.tp_la0 ++ FieldDesc.tp_la1 ++ FieldDesc.tp_la2).
Proof.
  intros Hok Hnames. split.
  - destruct (field_desc_show_defined v p Hok 0) as [out Hout].
    exists out. split; [exact Hout|].
    apply (field_desc_show_from_widths v p Hnames 0 out); [lia|exact Hout].
  - repeat constructor.
Qed.

Lemma field_desc_show_line_budget_witness :
  exists out,
    FieldDesc.field_desc_show (2 ^ 64 - 1) FieldDesc.tp_la0 = Some out
    /\ Forall (fun w => (w <= 79)%nat) (line_widths 0 out).
Proof.
  apply (field_desc_show_line_budget (2 ^ 64 - 1) FieldDesc.tp_la0).
  - repeat constructor; simpl; lia.
  - repeat constructor.
Defined.

(** ** Unit conversion *)

Lemma strip_zeros_total (fuel : nat) : forall rem,
  0 < rem <= Z.of_nat fuel ->
  exists r k,
    UnitConv.strip_zeros fuel rem = Ok r
    /\ rem = r * 10 ^ Z.of_nat k /\ r mod 10 <> 0 /\ 0 < r.
Proof.
  induction fuel as [|fuel IH]; intros rem Hrem; [lia|].
  cbn [UnitConv.strip_zeros].
  destruct (Z.eqb_spec (rem mod 10) 0) as [E|E].
  - pose proof (Z.div_mod rem 10 ltac:(lia)) as Hdm.
    destruct (IH (rem / 10) ltac:(lia)) as (r & k & H1 & H2 & H3 & H4).
    exists r, (S k). split; [exact H1|]. split; [|auto].
    rewrite Nat2Z.inj_succ, Z.pow_succ_r by lia. lia.
  - exists rem, 0%nat. split; [reflexivity|]. simpl. lia.
Qed.

(** X4.  [unit_conv] always ends for a nonzero factor; it prints the
    quotient alone when the factor divides the value, and otherwise the
    quotient, a dot and the remainder without its trailing zeros: the
    remainder is [r * 10 ^ k] with [r] not a multiple of 10, and [r] is
    printed.  The remainder is not padded to the width of the factor. *)
Theorem unit_conv_spec (len : nat) (val factor : Z) :
  0 <= val -> 0 < factor ->
  exists text,
    UnitConv.unit_conv len val factor = Some (FieldDesc.scnprintf len text)
    /\ (val mod factor = 0 -> text = UnitConv.dec (val / factor))
    /\ (val mod factor <> 0 ->
        exists r k,
          val mod factor = r * 10 ^ Z.of_nat k /\ r mod 10 <> 0 /\ 0 < r
          /\ text = (UnitConv.dec (val / factor) ++ "."
                     ++ UnitConv.dec r)%string).
Proof.
  intros Hval Hfactor. unfold UnitConv.unit_conv.
  destruct (Z.eqb_spec factor 0) as [|_]; [lia|]. cbv zeta.
  pose proof (Z.mod_pos_bound val factor Hfactor) as Hm.
  destruct (Z.eqb_spec (val mod factor) 0) as [E|E].
  - eexists. split; [reflexivity|]. split; [reflexivity|]. intros; lia.
  - destruct (strip_zeros_total (Z.to_nat (val mod factor)) (val mod factor)
                ltac:(lia)) as (r & k & H1 & H2 & H3 & H4).
    rewrite H1. eexists. split; [reflexivity|]. split; [intros; lia|].
    intros _. exists r, k. auto.
Qed.

Lemma unit_conv_spec_witness :
  exists text,
    UnitConv.unit_conv 16 1005 1000 = Some (FieldDesc.scnprintf 16 text)
    /\ (1005 mod 1000 = 0 -> text = UnitConv.dec (1005 / 1000))
    /\ (1005 mod 1000 <> 0 ->
        exists r k,
          1005 mod 1000 = r * 10 ^ Z.of_nat k /\ r mod 10 <> 0 /\ 0 < r
          /\ text = (UnitConv.dec (1005 / 1000) ++ "."
                     ++ UnitConv.dec r)%string).
Proof. apply (unit_conv_spec 16 1005 1000); lia. Defined.

(** ** The order of the mailbox command log *)

Section MboxLogOrder.

Import MboxLog.

Lemma mboxlog_traverse_from_S log n v pos :
  traverse_from log (S n) v pos
  = mboxlog_get_idx log (pos + 1)
    :: (if mboxlog_get_idx log (pos + 1) =? NULL then []
        else traverse_from log n (mboxlog_get_idx log (pos + 1)) (pos + 1)).
Proof. reflexivity. Qed.

Lemma mboxlog_traverse_from_end log (k : nat) : forall (p : nat) v,
  size log = Z.of_nat (p + k) ->
  traverse_from log (S k) v (Z.of_nat p)
  = seqZ (Z.of_nat p + 2) (Z.of_nat k) ++ [NULL].
Proof.
  induction k as [|k IH]; intros p v Hn;
    rewrite mboxlog_traverse_from_S; unfold mboxlog_get_idx.
  - destruct (Z.leb_spec (Z.of_nat p + 1) (size log)); [lia|reflexivity].
  - destruct (Z.leb_spec (Z.of_nat p + 1) (size log)); [|lia].
    destruct (Z.eqb_spec (Z.of_nat p + 1 + 1) NULL) as [E|_];
      [unfold NULL in E; lia|].
    replace (Z.of_nat p + 1) with (Z.of_nat (S p)) by lia.
    rewrite IH by lia.
    rewrite (seqZ_cons (Z.of_nat p + 2)) by lia.
    replace (Z.pred (Z.of_nat (S k))) with (Z.of_nat k) by lia.
    replace (Z.succ (Z.of_nat p + 2)) with (Z.of_nat (S p) + 2) by lia.
    cbn [app]. f_equal. lia.
Qed.

Lemma mboxlog_index_cases log i :
  0 <= cursor log < size log -> size log <= 2 ^ 31 -> 0 <= i < size log ->
  mboxlog_index log (i + 2)
  = if cursor log + i <? size log then cursor log + i
    else cursor log + i - size log.
Proof.
  intros Hc Hs Hi. unfold mboxlog_index.
  replace (i + 2 - 2) with i by lia. rewrite (u64_small i) by lia. cbv zeta.
  assert (Hu : u32 (s32 (cursor log + i)) = cursor log + i).
  { unfold s32. rewrite (u32_small (cursor log + i)) by lia.
    destruct (Z.ltb_spec (cursor log + i) (2 ^ 31)).
    - apply u32_small. lia.
    - unfold u32.
      rewrite <- (Z.mod_unique_pos (cursor log + i - 2 ^ 32) (2 ^ 32) (-1)
                    (cursor log + i)); lia. }
  rewrite Hu.
  destruct (Z.geb_spec (cursor log + i) (size log));
    destruct (Z.ltb_spec (cursor log + i) (size log)); try lia.
  - apply s32_small. lia.
  - apply s32_small. lia.
Qed.

Lemma map_seqZ_shift (f : Z -> Z) (d : Z) (n : nat) : forall m,
  (forall i, m <= i < m + Z.of_nat n -> f i = i + d) ->
  map f (seqZ m (Z.of_nat n)) = seqZ (m + d) (Z.of_nat n).
Proof.
  induction n as [|n IH]; intros m Hf.
  - reflexivity.
  - rewrite Nat2Z.inj_succ, (seqZ_cons m), (seqZ_cons (m + d)) by lia.
    cbn [map].
    rewrite Hf by lia. f_equal.
    replace (Z.pred (Z.succ (Z.of_nat n))) with (Z.of_nat n) by lia.
    rewrite IH by (intros; apply Hf; lia). f_equal. lia.
Qed.

End MboxLogOrder.

(** X5.  The mailbox command log is read as a ring that starts at the
    cursor: after the header the traversal gives one element for each of the
    [size] slots and then ends, and these elements show the slots from
    [cursor] to the last one and then from 0 to [cursor - 1], each slot
    once; a slot whose time stamp is zero shows nothing. *)
Theorem mboxlog_ring_order (log : MboxLog.mbox_cmd_log) :
  0 <= MboxLog.cursor log < MboxLog.size log ->
  MboxLog.size log <= 2 ^ 31 ->
  MboxLog.traverse log (S (Z.to_nat (MboxLog.size log)))
  = MboxLog.SEQ_START_TOKEN :: seqZ 2 (MboxLog.size log) ++ [MboxLog.NULL]
  /\ map (MboxLog.mboxlog_index log) (seqZ 2 (MboxLog.size log))
     = seqZ (MboxLog.cursor log) (MboxLog.size log - MboxLog.cursor log)
       ++ seqZ 0 (MboxLog.cursor log)
  /\ (forall v e,
        v <> MboxLog.SEQ_START_TOKEN ->
        MboxLog.mbox_cmd_log_entry log (MboxLog.mboxlog_index log v) = Some e ->
        MboxLog.mboxlog_show log v
        = Some (if MboxLog.timestamp e =? 0 then MboxLog.Nothing
                else MboxLog.Entry (MboxLog.mboxlog_index log v) e)).
Proof.
  intros Hc Hs. split; [|split].
  - unfold MboxLog.traverse. cbn [MboxLog.mboxlog_start Z.eqb negb]. f_equal.
    rewrite (mboxlog_traverse_from_end log _ 0) by lia.
    f_equal. f_equal. lia.
  - replace (MboxLog.size log)
      with ((MboxLog.size log - MboxLog.cursor log) + MboxLog.cursor log)
      at 1 by lia.
    rewrite seqZ_app, map_app by lia. f_equal.
    + rewrite <- (Z2Nat.id (MboxLog.size log - MboxLog.cursor log)) by lia.
      rewrite (map_seqZ_shift _ (MboxLog.cursor log - 2)).
      * f_equal. lia.
      * intros i Hi. replace i with ((i - 2) + 2) at 1 by lia.
        rewrite mboxlog_index_cases by lia.
        destruct (Z.ltb_spec (MboxLog.cursor log + (i - 2))
                    (MboxLog.size log)); lia.
    + rewrite <- (Z2Nat.id (MboxLog.cursor log)) at 2 3 by lia.
      rewrite (map_seqZ_shift _
                 (- (2 + (MboxLog.size log - MboxLog.cursor log)))).
      * f_equal. lia.
      * intros i Hi. replace i with ((i - 2) + 2) at 1 by lia.
        rewrite mboxlog_index_cases by lia.
        destruct (Z.ltb_spec (MboxLog.cursor log + (i - 2))
                    (MboxLog.size log)); lia.
  - intros v e Hv He. unfold MboxLog.mboxlog_show.
    destruct (Z.eqb_spec v MboxLog.SEQ_START_TOKEN); [contradiction|].
    cbv zeta. rewrite He. now destruct (MboxLog.timestamp e =? 0).
Qed.

Lemma mboxlog_ring_order_witness :
  map (MboxLog.mboxlog_index (MboxLog.mk_mbox_cmd_log 3 2 [])) (seqZ 2 3)
  = [2; 0; 1].
Proof.
  apply (mboxlog_ring_order (MboxLog.mk_mbox_cmd_log 3 2 []));
    simpl; lia.
Defined.

(** ** Walking the MPS TCAM *)

Section TcamWalk.

Import TcamSeq.

Variable max_mac_addr : Z.

Lemma mps_tcam_traverse_from_S n v pos :
  traverse_from max_mac_addr (S n) v pos
  = mps_tcam_get_idx max_mac_addr (pos + 1)
    :: (if mps_tcam_get_idx max_mac_addr (pos + 1) =? NULL then []
        else traverse_from max_mac_addr n
               (mps_tcam_get_idx max_mac_addr (pos + 1)) (pos + 1)).
Proof. reflexivity. Qed.

Lemma mps_tcam_traverse_from_end (k : nat) : forall (p : nat) v,
  max_mac_addr = Z.of_nat (p + k) ->
  traverse_from max_mac_addr (S k) v (Z.of_nat p)
  = seqZ (Z.of_nat p + 2) (Z.of_nat k) ++ [NULL].
Proof.
  induction k as [|k IH]; intros p v Hn;
    rewrite mps_tcam_traverse_from_S; unfold mps_tcam_get_idx.
  - destruct (Z.leb_spec (Z.of_nat p + 1) max_mac_addr); [lia|reflexivity].
  - destruct (Z.leb_spec (Z.of_nat p + 1) max_mac_addr); [|lia].
    destruct (Z.eqb_spec (Z.of_nat p + 1 + 1) NULL) as [E|_];
      [unfold NULL in E; lia|].
    replace (Z.of_nat p + 1) with (Z.of_nat (S p)) by lia.
    rewrite IH by lia.
    rewrite (seqZ_cons (Z.of_nat p + 2)) by lia.
    replace (Z.pred (Z.of_nat (S k))) with (Z.of_nat k) by lia.
    replace (Z.succ (Z.of_nat p + 2)) with (Z.of_nat (S p) + 2) by lia.
    cbn [app]. f_equal. lia.
Qed.

End TcamWalk.

(** X6.  The walk over the MPS TCAM gives the header, then one element for
    each of the [max_mac_addr] entries, whose indices as [mps_tcam_show]
    computes them are 0, 1, ..., [max_mac_addr - 1] in this order, and then
    ends: no entry is left out and none is shown twice. *)
Theorem mps_tcam_walk (max_mac_addr : Z) :
  0 <= max_mac_addr < 2 ^ 32 ->
  TcamSeq.traverse max_mac_addr (S (Z.to_nat max_mac_addr))
  = TcamSeq.SEQ_START_TOKEN :: seqZ 2 max_mac_addr ++ [TcamSeq.NULL]
  /\ map TcamSeq.mps_tcam_idx (seqZ 2 max_mac_addr) = seqZ 0 max_mac_addr.
Proof.
  intros Hm. split.
  - unfold TcamSeq.traverse.
    cbn [TcamSeq.mps_tcam_start Z.eqb negb]. f_equal.
    rewrite (mps_tcam_traverse_from_end max_mac_addr _ 0) by lia.
    f_equal. f_equal. lia.
  - rewrite <- (Z2Nat.id max_mac_addr) at 1 2 by lia.
    rewrite (map_seqZ_shift _ (-2)); [reflexivity|].
    intros i Hi. unfold TcamSeq.mps_tcam_idx. rewrite u32_small; lia.
Qed.

Lemma mps_tcam_walk_witness :
  TcamSeq.traverse 512 513
  = TcamSeq.SEQ_START_TOKEN :: seqZ 2 512 ++ [TcamSeq.NULL]
  /\ map TcamSeq.mps_tcam_idx (seqZ 2 512) = seqZ 0 512.
Proof. apply (mps_tcam_walk 512). lia. Defined.

(** ** Hex digits, and the RSS key read back *)

Section HexDigits.

Import RssKeyShow.

Lemma hexdigit_isxdigit d : 0 <= d < 16 -> isxdigit (hexdigit d) = true.
Proof.
  intros Hd.
  assert (H : d = 0 \/ d = 1 \/ d = 2 \/ d = 3 \/ d = 4 \/ d = 5 \/ d = 6
              \/ d = 7 \/ d = 8 \/ d = 9 \/ d = 10 \/ d = 11 \/ d = 12
              \/ d = 13 \/ d = 14 \/ d = 15) by lia.
  repeat (destruct H as [->|H]; [reflexivity|]). now subst.
Qed.

Lemma xdigit2int_hexdigit d : 0 <= d < 16 -> xdigit2int (hexdigit d) = d.
Proof.
  intros Hd.
  assert (H : d = 0 \/ d = 1 \/ d = 2 \/ d = 3 \/ d = 4 \/ d = 5 \/ d = 6
              \/ d = 7 \/ d = 8 \/ d = 9 \/ d = 10 \/ d = 11 \/ d = 12
              \/ d = 13 \/ d = 14 \/ d = 15) by lia.
  repeat (destruct H as [->|H]; [reflexivity|]). now subst.
Qed.

Lemma isxdigit_not_space c : isxdigit c = true -> isspace c = false.
Proof. destruct c as [[] [] [] [] [] [] [] []]; vm_compute; congruence. Qed.

Lemma isxdigit_not_nul c : isxdigit c = true -> Ascii.eqb c nul = false.
Proof. destruct c as [[] [] [] [] [] [] [] []]; vm_compute; congruence. Qed.

Lemma lor_shiftl_4 k d :
  0 <= k -> 0 <= d < 16 -> Z.lor (Z.shiftl k 4) d = 16 * k + d.
Proof.
  intros Hk Hd.
  assert (Hland : Z.land (Z.shiftl k 4) d = 0).
  { apply Z.bits_inj'. intros n Hn.
    rewrite Z.land_spec, Z.bits_0.
    destruct (Z.lt_ge_cases n 4) as [Hlt|Hge].
    - now rewrite Z.shiftl_spec_low.
    - rewrite (Z.bits_above_log2 d n); [apply andb_false_r|lia|].
      destruct (Z.eq_dec d 0) as [->|Hd0]; [simpl; lia|].
      apply Z.lt_le_trans with 4; [|exact Hge].
      apply Z.log2_lt_pow2; lia. }
  pose proof (Z.add_lor_land (Z.shiftl k 4) d) as H.
  rewrite Hland in H. rewrite Z.shiftl_mul_pow2 in * by lia.
  change (2 ^ 4) with 16 in *. lia.
Qed.

Lemma hexstr_app a b : hexstr (a ++ b) = (hexstr a ++ hexstr b)%string.
Proof. induction a as [|d a IH]; simpl; [reflexivity|now rewrite IH]. Qed.

Lemma hexstr_length ds : String.length (hexstr ds) = length ds.
Proof. induction ds as [|d ds IH]; simpl; [reflexivity|now rewrite IH]. Qed.

(** The nibbles of a 32-bit value, read back most significant first. *)
Lemma nibbles_value x :
  0 <= x < 2 ^ 32 ->
  fold_left (fun k d => 16 * k + d) (nibbles x) 0 = x.
Proof.
  intros Hx. unfold nibbles. cbn [fold_left].
  change (16 ^ 7) with 268435456. change (16 ^ 6) with 16777216.
  change (16 ^ 5) with 1048576. change (16 ^ 4) with 65536.
  change (16 ^ 3) with 4096. change (16 ^ 2) with 256.
  change (16 ^ 1) with 16. change (2 ^ 32) with 4294967296 in Hx.
  Z.div_mod_to_equations. lia.
Qed.

Lemma nibbles_range x : Forall (fun d => 0 <= d < 16) (nibbles x).
Proof.
  unfold nibbles. repeat constructor; try (apply Z.mod_pos_bound; lia);
    apply Z.mod_pos_bound; lia.
Qed.

End HexDigits.

Section RssKeyRoundTrip.

Import RssKey RssKeyShow.

Variable hex2val : ascii -> Z.
Hypothesis hex2val_hexdigit : forall d, 0 <= d < 16 -> hex2val (hexdigit d) = d.

(** Reading back digits that were printed. *)
Lemma key_word_hexstr ds : forall rest k,
  Forall (fun d => 0 <= d < 16) ds ->
  0 <= k -> (k + 1) * 16 ^ Z.of_nat (length ds) <= 2 ^ 32 ->
  key_word hex2val (length ds) (hexstr ds ++ rest) k
  = Ok (fold_left (fun k d => 16 * k + d) ds k, rest).
Proof.
  induction ds as [|d ds IH]; intros rest k Hds Hk Hbound.
  - reflexivity.
  - inversion Hds as [|? ? Hd Hds']; subst.
    cbn [length hexstr String.append key_word deref fold_left].
    rewrite hexdigit_isxdigit by exact Hd. cbn [negb].
    rewrite hex2val_hexdigit, lor_shiftl_4 by assumption.
    change (skip 1 (String (hexdigit d) (hexstr ds ++ rest)))
      with (hexstr ds ++ rest)%string.
    cbn [length] in Hbound.
    rewrite Nat2Z.inj_succ, Z.pow_succ_r in Hbound by lia.
    assert (0 < 16 ^ Z.of_nat (length ds)) by (apply Z.pow_pos_nonneg; lia).
    rewrite u32_small by nia.
    apply IH; [exact Hds'|lia|nia].
Qed.

Lemma key_word_fmt x rest :
  key_word hex2val 8 (fmt_08x x ++ rest) 0 = Ok (u32 x, rest).
Proof.
  unfold fmt_08x.
  change 8%nat with (length (nibbles (u32 x))).
  rewrite (key_word_hexstr (nibbles (u32 x)) rest 0 (nibbles_range _));
    [|lia|simpl; lia].
  now rewrite nibbles_value by apply u32_range.
Qed.

Lemma char_at_app_l a : forall b n,
  (n < String.length a)%nat -> char_at (a ++ b) n = char_at a n.
Proof.
  induction a as [|c a IH]; intros b n Hn; simpl in Hn; [lia|].
  destruct n as [|n]; [reflexivity|]. apply (IH b n). lia.
Qed.

Lemma char_at_app_r a b : char_at (a ++ b) (String.length a) = deref b.
Proof.
  induction a as [|c a IH]; [now destruct b|exact IH].
Qed.

Lemma char_at_hexstr ds : forall n,
  Forall (fun d => 0 <= d < 16) ds -> (n < length ds)%nat ->
  isxdigit (char_at (hexstr ds) n) = true.
Proof.
  induction ds as [|d ds IH]; intros n Hds Hn; simpl in Hn; [lia|].
  inversion Hds; subst. destruct n as [|n].
  - now apply hexdigit_isxdigit.
  - apply (IH n); [assumption|lia].
Qed.

Lemma substring_app_l a b :
  String.substring 0 (String.length a) (a ++ b) = a.
Proof. induction a as [|c a IH]; simpl; [now destruct b|now rewrite IH]. Qed.

Lemma cstr_hexstr ds :
  Forall (fun d => 0 <= d < 16) ds -> cstr (hexstr ds) = hexstr ds.
Proof.
  induction 1 as [|d ds Hd _ IH]; simpl; [reflexivity|].
  rewrite isxdigit_not_nul by now apply hexdigit_isxdigit.
  now rewrite IH.
Qed.

(** The line feed after the digits is trimmed, and nothing else. *)
Lemma trimmed_hexstr ds :
  Forall (fun d => 0 <= d < 16) ds ->
  trimmed (hexstr ds ++ nl) = hexstr ds.
Proof.
  intros Hds. unfold trimmed.
  assert (Hlen : trim_len (hexstr ds ++ nl)
                   (String.length (hexstr ds ++ nl))
                 = String.length (hexstr ds)).
  { rewrite string_length_app. change (String.length nl) with 1%nat.
    rewrite Nat.add_1_r. cbn [trim_len]. rewrite char_at_app_r.
    change (isspace (deref nl)) with true. cbv iota.
    destruct (String.length (hexstr ds)) as [|m] eqn:El; [reflexivity|].
    cbn [trim_len]. rewrite char_at_app_l by lia.
    rewrite isxdigit_not_space; [reflexivity|].
    apply char_at_hexstr; [exact Hds|]. rewrite hexstr_length in El. lia. }
  rewrite Hlen, substring_app_l. now apply cstr_hexstr.
Qed.

End RssKeyRoundTrip.

Lemma string_app_assoc (a b c : string) :
  ((a ++ b) ++ c = a ++ (b ++ c))%string.
Proof. induction a as [|x a IH]; simpl; [reflexivity|now rewrite IH]. Qed.

(** X7.  What [rss_key_show] prints can be written back: for a key of ten
    32-bit words, and a [hex2val] that gives each printed digit its value,
    [rss_key_write] on the printed line accepts it, returns its 81 bytes and
    writes the same ten words to the hardware. *)
Theorem rss_key_round_trip (hex2val : ascii -> Z) (key : list Z) :
  (forall d, 0 <= d < 16 -> hex2val (RssKeyShow.hexdigit d) = d) ->
  length key = 10%nat ->
  Forall (fun k => 0 <= k < 2 ^ 32) key ->
  RssKey.rss_key_write hex2val (RssKeyShow.rss_key_show key)
  = (81, [RssKey.t4_write_rss_key key (-1)]).
Proof.
  intros Hhex Hlen Hkey.
  do 10 (destruct key as [|? key]; [discriminate|]).
  destruct key; [|discriminate]. clear Hlen.
  repeat match goal with
         | H : Forall _ (_ :: _) |- _ =>
             let Hk := fresh "Hk" in
             apply Forall_cons in H as [Hk H]; apply u32_small in Hk
         end.
  unfold RssKey.rss_key_write.
  replace (Z.of_nat (String.length (RssKeyShow.rss_key_show
             [z; z0; z1; z2; z3; z4; z5; z6; z7; z8]))) with 81
    by (unfold RssKeyShow.rss_key_show;
        rewrite !string_length_app; unfold RssKeyShow.fmt_08x;
        rewrite !hexstr_length; reflexivity).
  change (81 >? 100 - 1) with false. cbv iota.
  set (ds := RssKeyShow.nibbles (u32 z8) ++ RssKeyShow.nibbles (u32 z7)
             ++ RssKeyShow.nibbles (u32 z6) ++ RssKeyShow.nibbles (u32 z5)
             ++ RssKeyShow.nibbles (u32 z4) ++ RssKeyShow.nibbles (u32 z3)
             ++ RssKeyShow.nibbles (u32 z2) ++ RssKeyShow.nibbles (u32 z1)
             ++ RssKeyShow.nibbles (u32 z0) ++ RssKeyShow.nibbles (u32 z)
             ++ []).
  assert (Hds : Forall (fun d => 0 <= d < 16) ds).
  { unfold ds. repeat (apply Forall_app; split; [apply nibbles_range|]).
    constructor. }
  assert (Hshow : RssKeyShow.rss_key_show
                    [z; z0; z1; z2; z3; z4; z5; z6; z7; z8]
                  = (RssKeyShow.hexstr ds ++ nl)%string).
  { unfold ds, RssKeyShow.rss_key_show, RssKeyShow.fmt_08x, load.
    cbn [lookup list_lookup Z.to_nat Pos.to_nat Pos.iter_op Nat.add default
         from_option].
    rewrite !hexstr_app, !string_app_assoc. reflexivity. }
  rewrite Hshow, trimmed_hexstr by exact Hds.
  unfold ds. rewrite !hexstr_app.
  repeat (cbn [RssKey.key_words];
          change (RssKeyShow.hexstr (RssKeyShow.nibbles (u32 ?x)))
            with (RssKeyShow.fmt_08x x);
          rewrite (key_word_fmt hex2val Hhex); cbn [bind]).
  cbn [RssKey.key_words].
  rewrite Hk, Hk0, Hk1, Hk2, Hk3, Hk4, Hk5, Hk6, Hk7, Hk8.
  reflexivity.
Qed.

Lemma rss_key_round_trip_witness :
  RssKey.rss_key_write RssKey.hex2val_std
    (RssKeyShow.rss_key_show [1; 2; 3; 4; 5; 6; 7; 8; 9; 0xdeadbeef])
  = (81, [RssKey.t4_write_rss_key [1; 2; 3; 4; 5; 6; 7; 8; 9; 0xdeadbeef]
            (-1)]).
Proof.
  apply (rss_key_round_trip RssKey.hex2val_std).
  - exact xdigit2int_hexdigit.
  - reflexivity.
  - repeat constructor; lia.
Defined.

(** ** What the trace filter command hands to the hardware *)

Section MpsTrcBounds.

Import MpsTrc.

Context (E : env) (adap : adapter) (trcidx : Z).

Hypothesis kstrtouint_nonneg : forall s x, kstrtouint E s = Some x -> 0 <= x.
Hypothesis TFMINPKTSIZE_M_nonneg : 0 <= TFMINPKTSIZE_M E.

Ltac ok_split :=
  unfold trace_params_ok;
  cbn [snap_len min_len skip_len invert port with_data with_snap_len
       with_min_len with_skip_ofst with_skip_len with_invert with_port];
  split; [|split; [|split; [|split]]]; try tauto; try lia.

Lemma tp_init_ok : trace_params_ok E (tp_init E).
Proof. unfold trace_params_ok, tp_init. simpl. lia. Qed.

Lemma with_data_ok tp d m :
  trace_params_ok E tp -> trace_params_ok E (with_data tp d m).
Proof. exact id. Qed.

Lemma pattern_anchor_ok word tp j tp' :
  pattern_anchor E word tp j = Ok tp' ->
  trace_params_ok E tp -> trace_params_ok E tp'.
Proof.
  unfold pattern_anchor.
  destruct (Ascii.eqb (deref word) "@"); [|now intros [= <-]].
  destruct (_ && _); [discriminate|].
  destruct (negb (Z.land _ 7 =? 0)); [discriminate|].
  destruct (_ <? skip_ofst tp); [discriminate|].
  match goal with
  | |- context [u32 ?x >? 31] =>
      pose proof (u32_range x); destruct (Z.gtb_spec (u32 x) 31);
      [discriminate|]
  end.
  intros [= <-] (H1 & H2 & H3 & H4 & H5). cbn [skip] in *.
  match goal with
  | H : u32 ?x <= 31 |- _ =>
      assert (Hm : u32 x mod 2 ^ 8 = u32 x) by (apply Z.mod_small; lia)
  end.
  ok_split.
Qed.

Lemma parse_pattern_ok word tp i tp' i' :
  parse_pattern E word tp i = Ok (tp', i') ->
  trace_params_ok E tp -> trace_params_ok E tp'.
Proof.
  unfold parse_pattern. intros H Hok.
  assert (Hsplit : forall x, trace_params_ok E (with_skip_ofst tp x))
    by (intros x; exact Hok).
  destruct (negb (i =? 0)); [destruct (negb (skip_len tp =? 0))|];
    cbn [bind] in H; try discriminate.
  all: match type of H with
       | context [parse_data E ?w0 ?d ?dp ?i] =>
           destruct (parse_data E w0 d dp i) as [[[[w d'] dp'] i2]|e];
           cbn [bind] in H; [|discriminate]
       end.
  all: match type of H with
       | context [pattern_mask ?w ?m ?mp ?i ?j] =>
           destruct (pattern_mask w m mp i j) as [[[[w2 m'] mp'] j']|e];
           cbn [bind] in H; [|discriminate]
       end.
  all: match type of H with
       | context [pattern_anchor E ?w ?tp ?j] =>
           destruct (pattern_anchor E w tp j) as [tp2|e] eqn:Ha;
           cbn [bind] in H; [|discriminate];
           apply pattern_anchor_ok in Ha; [|apply with_data_ok; auto]
       end.
  all: destruct (negb (Z.rem i2 8 =? 0)); injection H as <- <-;
    try apply with_data_ok; exact Ha.
Qed.

Lemma port_digit_range word n x :
  port_digit word n = Ok x -> 0 <= x <= 3.
Proof.
  unfold port_digit.
  destruct (Z.ltb_spec (code (char_at word n)) 48); [discriminate|].
  destruct (Z.gtb_spec (code (char_at word n)) 51); [discriminate|].
  cbn [orb]. destruct (negb _); [discriminate|]. intros [= <-]. lia.
Qed.

Lemma parse_word_ok word tp i tp' i' w :
  parse_word E adap trcidx word tp i = Ok (tp', i', w) ->
  trace_params_ok E tp -> trace_params_ok E tp'.
Proof.
  unfold parse_word. intros H (H1 & H2 & H3 & H4 & H5).
  destruct (String.prefix "qid=" word).
  { destruct (kstrtouint E (skip 4 word)); [|discriminate].
    injection H as <- <- <-. ok_split. }
  destruct (String.prefix "snaplen=" word).
  { destruct (kstrtouint E (skip 8 word)) as [j|] eqn:Hj; [|discriminate].
    apply kstrtouint_nonneg in Hj.
    destruct (Z.gtb_spec j 9600); [discriminate|].
    injection H as <- <- <-.
    assert (Hm : j mod 2 ^ 16 = j) by (apply Z.mod_small; lia).
    ok_split. }
  destruct (String.prefix "minlen=" word).
  { destruct (kstrtouint E (skip 7 word)) as [j|] eqn:Hj; [|discriminate].
    apply kstrtouint_nonneg in Hj.
    destruct (Z.gtb_spec j (TFMINPKTSIZE_M E)); [discriminate|].
    injection H as <- <- <-.
    pose proof (Z.mod_pos_bound j (2 ^ 16) ltac:(lia)).
    pose proof (Z.mod_le j (2 ^ 16) ltac:(lia) ltac:(lia)).
    ok_split. }
  destruct (String.eqb word "not").
  { injection H as <- <- <-. ok_split.
    destruct (invert tp =? 0); auto. }
  destruct (String.prefix "loopback" word && (port tp =? TRC_PORT_NONE)).
  { destruct (port_digit word 8) as [n|] eqn:Hn; [|discriminate].
    apply port_digit_range in Hn. injection H as <- <- <-.
    ok_split. }
  destruct (String.prefix "tx" word && (port tp =? TRC_PORT_NONE)).
  { destruct (port_digit word 2) as [n|] eqn:Hn; [|discriminate].
    apply port_digit_range in Hn. cbn [bind] in H.
    destruct (_ >=? MAX_NPORTS E); [discriminate|]. injection H as <- <- <-.
    ok_split. }
  destruct (String.prefix "rx" word && (port tp =? TRC_PORT_NONE)).
  { destruct (port_digit word 2) as [n|] eqn:Hn; [|discriminate].
    apply port_digit_range in Hn. cbn [bind] in H.
    destruct (_ >=? MAX_NPORTS E); [discriminate|]. injection H as <- <- <-.
    ok_split. }
  destruct (negb (isxdigit (deref word))); [discriminate|].
  destruct (parse_pattern E word tp i) as [[tp2 i2]|e] eqn:Hp;
    [|discriminate].
  injection H as <- <- <-.
  apply (parse_pattern_ok _ _ _ _ _ Hp). ok_split.
Qed.

Lemma parse_words_ok fuel : forall p tp i tp',
  (parse_words E adap trcidx fuel p tp i).2 = Ok tp' ->
  trace_params_ok E tp -> trace_params_ok E tp'.
Proof.
  induction fuel as [|fuel IH]; intros [s|] tp i tp';
    cbn [parse_words]; try (now intros [= <-]).
  - destruct (strsep (skip_spaces s)) as [word p'].
    destruct (Ascii.eqb (deref word) nul); [now intros [= <-]|].
    destruct (parse_word E adap trcidx word tp i) as [[[tp2 i2] w]|e];
      discriminate.
  - destruct (strsep (skip_spaces s)) as [word p'].
    destruct (Ascii.eqb (deref word) nul); [now intros [= <-]|].
    destruct (parse_word E adap trcidx word tp i) as [[[tp2 i2] w]|e] eqn:Hw;
      [|discriminate].
    destruct (parse_words E adap trcidx fuel p' tp2 i2) as [ws r] eqn:Hr.
    cbn [snd]. intros -> Hok.
    apply (IH p' tp2 i2 tp'); [now rewrite Hr|].
    exact (parse_word_ok _ _ _ _ _ _ Hw Hok).
Qed.

End MpsTrcBounds.

Lemma digits_nonneg s : forall acc y,
  0 <= acc -> MpsTrc.digits s acc = Some y -> 0 <= y.
Proof.
  induction s as [|c s IH]; intros acc y Hacc; simpl.
  - intros [= <-]. exact Hacc.
  - destruct (isdigit c) eqn:Hc.
    + apply IH. unfold isdigit in Hc. lia.
    + destruct (_ && _); [intros [= <-]; exact Hacc|discriminate].
Qed.

Lemma kstrtouint_dec_nonneg s x : MpsTrc.kstrtouint_dec s = Some x -> 0 <= x.
Proof.
  unfold MpsTrc.kstrtouint_dec.
  destruct (isdigit _); [|discriminate].
  destruct (MpsTrc.digits _ 0) as [y|] eqn:Hy; [|discriminate].
  destruct (y <? 2 ^ 32); [|discriminate].
  intros [= <-]. revert Hy. apply digits_nonneg. lia.
Qed.

(** X8.  Whatever the text, a filter that [mps_trc_write] hands to
    [t4_set_trace_filter] is an enabled filter for the tracer of the file,
    with a snap length of at most 9600, a minimum length of at most
    [TFMINPKTSIZE_M], a skip length of at most 31, an inversion flag that is
    0 or 1 and an interface 0..11: a filter without interface is never
    applied.  [kstrtouint] is taken to give numbers that are not negative. *)
Theorem mps_trc_write_filter_bounds (E : MpsTrc.env) (adap : MpsTrc.adapter)
  (trcidx : Z) (buf : string) (ret : Z) (w : list MpsTrc.effect)
  (tp : MpsTrc.trace_params) (idx : Z) (en : bool) :
  (forall s x, MpsTrc.kstrtouint E s = Some x -> 0 <= x) ->
  0 <= MpsTrc.TFMINPKTSIZE_M E ->
  MpsTrc.mps_trc_write E adap trcidx buf = Some (ret, w) ->
  MpsTrc.t4_set_trace_filter (Some tp) idx en ∈ w ->
  idx = trcidx /\ en = true /\ trace_params_ok E tp
  /\ 0 <= MpsTrc.port tp <= 11.
Proof.
  intros Hk Hm Hw Hin. unfold MpsTrc.mps_trc_write in Hw.
  destruct (_ >? 1024); [injection Hw as <- <-; inversion Hin|].
  destruct (_ =? 0); [discriminate|]. cbv zeta in Hw.
  destruct (negb (String.eqb "disable" _)); cbn [negb] in Hw.
  2: { unfold MpsTrc.apply in Hw. injection Hw as <- <-. cbn [app] in Hin.
       apply list_elem_of_singleton in Hin. discriminate. }
  pose proof (parse_words_writes E adap trcidx
                (String.length (cstr (MpsTrc.chomp buf)))
                (Some (cstr (MpsTrc.chomp buf))) (MpsTrc.tp_init E) 0) as Hww.
  pose proof (parse_words_ok E adap trcidx Hk
                (String.length (cstr (MpsTrc.chomp buf)))
                (Some (cstr (MpsTrc.chomp buf))) (MpsTrc.tp_init E) 0) as Hok.
  destruct (MpsTrc.parse_words E adap trcidx _ _ _ _) as [w0 r].
  cbn [fst snd] in Hww, Hok.
  assert (Hearly : MpsTrc.t4_set_trace_filter (Some tp) idx en ∈ w0 -> False).
  { intros He. rewrite Forall_forall in Hww.
    specialize (Hww _ He). inversion Hww. }
  destruct r as [tp0|[]].
  - specialize (Hok tp0 eq_refl (tp_init_ok E Hm)).
    destruct (Z.eqb_spec (MpsTrc.port tp0) MpsTrc.TRC_PORT_NONE) as [|Hp];
      unfold MpsTrc.apply in Hw; injection Hw as <- <-; cbn [app] in Hin;
      apply elem_of_cons in Hin as [Hin|Hin]; try discriminate;
      [contradiction|].
    apply elem_of_app in Hin as [Hin|Hin]; [contradiction|].
    apply list_elem_of_singleton in Hin. injection Hin as -> -> ->.
    split; [reflexivity|]. split; [reflexivity|]. split; [exact Hok|].
    destruct Hok as (_ & _ & _ & _ & [?|?]); [contradiction|assumption].
  - injection Hw as <- <-.
    apply elem_of_cons in Hin as [Hin|Hin]; [discriminate|contradiction].
  - injection Hw as <- <-.
    apply elem_of_cons in Hin as [Hin|Hin]; [discriminate|contradiction].
  - injection Hw as <- <-.
    apply elem_of_cons in Hin as [Hin|Hin]; [discriminate|contradiction].
  - discriminate.
Qed.

Lemma mps_trc_write_filter_bounds_witness :
  exists tp,
    MpsTrc.mps_trc_write MpsTrc.linux_env MpsTrc.four_ports 2
      "tx1 snaplen=128 not 0a0b"
    = Some (24, [MpsTrc.t4_write_reg MpsTrc.MPS_TRC_CFG_A
                   MpsTrc.TRC_RSS_DISABLE;
                 MpsTrc.t4_set_trace_filter (Some tp) 2 true])
    /\ trace_params_ok MpsTrc.linux_env tp
    /\ MpsTrc.port tp = 5.
Proof.
  eexists. split; [vm_compute; reflexivity|]. split; [|reflexivity].
  refine (proj1 (proj2 (proj2
    (mps_trc_write_filter_bounds MpsTrc.linux_env MpsTrc.four_ports 2
       "tx1 snaplen=128 not 0a0b" 24 _ _ 2 true _ _ _ _)))).
  - exact kstrtouint_dec_nonneg.
  - simpl. lia.
  - vm_compute. reflexivity.
  - apply list_elem_of_further, list_elem_of_here.
Defined.

(** ** Words the trace filter command always refuses *)

Section MpsTrcRefused.

Import MpsTrc.

Context (E : env) (adap : adapter) (trcidx : Z).

(** A word that starts with a hex digit is read as a pattern. *)
Lemma parse_word_pattern c word tp i :
  isxdigit c = true ->
  parse_word E adap trcidx (String c word) tp i
  = let* (tp, i) := parse_pattern E (String c word) tp i in Ok (tp, i, []).
Proof.
  intros Hc. unfold parse_word.
  destruct c as [[] [] [] [] [] [] [] []]; try discriminate Hc; reflexivity.
Qed.

Lemma parse_data_hex hex : forall rest d dp i,
  all_xdigit hex = true -> isxdigit (deref rest) = false ->
  parse_data E (hex ++ rest) d dp i = Err Efbig
  \/ exists d' dp' i', parse_data E (hex ++ rest) d dp i
                       = Ok (rest, d', dp', i').
Proof.
  induction hex as [|c hex IH]; intros rest d dp i Hhex Hrest.
  - right. destruct rest as [|c rest]; simpl in *; [eauto|].
    rewrite Hrest. eauto.
  - simpl in Hhex. apply andb_true_iff in Hhex as [Hc Hhex].
    cbn [String.append parse_data]. rewrite Hc.
    destruct (i >=? TRACE_LEN E * 2); [now left|]. now apply IH.
Qed.

Lemma parse_mask_hex hex : forall rest m mp i j,
  all_xdigit hex = true -> isxdigit (deref rest) = false ->
  parse_mask (hex ++ rest) m mp i j = Err Inval
  \/ exists m' mp' j', parse_mask (hex ++ rest) m mp i j
                       = Ok (rest, m', mp', j').
Proof.
  induction hex as [|c hex IH]; intros rest m mp i j Hhex Hrest.
  - right. destruct rest as [|c rest]; simpl in *; [eauto|].
    rewrite Hrest. eauto.
  - simpl in Hhex. apply andb_true_iff in Hhex as [Hc Hhex].
    cbn [String.append parse_mask]. rewrite Hc.
    destruct (j >=? u32 i); [now left|]. now apply IH.
Qed.

Lemma pattern_anchor_offset c rest tp j :
  c <> nul -> c <> newline ->
  pattern_anchor E (String "@" (String c rest)) tp j = Err Inval.
Proof.
  intros Hnul Hnl. unfold pattern_anchor.
  cbn [deref skip]. rewrite Ascii.eqb_refl. cbv zeta.
  apply Ascii.eqb_neq in Hnul, Hnl.
  fold newline. now rewrite Hnul, Hnl.
Qed.

Lemma parse_pattern_offset hex m c rest tp i :
  all_xdigit hex = true ->
  (m = EmptyString
   \/ exists hm, m = String "/" hm /\ all_xdigit hm = true) ->
  c <> nul -> c <> newline ->
  parse_pattern E (hex ++ m ++ String "@" (String c rest)) tp i = Err Inval
  \/ parse_pattern E (hex ++ m ++ String "@" (String c rest)) tp i
     = Err Efbig.
Proof.
  intros Hhex Hm Hnul Hnl. unfold parse_pattern.
  assert (Hrest : isxdigit (deref (m ++ String "@" (String c rest))) = false)
    by (destruct Hm as [->|(hm & -> & _)]; reflexivity).
  destruct (negb (i =? 0)); [destruct (negb (skip_len tp =? 0))|];
    cbn [bind]; auto.
  all: match goal with
       | |- context [parse_data E ?w0 ?d ?dp ?i] =>
           destruct (parse_data_hex hex _ d dp i Hhex Hrest)
             as [->|(d' & dp' & i' & ->)]; cbn [bind]; auto
       end.
  all: unfold pattern_mask;
    destruct Hm as [->|(hm & -> & Hhm)];
    cbn [String.append deref skip].
  all: try change (Ascii.eqb "@" "/") with false.
  all: try change (Ascii.eqb "/" "/") with true.
  all: cbv iota.
  all: try match goal with
       | |- context [ones_loop ?f ?m ?mp ?i ?j] =>
           destruct (ones_loop_total f m mp i j ltac:(lia))
             as [[[m' mp'] j'] ->]; cbn [bind];
           rewrite pattern_anchor_offset by assumption; auto
       end.
  all: match goal with
       | Hh : all_xdigit ?h = true
         |- context [parse_mask (?h ++ ?r) ?m ?mp ?i ?j] =>
           destruct (parse_mask_hex h r m mp i j Hh eq_refl)
             as [->|(m' & mp' & j' & ->)]; cbn [bind]; auto
       end.
  all: destruct (negb (u32 _ =? _)); cbn [bind]; auto.
  all: rewrite pattern_anchor_offset by assumption; auto.
Qed.

End MpsTrcRefused.

(** X9.  Only one interface can be named: once the parameters hold an
    interface, a further word that starts with [rx], [tx] or [loopback] is
    refused with [-EINVAL], whatever follows the prefix. *)
Theorem mps_trc_second_interface_refused (E : MpsTrc.env)
  (adap : MpsTrc.adapter) (trcidx : Z) (word : string)
  (tp : MpsTrc.trace_params) (i : Z) :
  MpsTrc.port tp <> MpsTrc.TRC_PORT_NONE ->
  String.prefix "rx" word || String.prefix "tx" word
  || String.prefix "loopback" word = true ->
  MpsTrc.parse_word E adap trcidx word tp i = Err Inval.
Proof.
  intros Hp H. apply Z.eqb_neq in Hp. unfold MpsTrc.parse_word.
  rewrite Hp, !andb_false_r.
  destruct word as [|c w]; [discriminate|].
  destruct c as [[] [] [] [] [] [] [] []]; try discriminate H; reflexivity.
Qed.

Lemma mps_trc_second_interface_refused_witness :
  MpsTrc.parse_word MpsTrc.linux_env MpsTrc.four_ports 0 "tx2"
    (MpsTrc.with_port (MpsTrc.tp_init MpsTrc.linux_env) 1) 0 = Err Inval.
Proof.
  apply mps_trc_second_interface_refused; [discriminate|reflexivity].
Defined.

(** X10.  A pattern with an offset after its [@] is never accepted: for a
    word made of hex digits, an optional [/] and mask digits, [@] and at
    least one more character other than a line feed, the command fails with
    [-EINVAL], or with [-EFBIG] when the digits are too many, whatever
    [kstrtouint] makes of the offset. *)
Theorem mps_trc_anchor_offset_refused (E : MpsTrc.env) (adap : MpsTrc.adapter)
  (trcidx : Z) (c0 : ascii) (hex m : string) (c : ascii) (rest : string)
  (tp : MpsTrc.trace_params) (i : Z) :
  isxdigit c0 = true -> all_xdigit hex = true ->
  (m = EmptyString \/ exists hm, m = String "/" hm /\ all_xdigit hm = true) ->
  c <> nul -> c <> newline ->
  MpsTrc.parse_word E adap trcidx
    (String c0 hex ++ m ++ String "@" (String c rest)) tp i = Err Inval
  \/ MpsTrc.parse_word E adap trcidx
       (String c0 hex ++ m ++ String "@" (String c rest)) tp i = Err Efbig.
Proof.
  intros Hc0 Hhex Hm Hnul Hnl.
  change (String c0 hex ++ m ++ String "@" (String c rest))%string
    with (String c0 (hex ++ m ++ String "@" (String c rest)))%string.
  rewrite parse_word_pattern by exact Hc0.
  change (String c0 (hex ++ m ++ String "@" (String c rest)))%string
    with (String c0 hex ++ m ++ String "@" (String c rest))%string.
  destruct (parse_pattern_offset E (String c0 hex) m c rest tp i)
    as [-> | ->]; auto.
  simpl. now rewrite Hc0, Hhex.
Qed.

Lemma mps_trc_anchor_offset_refused_witness :
  MpsTrc.parse_word MpsTrc.linux_env MpsTrc.four_ports 0 "0a0b/ffff@8"
    (MpsTrc.with_port (MpsTrc.tp_init MpsTrc.linux_env) 1) 0 = Err Inval.
Proof.
  assert (Hm : "/ffff"%string = EmptyString
               \/ exists hm, "/ffff"%string = String "/" hm
                             /\ all_xdigit hm = true)
    by (right; exists "ffff"%string; split; reflexivity).
  destruct (mps_trc_anchor_offset_refused MpsTrc.linux_env MpsTrc.four_ports
              0 "0" "a0b" "/ffff" "8" ""
              (MpsTrc.with_port (MpsTrc.tp_init MpsTrc.linux_env) 1) 0
              eq_refl eq_refl Hm ltac:(discriminate) ltac:(discriminate))
    as [H|H]; [exact H|vm_compute in H; discriminate H].
Defined.

(** ** Reading the flash *)

Section FlashFacts.

Import Flash.

Lemma land_3_range pos :
  0 <= Z.land pos 3 <= 3 /\ (pos - Z.land pos 3) mod 4 = 0.
Proof.
  assert (H : Z.land pos 3 = pos mod 4)
    by (change 3 with (Z.ones 2); now rewrite Z.land_ones by lia).
  rewrite H. pose proof (Z.mod_pos_bound pos 4 ltac:(lia)).
  split; [lia|]. rewrite Zminus_mod_idemp_r, Z.sub_diag. reflexivity.
Qed.

Lemma bytes_at_app mem addr n1 n2 :
  0 <= n1 -> 0 <= n2 ->
  bytes_at mem addr (n1 + n2)
  = bytes_at mem addr n1 ++ bytes_at mem (addr + n1) n2.
Proof.
  intros H1 H2. unfold bytes_at. now rewrite seqZ_app, map_app by lia.
Qed.

Lemma bytes_at_length mem addr n :
  0 <= n -> length (bytes_at mem addr n) = Z.to_nat n.
Proof. intros Hn. unfold bytes_at. now rewrite length_map, length_seqZ. Qed.

(** The part of a buffer that is copied out. *)
Lemma bytes_at_window mem addr k n m :
  0 <= k -> 0 <= n -> k + n <= m ->
  take (Z.to_nat n) (drop (Z.to_nat k) (bytes_at mem addr m))
  = bytes_at mem (addr + k) n.
Proof.
  intros Hk Hn Hm.
  replace m with (k + (n + (m - k - n))) by lia.
  rewrite bytes_at_app by lia.
  rewrite drop_app_length' by (now rewrite bytes_at_length).
  rewrite bytes_at_app by lia.
  apply take_app_length'. now rewrite bytes_at_length.
Qed.

Section AnyFlash.

Variable t4_read_flash : Z -> Z -> Z + list Z.

(** The loop of [flash_read] ends, whatever the flash returns. *)
Lemma flash_loop_total (fuel : nat) : forall pos count out,
  0 <= count <= Z.of_nat fuel ->
  exists x out',
    flash_loop t4_read_flash fuel pos count out = Ok (x, out')
    /\ (x = inr (pos + count)
        \/ exists addr n r, t4_read_flash addr n = inl r /\ x = inl r).
Proof.
  induction fuel as [|fuel IH]; intros pos count out Hc.
  - assert (count = 0) as -> by lia. simpl. eexists _, _.
    split; [reflexivity|]. left. f_equal. lia.
  - cbn [flash_loop]. destruct (Z.eqb_spec count 0) as [->|Hne].
    + eexists _, _. split; [reflexivity|]. left. f_equal. lia.
    + cbv zeta. pose proof (land_3_range pos) as [Ho _].
      destruct (t4_read_flash _ _) as [r|data] eqn:Hr.
      * eexists _, _. split; [reflexivity|]. right. eauto.
      * set (len := Z.min (count + Z.land pos 3) 256 - Z.land pos 3).
        destruct (IH (pos + len) (count - len)
                    (out ++ take (Z.to_nat len)
                              (drop (Z.to_nat (Z.land pos 3)) data))
                    ltac:(lia)) as (x & out' & -> & Hx).
        eexists _, _. split; [reflexivity|].
        destruct Hx as [->|Hx]; [left; f_equal; lia|now right].
Qed.

End AnyFlash.

Section GoodFlash.

Variable mem : Z -> Z.
Variable t4_read_flash : Z -> Z -> Z + list Z.

(** The flash serves a request for up to 64 words at a multiple of 4 with
    the bytes at that address. *)
Hypothesis read_ok : forall addr nwords,
  0 <= addr -> addr mod 4 = 0 -> 0 < nwords <= 64 ->
  t4_read_flash addr nwords = inr (bytes_at mem addr (4 * nwords)).

Lemma flash_loop_bytes (fuel : nat) : forall pos count out,
  0 <= pos -> 0 <= count <= Z.of_nat fuel ->
  flash_loop t4_read_flash fuel pos count out
  = Ok (inr (pos + count), out ++ bytes_at mem pos count).
Proof.
  induction fuel as [|fuel IH]; intros pos count out Hp Hc.
  - assert (count = 0) as -> by lia. simpl.
    now rewrite Z.add_0_r, app_nil_r.
  - cbn [flash_loop]. destruct (Z.eqb_spec count 0) as [->|Hne].
    + now rewrite Z.add_0_r, app_nil_r.
    + cbv zeta. pose proof (land_3_range pos) as [Ho Ha].
      assert (Hop : Z.land pos 3 <= pos).
      { pose proof (Z.div_mod (pos - Z.land pos 3) 4 ltac:(lia)).
        pose proof (Z.div_pos pos 4 ltac:(lia) ltac:(lia)).
        destruct (Z.le_gt_cases 4 pos); [lia|].
        pose proof (Z.land_ones pos 2 ltac:(lia)) as Hl.
        change (Z.ones 2) with 3 in Hl. rewrite Hl.
        apply Z.mod_le; lia. }
      set (ofst := Z.land pos 3) in *.
      set (len := Z.min (count + ofst) 256).
      assert (Hlen : 1 <= len <= 256 /\ len <= count + ofst
                     /\ (len = 256 \/ len = count + ofst))
        by (subst len; lia).
      clearbody len.
      assert (Hq : Z.quot (len + 3) 4 = (len + 3) / 4)
        by (apply Z.quot_div_nonneg; lia).
      pose proof (Z.div_mod (len + 3) 4 ltac:(lia)) as Hdm.
      pose proof (Z.mod_pos_bound (len + 3) 4 ltac:(lia)) as Hmb.
      rewrite Hq, read_ok by lia.
      rewrite (bytes_at_window mem (pos - ofst) ofst (len - ofst)) by lia.
      rewrite IH by lia. f_equal. f_equal; [f_equal; lia|].
      rewrite <- app_assoc. f_equal.
      replace (pos - ofst + ofst) with pos by lia.
      rewrite <- bytes_at_app by lia. f_equal. lia.
Qed.

End GoodFlash.

End FlashFacts.

(** X11.  [flash_read] at a position inside the file returns the bytes of
    the flash from that position on, as many as were asked for or as are
    left in the file, and moves the position by that number, although it
    reads the flash in aligned pieces of at most 64 words; it only asks the
    flash for such pieces, at addresses that are multiples of 4. *)
Theorem flash_read_bytes (mem : Z -> Z) (t4_read_flash : Z -> Z -> Z + list Z)
  (avail pos count : Z) :
  (forall addr nwords,
     0 <= addr -> addr mod 4 = 0 -> 0 < nwords <= 64 ->
     t4_read_flash addr nwords = inr (Flash.bytes_at mem addr (4 * nwords))) ->
  0 <= pos < avail -> 0 <= count ->
  Flash.flash_read t4_read_flash avail pos count
  = Some {| Flash.ret := Z.min count (avail - pos);
            Flash.ppos := pos + Z.min count (avail - pos);
            Flash.copied :=
              Flash.bytes_at mem pos (Z.min count (avail - pos)) |}.
Proof.
  intros Hread Hpos Hcount. unfold Flash.flash_read.
  destruct (Z.ltb_spec pos 0); [lia|].
  destruct (Z.geb_spec pos avail); [lia|]. cbv zeta.
  assert (Hn : (if count >? avail - pos then avail - pos else count)
               = Z.min count (avail - pos))
    by (destruct (Z.gtb_spec count (avail - pos)); lia).
  rewrite Hn, (flash_loop_bytes mem t4_read_flash Hread) by lia.
  cbn [app]. f_equal. f_equal. lia.
Qed.

Lemma flash_read_bytes_witness :
  Flash.flash_read (fun addr n => inr (Flash.bytes_at id addr (4 * n)))
    1000 254 700
  = Some {| Flash.ret := 700; Flash.ppos := 954;
            Flash.copied := Flash.bytes_at id 254 700 |}.
Proof.
  apply (flash_read_bytes id
           (fun addr n => inr (Flash.bytes_at id addr (4 * n))) 1000 254 700);
    [reflexivity|lia|lia].
Defined.

(** X12.  [flash_read] always returns.  Before the file it fails with
    [-EINVAL], at or after the end of the file it returns 0, and in both
    cases the position stays.  Inside the file it either returns the number
    of bytes asked for, cut to what is left of the file, and moves the
    position by it, or it returns the status of a read of the flash that
    failed and leaves the position where it was. *)
Theorem flash_read_returns (t4_read_flash : Z -> Z -> Z + list Z)
  (avail pos count : Z) :
  0 <= count ->
  exists o,
    Flash.flash_read t4_read_flash avail pos count = Some o
    /\ (pos < 0 -> o = Flash.mk_outcome (- EINVAL) pos [])
    /\ (0 <= pos -> avail <= pos -> o = Flash.mk_outcome 0 pos [])
    /\ (0 <= pos < avail ->
        (Flash.ret o = Z.min count (avail - pos)
         /\ Flash.ppos o = pos + Z.min count (avail - pos))
        \/ (Flash.ppos o = pos
            /\ exists addr n,
                 t4_read_flash addr n = inl (Flash.ret o))).
Proof.
  intros Hcount. unfold Flash.flash_read.
  destruct (Z.ltb_spec pos 0).
  { eexists. split; [reflexivity|]. repeat split; intros; try lia. }
  destruct (Z.geb_spec pos avail).
  { eexists. split; [reflexivity|]. repeat split; intros; try lia. }
  cbv zeta.
  assert (Hn : (if count >? avail - pos then avail - pos else count)
               = Z.min count (avail - pos))
    by (destruct (Z.gtb_spec count (avail - pos)); lia).
  rewrite Hn.
  destruct (flash_loop_total t4_read_flash
              (Z.to_nat (Z.min count (avail - pos))) pos
              (Z.min count (avail - pos)) [] ltac:(lia))
    as (x & out & -> & [->|(addr & n & r & Hr & ->)]).
  - eexists. split; [reflexivity|].
    split; [intros; lia|]. split; [intros; lia|].
    intros _. left. cbn. lia.
  - eexists. split; [reflexivity|].
    split; [intros; lia|]. split; [intros; lia|].
    intros _. right. cbn. eauto.
Qed.

Lemma flash_read_returns_witness :
  exists o,
    Flash.flash_read (fun addr n => if addr <? 512 then inr (repeat 0 256)
                                    else inl (-5)) 1000 254 700 = Some o
    /\ Flash.ppos o = 254 /\ Flash.ret o = -5
    /\ length (Flash.copied o) = 510%nat.
Proof.
  destruct (flash_read_returns
              (fun addr n => if addr <? 512 then inr (repeat 0 256)
                             else inl (-5)) 1000 254 700 ltac:(lia))
    as (o & Ho & _).
  exists o. split; [exact Ho|].
  vm_compute in Ho. injection Ho as <-. repeat split.
Defined.

(** ** The rows of the SGE queue report *)

Lemma map_seqZ_ext {A} (f g : Z -> A) (n : nat) : forall a b,
  (forall i, 0 <= i < Z.of_nat n -> f (a + i) = g (b + i)) ->
  map f (seqZ a (Z.of_nat n)) = map g (seqZ b (Z.of_nat n)).
Proof.
  induction n as [|n IH]; intros a b Hfg; [reflexivity|].
  rewrite (seqZ_cons a), (seqZ_cons b) by lia. cbn [map].
  replace (Z.pred (Z.of_nat (S n))) with (Z.of_nat n) by lia.
  f_equal.
  - specialize (Hfg 0 ltac:(lia)). now rewrite !Z.add_0_r in Hfg.
  - apply IH. intros i Hi. specialize (Hfg (1 + i) ltac:(lia)).
    replace (Z.succ a + i) with (a + (1 + i)) by lia.
    replace (Z.succ b + i) with (b + (1 + i)) by lia. exact Hfg.
Qed.

Section SgeRows.

Import SgeQinfo.

Lemma columns_seqZ base n : columns base n = seqZ base n.
Proof.
  unfold columns. destruct (Z.le_gt_cases n 0) as [Hn|Hn].
  - now rewrite !seqZ_nil by lia.
  - rewrite <- (Z2Nat.id n) by lia.
    rewrite (map_seqZ_shift _ base); [reflexivity|]. intros; lia.
Qed.

Lemma DIV_ROUND_UP_4 q :
  0 <= q -> 4 * DIV_ROUND_UP q 4 - 3 <= q <= 4 * DIV_ROUND_UP q 4.
Proof.
  intros Hq. unfold DIV_ROUND_UP. rewrite Z.quot_div_nonneg by lia.
  pose proof (Z.div_mod (q + 4 - 1) 4 ltac:(lia)).
  pose proof (Z.mod_pos_bound (q + 4 - 1) 4 ltac:(lia)). lia.
Qed.

(** Rows of four columns list the queues 0 .. q - 1. *)
Lemma concat_columns q (k : nat) :
  0 <= q -> 4 * Z.of_nat k - 3 <= q ->
  concat (map (fun r => columns (r * 4) (Z.min 4 (q - 4 * r)))
            (seqZ 0 (Z.of_nat k)))
  = seqZ 0 (Z.min (4 * Z.of_nat k) q).
Proof.
  intros Hq. induction k as [|k IH]; intros Hk;
    [now rewrite (seqZ_nil 0 (Z.min _ _)) by lia|].
  rewrite seqZ_S, map_app, concat_app, IH by lia.
  cbn [map concat]. rewrite app_nil_r, columns_seqZ, Z.add_0_l.
  rewrite Z.min_l by lia.
  replace (Z.of_nat k * 4) with (0 + 4 * Z.of_nat k) by lia.
  rewrite <- seqZ_app by lia. f_equal. lia.
Qed.

Context (ethqsets ofldqsets nports MAX_CTRL_QUEUES : Z).

Local Abbreviation entries :=
  (sge_queue_entries ethqsets ofldqsets MAX_CTRL_QUEUES).
Local Abbreviation show :=
  (sge_qinfo_show ethqsets ofldqsets nports MAX_CTRL_QUEUES).

Lemma sge_traverse_from (n : nat) : forall v p,
  0 <= p -> entries - p - 1 <= Z.of_nat n ->
  traverse_from ethqsets ofldqsets MAX_CTRL_QUEUES n v p
  = seqZ (p + 2) (entries - p - 1).
Proof.
  induction n as [|n IH]; intros v p Hp Hn.
  - now rewrite seqZ_nil by lia.
  - cbn [traverse_from sge_queue_next].
    destruct (Z.ltb_spec (p + 1) entries).
    + destruct (Z.eqb_spec (p + 1 + 1) NULL) as [E|_];
        [unfold NULL in E; lia|].
      rewrite IH by lia. rewrite (seqZ_cons (p + 2)) by lia.
      f_equal; [lia|]. f_equal; lia.
    + cbn. now rewrite seqZ_nil by lia.
Qed.

Lemma sge_traverse (n : nat) :
  0 < entries -> entries - 1 <= Z.of_nat n ->
  traverse ethqsets ofldqsets MAX_CTRL_QUEUES n = seqZ 1 entries.
Proof.
  intros He Hn. unfold traverse, sge_queue_start.
  destruct (Z.ltb_spec 0 entries); [|lia]. cbn [Z.eqb Z.add].
  rewrite sge_traverse_from by lia.
  rewrite (seqZ_cons 1) by lia. f_equal. f_equal; lia.
Qed.

End SgeRows.

Section SgeReport.

Import SgeQinfo.

Context (ethqsets ofldqsets nports MAX_CTRL_QUEUES : Z).

Hypothesis ethqsets_nonneg : 0 <= ethqsets.
Hypothesis ofldqsets_nonneg : 0 <= ofldqsets.
Hypothesis ctrl_nonneg : 0 <= MAX_CTRL_QUEUES.
Hypothesis entries_int :
  sge_queue_entries ethqsets ofldqsets MAX_CTRL_QUEUES < 2 ^ 31.

Local Abbreviation show :=
  (sge_qinfo_show ethqsets ofldqsets nports MAX_CTRL_QUEUES).
Local Abbreviation ee := (DIV_ROUND_UP ethqsets 4).
Local Abbreviation oe := (DIV_ROUND_UP ofldqsets 4).
Local Abbreviation ce := (DIV_ROUND_UP MAX_CTRL_QUEUES 4).

Local Abbreviation eth_row := (SgeQinfo.eth_row ethqsets).
Local Abbreviation ofld_row := (SgeQinfo.ofld_row ofldqsets).
Local Abbreviation ctrl_row := (SgeQinfo.ctrl_row nports).

(** The elements of the report, by kind of queue. *)
Lemma sge_rows :
  map show (traverse ethqsets ofldqsets MAX_CTRL_QUEUES
              (Z.to_nat (sge_queue_entries ethqsets ofldqsets
                           MAX_CTRL_QUEUES)))
  = map eth_row (seqZ 0 ee) ++ map ofld_row (seqZ 0 oe)
    ++ map ctrl_row (seqZ 0 ce) ++ [FwEvtRow].
Proof.
  pose proof (DIV_ROUND_UP_4 ethqsets ethqsets_nonneg) as He.
  pose proof (DIV_ROUND_UP_4 ofldqsets ofldqsets_nonneg) as Ho.
  pose proof (DIV_ROUND_UP_4 MAX_CTRL_QUEUES ctrl_nonneg) as Hc.
  pose proof entries_int as Hint. unfold sge_queue_entries in Hint.
  assert (Hshow : forall r, 0 <= r < 2 ^ 31 ->
            show (1 + r)
            = if r <? ee then eth_row r
              else if r - ee <? oe then ofld_row (r - ee)
              else if r - ee - oe <? ce then ctrl_row (r - ee - oe)
              else if r - ee - oe - ce =? 0 then FwEvtRow else NoRow).
  { intros r Hr. unfold sge_qinfo_show. cbv zeta.
    replace (1 + r - 1) with r by lia. now rewrite s32_small by lia. }
  rewrite sge_traverse by (unfold sge_queue_entries; lia).
  unfold sge_queue_entries.
  rewrite !seqZ_app, !map_app by lia. rewrite <- !app_assoc.
  rewrite <- (Z2Nat.id ee), <- (Z2Nat.id oe), <- (Z2Nat.id ce) by lia.
  f_equal; [|f_equal; [|f_equal]].
  - apply map_seqZ_ext. intros i Hi. rewrite Hshow by lia. rewrite Z.add_0_l.
    destruct (Z.ltb_spec i ee); [reflexivity|lia].
  - apply map_seqZ_ext. intros i Hi.
    match goal with
    | |- sge_qinfo_show _ _ _ _ ?x = _ => replace x with (1 + (ee + i)) by lia
    end.
    rewrite Hshow by lia. rewrite Z.add_0_l.
    destruct (Z.ltb_spec (ee + i) ee); [lia|].
    destruct (Z.ltb_spec (ee + i - ee) oe); [|lia]. f_equal. lia.
  - apply map_seqZ_ext. intros i Hi.
    match goal with
    | |- sge_qinfo_show _ _ _ _ ?x = _ =>
        replace x with (1 + (ee + oe + i)) by lia
    end.
    rewrite Hshow by lia. rewrite Z.add_0_l.
    destruct (Z.ltb_spec (ee + oe + i) ee); [lia|].
    destruct (Z.ltb_spec (ee + oe + i - ee) oe); [lia|].
    destruct (Z.ltb_spec (ee + oe + i - ee - oe) ce); [|lia]. f_equal. lia.
  - change (seqZ ?a 1) with [a]. cbn [map]. f_equal.
    match goal with
    | |- sge_qinfo_show _ _ _ _ ?x = _ =>
        replace x with (1 + (ee + oe + ce)) by lia
    end.
    rewrite Hshow by lia.
    destruct (Z.ltb_spec (ee + oe + ce) ee); [lia|].
    destruct (Z.ltb_spec (ee + oe + ce - ee) oe); [lia|].
    destruct (Z.ltb_spec (ee + oe + ce - ee - oe) ce); [lia|].
    destruct (Z.eqb_spec (ee + oe + ce - ee - oe - ce) 0); [reflexivity|lia].
Qed.

Lemma concat_map_nil {A B} (l : list A) :
  concat (map (fun _ => @nil B) l) = [].
Proof. induction l; simpl; auto. Qed.

End SgeReport.

(** X13.  The SGE queue report shows every queue set once: over the whole
    traversal the Ethernet rows list the Ethernet queue sets
    0 .. [ethqsets - 1] in order, four to a row and the rest in the last
    one, the offload rows do the same for the offload queue sets, the last
    element is the firmware event queue, and no element is left without a
    kind: the elements are the Ethernet rows, the offload rows, the control
    rows and the firmware event queue, in this order, row [r] of a kind
    showing the queues [4 r] to [4 r + 3] as far as there are such. *)
Theorem sge_qinfo_rows (ethqsets ofldqsets nports MAX_CTRL_QUEUES : Z) :
  0 <= ethqsets -> 0 <= ofldqsets -> 0 <= MAX_CTRL_QUEUES ->
  SgeQinfo.sge_queue_entries ethqsets ofldqsets MAX_CTRL_QUEUES < 2 ^ 31 ->
  let rows :=
    map (SgeQinfo.sge_qinfo_show ethqsets ofldqsets nports MAX_CTRL_QUEUES)
      (SgeQinfo.traverse ethqsets ofldqsets MAX_CTRL_QUEUES
         (Z.to_nat (SgeQinfo.sge_queue_entries ethqsets ofldqsets
                      MAX_CTRL_QUEUES))) in
  concat (map SgeQinfo.eth_qsets rows) = seqZ 0 ethqsets
  /\ concat (map SgeQinfo.ofld_qsets rows) = seqZ 0 ofldqsets
  /\ last rows = Some SgeQinfo.FwEvtRow
  /\ Forall (fun r => r <> SgeQinfo.NoRow) rows
  /\ rows
     = map (SgeQinfo.eth_row ethqsets)
         (seqZ 0 (SgeQinfo.DIV_ROUND_UP ethqsets 4))
       ++ map (SgeQinfo.ofld_row ofldqsets)
            (seqZ 0 (SgeQinfo.DIV_ROUND_UP ofldqsets 4))
       ++ map (SgeQinfo.ctrl_row nports)
            (seqZ 0 (SgeQinfo.DIV_ROUND_UP MAX_CTRL_QUEUES 4))
       ++ [SgeQinfo.FwEvtRow].
Proof.
  intros He Ho Hc Hint rows. subst rows.
  rewrite (sge_rows _ _ nports _ He Ho Hc Hint).
  pose proof (DIV_ROUND_UP_4 ethqsets He) as He4.
  pose proof (DIV_ROUND_UP_4 ofldqsets Ho) as Ho4.
  split; [|split; [|split; [|split; [|reflexivity]]]].
  - rewrite !map_app, !concat_app, !map_map.
    cbn [SgeQinfo.eth_qsets SgeQinfo.eth_row SgeQinfo.ofld_row
         SgeQinfo.ctrl_row map concat].
    rewrite !concat_map_nil, !app_nil_r.
    rewrite <- (Z2Nat.id (SgeQinfo.DIV_ROUND_UP ethqsets 4)) by lia.
    rewrite concat_columns by lia. f_equal. lia.
  - rewrite !map_app, !concat_app, !map_map.
    cbn [SgeQinfo.ofld_qsets SgeQinfo.eth_row SgeQinfo.ofld_row
         SgeQinfo.ctrl_row map concat].
    rewrite !concat_map_nil, !app_nil_r. cbn [app].
    rewrite <- (Z2Nat.id (SgeQinfo.DIV_ROUND_UP ofldqsets 4)) by lia.
    rewrite concat_columns by lia. f_equal. lia.
  - rewrite !app_assoc. apply last_snoc.
  - rewrite !Forall_app, !Forall_map. repeat split;
      try (apply Forall_forall; intros; discriminate).
    repeat constructor. discriminate.
Qed.

Lemma sge_qinfo_rows_witness :
  concat (map SgeQinfo.eth_qsets
            (map (SgeQinfo.sge_qinfo_show 10 5 4 4)
               (SgeQinfo.traverse 10 5 4
                  (Z.to_nat (SgeQinfo.sge_queue_entries 10 5 4)))))
  = seqZ 0 10.
Proof.
  apply (sge_qinfo_rows 10 5 4 4); [lia|lia|lia|reflexivity].
Defined.

(** ** The memory map: the comparison and the holes *)

(** X14.  [mem_desc_cmp] returns the difference of the two bases wrapped to
    an [int]: it is that difference, and so has its sign, when the bases are
    less than 2^31 apart; when the first base is 2^31 or more above the
    second the result is negative, and when it is more than 2^31 below it
    the result is positive, so that [sort] sees the two in the wrong
    order. *)
Theorem mem_desc_cmp_wraps (a b : MemInfo.mem_desc) :
  0 <= MemInfo.base a < 2 ^ 32 -> 0 <= MemInfo.base b < 2 ^ 32 ->
  (- 2 ^ 31 <= MemInfo.base a - MemInfo.base b < 2 ^ 31 ->
     MemInfo.mem_desc_cmp a b = MemInfo.base a - MemInfo.base b)
  /\ (2 ^ 31 <= MemInfo.base a - MemInfo.base b ->
        MemInfo.mem_desc_cmp a b < 0)
  /\ (MemInfo.base a - MemInfo.base b < - 2 ^ 31 ->
        0 < MemInfo.mem_desc_cmp a b).
Proof.
  intros Ha Hb. unfold MemInfo.mem_desc_cmp, s32, u32. cbv zeta.
  set (d := MemInfo.base a - MemInfo.base b).
  assert (Hd : - 2 ^ 32 < d < 2 ^ 32) by (subst d; lia). clearbody d.
  destruct (Z.lt_ge_cases d 0) as [Hneg|Hpos].
  - replace (d mod 2 ^ 32) with (d + 2 ^ 32)
      by (apply Z.mod_unique_pos with (q := -1); lia).
    destruct (Z.ltb_spec (d + 2 ^ 32) (2 ^ 31)); lia.
  - rewrite Z.mod_small by lia.
    destruct (Z.ltb_spec d (2 ^ 31)); lia.
Qed.

Lemma mem_desc_cmp_wraps_witness :
  0 < MemInfo.mem_desc_cmp (MemInfo.mk_mem_desc 0 0 0)
        (MemInfo.mk_mem_desc 0x80000001 0 1).
Proof.
  apply (mem_desc_cmp_wraps (MemInfo.mk_mem_desc 0 0 0)
           (MemInfo.mk_mem_desc 0x80000001 0 1)); simpl; lia.
Defined.

Lemma holes_between_length avail :
  (length (MemHoles.holes_between avail) <= pred (length avail))%nat.
Proof.
  induction avail as [|a [|b l] IH]; [simpl; lia..|].
  change (MemHoles.holes_between (a :: b :: l))
    with ((if MemInfo.limit a <? MemInfo.base b then [MemInfo.limit a]
           else []) ++ MemHoles.holes_between (b :: l)).
  rewrite length_app. cbn [length pred] in *.
  destruct (MemInfo.limit a <? MemInfo.base b); cbn [length]; lia.
Qed.

(** X15.  The holes [meminfo_show] adds to the memory map are at most as
    many as the populated ranges.  With up to three ranges, as a T4 has,
    they fit into the three entries [mem] keeps for them; with four ranges
    that all lie apart, the last one with a limit, as a T5 may have, there
    are four holes, one more than [mem] has room for. *)
Theorem meminfo_holes_count (avail : list MemInfo.mem_desc) :
  (length (MemHoles.holes avail) <= length avail)%nat
  /\ ((length avail <= 3)%nat ->
      MemHoles.named_entries + Z.of_nat (length (MemHoles.holes avail))
      <= MemHoles.mem_size)
  /\ (forall a b c d,
        avail = [a; b; c; d] ->
        MemInfo.limit a < MemInfo.base b ->
        MemInfo.limit b < MemInfo.base c ->
        MemInfo.limit c < MemInfo.base d ->
        MemInfo.limit d <> 0 ->
        MemHoles.holes avail
        = [MemInfo.limit a; MemInfo.limit b; MemInfo.limit c;
           MemInfo.limit d]
        /\ MemHoles.mem_size
           < MemHoles.named_entries
             + Z.of_nat (length (MemHoles.holes avail))).
Proof.
  assert (Hlen : (length (MemHoles.holes avail) <= length avail)%nat).
  { unfold MemHoles.holes. rewrite length_app.
    pose proof (holes_between_length avail) as Hb.
    destruct avail as [|a l]; [simpl; lia|].
    destruct (last (a :: l)) as [z|]; [|simpl in *; lia].
    destruct (negb (MemInfo.limit z =? 0)); simpl in *; lia. }
  split; [exact Hlen|]. split.
  - intros H3. unfold MemHoles.mem_size, MemHoles.named_entries. lia.
  - intros a b c d -> Hab Hbc Hcd Hd.
    assert (E : MemHoles.holes [a; b; c; d]
                = [MemInfo.limit a; MemInfo.limit b; MemInfo.limit c;
                   MemInfo.limit d]).
    { unfold MemHoles.holes. cbn [MemHoles.holes_between last].
      apply Z.ltb_lt in Hab, Hbc, Hcd. apply Z.eqb_neq in Hd.
      now rewrite Hab, Hbc, Hcd, Hd. }
    split; [exact E|]. rewrite E.
    unfold MemHoles.mem_size, MemHoles.named_entries. simpl. lia.
Qed.

Lemma meminfo_holes_count_witness :
  MemHoles.holes [MemInfo.mk_mem_desc 0 0x100000 0;
                  MemInfo.mk_mem_desc 0x200000 0x300000 1;
                  MemInfo.mk_mem_desc 0x400000 0x500000 3;
                  MemInfo.mk_mem_desc 0x600000 0x700000 4]
  = [0x100000; 0x300000; 0x500000; 0x700000].
Proof.
  destruct (meminfo_holes_count
              [MemInfo.mk_mem_desc 0 0x100000 0;
               MemInfo.mk_mem_desc 0x200000 0x300000 1;
               MemInfo.mk_mem_desc 0x400000 0x500000 3;
               MemInfo.mk_mem_desc 0x600000 0x700000 4]) as (_ & _ & H).
  apply (H _ _ _ _ eq_refl); simpl; lia.
Defined.

(** ** The address and mask of a TCAM entry *)

(** X16.  [tcamxy2valmask] gives as address six bytes that, read most
    significant byte first, are the low 48 bits of Y, and as mask X | Y, so
    that every bit set in the address is set in the mask.  For a row that is
    decoded, X and Y having no common bit, the mask is also X + Y. *)
Theorem tcamxy2valmask_spec (x y : Z) :
  0 <= x < 2 ^ 64 -> 0 <= y < 2 ^ 64 ->
  let '(addr, mask) := MpsTcam.tcamxy2valmask x y in
  length addr = 6%nat
  /\ Forall (fun b => 0 <= b < 256) addr
  /\ Devlog.be_to_cpu addr = y mod 2 ^ 48
  /\ mask = Z.lor x y
  /\ Z.land (Devlog.be_to_cpu addr) mask = Devlog.be_to_cpu addr
  /\ (Z.land x y = 0 -> mask = x + y).
Proof.
  intros Hx Hy. unfold MpsTcam.tcamxy2valmask. cbv zeta.
  assert (Hv : Devlog.be_to_cpu
                 (take MpsTcam.ETH_ALEN (drop 2 (Devlog.cpu_to_be64 y)))
               = y mod 2 ^ 48).
  { unfold Devlog.cpu_to_be64, Devlog.cpu_to_be32, Devlog.be_to_cpu.
    cbn [app drop take MpsTcam.ETH_ALEN fold_left].
    change (2 ^ 48) with 281474976710656. change (2 ^ 32) with 4294967296.
    change (2 ^ 24) with 16777216. change (2 ^ 16) with 65536.
    change (2 ^ 8) with 256.
    Z.div_mod_to_equations. lia. }
  split; [reflexivity|]. split.
  { unfold Devlog.cpu_to_be64, Devlog.cpu_to_be32.
    cbn [app drop take MpsTcam.ETH_ALEN].
    repeat (constructor; [apply Z.mod_pos_bound; lia|]). constructor. }
  split; [exact Hv|]. split; [reflexivity|]. split.
  - rewrite Hv, <- Z.land_ones by lia.
    rewrite <- Z.land_assoc, (Z.land_comm (Z.ones 48)), Z.land_assoc.
    f_equal. rewrite Z.land_lor_distr_r, Z.land_diag.
    apply Z.bits_inj'. intros n Hn.
    rewrite Z.lor_spec, Z.land_spec.
    destruct (Z.testbit y n), (Z.testbit x n); reflexivity.
  - intros Hxy. pose proof (Z.add_lor_land x y) as H.
    rewrite Hxy in H. lia.
Qed.

Lemma tcamxy2valmask_spec_witness :
  let '(addr, mask) := MpsTcam.tcamxy2valmask 0xffff00000000 0x0a0b0c0d0e in
  length addr = 6%nat
  /\ Forall (fun b => 0 <= b < 256) addr
  /\ Devlog.be_to_cpu addr = 0x0a0b0c0d0e mod 2 ^ 48
  /\ mask = Z.lor 0xffff00000000 0x0a0b0c0d0e
  /\ Z.land (Devlog.be_to_cpu addr) mask = Devlog.be_to_cpu addr
  /\ (Z.land 0xffff00000000 0x0a0b0c0d0e = 0 ->
      mask = 0xffff00000000 + 0x0a0b0c0d0e).
Proof.
  apply (tcamxy2valmask_spec 0xffff00000000 0x0a0b0c0d0e); lia.
Defined.

(** ** The value of a hex digit *)

(** X17.  On a hex digit [xdigit2int] gives its value, a number 0..15 that
    does not depend on the case of a letter: printing that value as a hex
    digit gives the digit back in lower case; and every value 0..15 is the
    value of the digit it is printed as. *)
Theorem xdigit2int_spec (c : ascii) (d : Z) :
  (isxdigit c = true ->
     0 <= xdigit2int c <= 15
     /\ code (RssKeyShow.hexdigit (xdigit2int c)) = tolower c)
  /\ (0 <= d <= 15 ->
        isxdigit (RssKeyShow.hexdigit d) = true
        /\ xdigit2int (RssKeyShow.hexdigit d) = d).
Proof.
  split.
  - destruct c as [[] [] [] [] [] [] [] []]; intros H; try discriminate H;
      vm_compute; repeat split; congruence.
  - intros Hd. split.
    + apply hexdigit_isxdigit. lia.
    + apply xdigit2int_hexdigit. lia.
Qed.

Lemma xdigit2int_spec_witness :
  0 <= xdigit2int "C" <= 15
  /\ code (RssKeyShow.hexdigit (xdigit2int "C")) = tolower "C".
Proof. apply (xdigit2int_spec "C" 0). reflexivity. Defined.

(** ** The TP logic analyzer mask *)

Lemma substring_min n : forall s,
  String.substring 0 (Nat.min n (String.length s)) s = String.substring 0 n s.
Proof.
  induction n as [|n IH]; intros [|c s]; simpl; try reflexivity.
  now rewrite IH.
Qed.

Lemma shiftl_16_field val :
  0 <= val <= 0xffff ->
  u32 (Z.shiftl val 16) = val * 2 ^ 16
  /\ Z.land (val * 2 ^ 16) 0xffff0000 = val * 2 ^ 16.
Proof.
  intros Hv. rewrite Z.shiftl_mul_pow2 by lia. split.
  - apply u32_small. lia.
  - rewrite <- !Z.shiftl_mul_pow2 by lia.
    change 0xffff0000 with (Z.shiftl (Z.ones 16) 16).
    rewrite <- Z.shiftl_land, Z.land_ones by lia.
    f_equal. apply Z.mod_small. lia.
Qed.

(** X18.  [tp_la_write] touches the hardware only for a number of at most
    0xffff: it then stores that number shifted left by 16 as the mask,
    writes the same value to the field 0xffff0000 of the register, a value
    with no bit outside that field, and returns the number of bytes it was
    given.  For a larger number, or when [kstrtoul] fails, it writes
    nothing.  The number is read from the first 31 bytes alone. *)
Theorem tp_la_write_spec (kstrtoul : string -> Z + Z) (buf : string) :
  (forall s val, kstrtoul s = inr val -> 0 <= val) ->
  match kstrtoul (cstr (String.substring 0 31 buf)) with
  | inl err => TpLa.tp_la_write kstrtoul buf = (err, None, [])
  | inr val =>
      if val >? 0xffff
      then TpLa.tp_la_write kstrtoul buf = (- EINVAL, None, [])
      else TpLa.tp_la_write kstrtoul buf
           = (Z.of_nat (String.length buf), Some (val * 2 ^ 16),
              [TpLa.t4_set_reg_field 0xffff0000 (val * 2 ^ 16)])
           /\ Z.land (val * 2 ^ 16) 0xffff0000 = val * 2 ^ 16
  end.
Proof.
  intros Hk. unfold TpLa.tp_la_write. cbv zeta.
  change (32 - 1)%nat with 31%nat. rewrite substring_min.
  destruct (kstrtoul _) as [err|val] eqn:E; [reflexivity|].
  apply Hk in E. destruct (Z.gtb_spec val 0xffff); [reflexivity|].
  destruct (shiftl_16_field val ltac:(lia)) as [-> Hfield]. now split.
Qed.

Lemma tp_la_write_spec_witness :
  TpLa.tp_la_write (fun s => if String.eqb s "0x00ff" then inr 255
                             else inl (- EINVAL)) "0x00ff"
  = (6, Some 0xff0000, [TpLa.t4_set_reg_field 0xffff0000 0xff0000]).
Proof.
  apply (tp_la_write_spec
           (fun s => if String.eqb s "0x00ff" then inr 255
                     else inl (- EINVAL)) "0x00ff").
  intros s val. destruct (String.eqb s "0x00ff"); [|discriminate].
  intros [= <-]. lia.
Defined.

(** ** Holes are not shown *)

Section HolesHidden.

Import MemInfo MemHoles.

Local Abbreviation named_b := (fun m : mem_desc => idx m <? nregion).

Lemma region_rows_length_gen {A} (f : nat -> mem_desc -> option A) l :
  (forall i m, f i m = None <-> named_b m = false) ->
  length (omap id (imap f l)) = length (List.filter named_b l).
Proof.
  revert f. induction l as [|m l IH]; intros f Hf; [reflexivity|].
  cbn [imap List.filter]. specialize (Hf 0%nat m) as Hm.
  specialize (IH (f ∘ S) (fun i m' => Hf (S i) m')).
  destruct (f 0%nat m) as [r|], (named_b m);
    cbn [omap list_omap id length]; rewrite IH; try reflexivity.
  - destruct Hm as [_ Hm]. discriminate (Hm eq_refl).
  - destruct Hm as [Hm _]. discriminate (Hm eq_refl).
Qed.

Lemma region_rows_length mem :
  length (region_rows mem) = length (List.filter named_b mem).
Proof.
  unfold region_rows. apply region_rows_length_gen. intros i m.
  unfold region_row.
  destruct (Z.geb_spec (idx m) nregion), (Z.ltb_spec (idx m) nregion);
    try lia; split; congruence.
Qed.

Lemma filter_length_perm (l l' : list mem_desc) :
  l ≡ₚ l' ->
  length (List.filter named_b l) = length (List.filter named_b l').
Proof.
  induction 1 as [|x l l' _ IH|x y l|l l' l'' _ IH1 _ IH2]; cbn [List.filter].
  - reflexivity.
  - destruct (named_b x); cbn [length]; now rewrite IH.
  - destruct (named_b x), (named_b y); reflexivity.
  - now rewrite IH1.
Qed.

Lemma hole_entries_hidden avail hs :
  hole_entries avail = Some hs -> List.filter named_b hs = [].
Proof.
  unfold hole_entries. destruct (_ <=? mem_size); [|discriminate].
  intros [= <-]. generalize (holes avail) as hs.
  assert (H : forall hs (k0 : nat),
            List.filter named_b
              (imap (fun k b => mk_mem_desc b 0
                                  (named_entries + Z.of_nat (k0 + k))) hs)
            = []).
  { induction hs as [|b hs IH]; intros k0; [reflexivity|].
    cbn [imap List.filter idx].
    destruct (Z.ltb_spec (named_entries + Z.of_nat (k0 + 0)) nregion);
      [unfold named_entries in *; lia|].
    rewrite <- (IH (S k0)). f_equal. apply imap_ext. intros k b' _.
    cbn. do 3 f_equal. lia. }
  intros hs. exact (H hs 0%nat).
Qed.

End HolesHidden.

(** X19.  The holes added to the memory map are never shown.  When the
    holes fit into the entries [mem] has left after the 24 entries of the
    regions, then, whatever the order [sort] puts the array in,
    [meminfo_show] prints one line for each entry that has the index of a
    named region, and none for the entries of the holes and for the regions
    hidden under the index [ARRAY_SIZE(region)]. *)
Theorem meminfo_holes_not_shown
  (sort : (MemInfo.mem_desc -> MemInfo.mem_desc -> Z) ->
          list MemInfo.mem_desc -> list MemInfo.mem_desc)
  (named avail hs : list MemInfo.mem_desc) :
  (forall cmp l, sort cmp l ≡ₚ l) ->
  Z.of_nat (length named) = MemHoles.named_entries ->
  MemHoles.hole_entries avail = Some hs ->
  (length hs <= 3)%nat
  /\ Forall (fun h => MemInfo.limit h = 0
                      /\ MemHoles.named_entries <= MemInfo.idx h
                         < MemHoles.mem_size) hs
  /\ length (MemInfo.meminfo_regions sort (named ++ hs))
     = length (List.filter (fun m => MemInfo.idx m <? MemInfo.nregion)
                 named).
Proof.
  intros Hsort Hnamed Hhs. split; [|split].
  - unfold MemHoles.hole_entries in Hhs.
    destruct (Z.leb_spec
                (MemHoles.named_entries
                 + Z.of_nat (length (MemHoles.holes avail)))
                MemHoles.mem_size) as [Hle|]; [|discriminate].
    injection Hhs as <-. rewrite length_imap.
    unfold MemHoles.mem_size, MemHoles.named_entries in Hle. lia.
  - unfold MemHoles.hole_entries in Hhs.
    destruct (Z.leb_spec
                (MemHoles.named_entries
                 + Z.of_nat (length (MemHoles.holes avail)))
                MemHoles.mem_size) as [Hle|]; [|discriminate].
    injection Hhs as <-. apply Forall_forall. intros h Hh.
    apply list_elem_of_lookup_1 in Hh as [k Hk].
    rewrite list_lookup_imap in Hk.
    destruct (MemHoles.holes avail !! k) as [b|] eqn:Hb; [|discriminate].
    injection Hk as <-. apply lookup_lt_Some in Hb.
    cbn [MemInfo.limit MemInfo.idx]. lia.
  - unfold MemInfo.meminfo_regions.
    rewrite region_rows_length, (filter_length_perm _ _ (Hsort _ _)).
    now rewrite List.filter_app, (hole_entries_hidden avail hs Hhs),
      app_nil_r.
Qed.

Lemma meminfo_holes_not_shown_witness :
  let avail := [MemInfo.mk_mem_desc 0 0x2000 0;
                MemInfo.mk_mem_desc 0x4000 0x8000 1] in
  let named := map (fun i => MemInfo.mk_mem_desc (i * 0x400) 0
                               (if i =? 5 then 24 else i)) (seqZ 0 24) in
  exists hs,
    MemHoles.hole_entries avail = Some hs
    /\ length hs = 2%nat
    /\ length (MemInfo.meminfo_regions MemInfo.sort_stable (named ++ hs))
       = 23%nat.
Proof.
  intros avail named. eexists. split; [reflexivity|]. split; [reflexivity|].
  refine (proj2 (proj2 (meminfo_holes_not_shown MemInfo.sort_stable named
                          avail _ sort_stable_perm _ _)));
    reflexivity.
Defined.

(** ** Reading an adapter memory *)

Section MemReadFacts.

Import Flash.

Variable mem : Z -> Z.
Variable t4_memory_rw : Z -> Z -> Z + list Z.

(** The memory serves a request inside [0, avail) with its bytes. *)
Variable avail : Z.
Hypothesis rw_ok : forall pos count,
  0 <= pos -> 0 <= count -> pos + count <= avail ->
  t4_memory_rw pos count = inr (bytes_at mem pos count).

Lemma mem_read_bytes pos count :
  0 <= pos < avail -> 0 <= count ->
  mem_read t4_memory_rw avail pos count
  = {| ret := Z.min count (avail - pos);
       ppos := pos + Z.min count (avail - pos);
       copied := bytes_at mem pos (Z.min count (avail - pos)) |}.
Proof.
  intros Hpos Hcount. unfold mem_read.
  destruct (Z.ltb_spec pos 0); [lia|].
  destruct (Z.geb_spec pos avail); [lia|]. cbv zeta.
  assert (Hn : (if count >? avail - pos then avail - pos else count)
               = Z.min count (avail - pos))
    by (destruct (Z.gtb_spec count (avail - pos)); lia).
  rewrite Hn, rw_ok by lia. f_equal.
  apply firstn_all2. rewrite bytes_at_length by lia. lia.
Qed.

End MemReadFacts.

(** X20.  Reading an adapter memory in two calls gives what one call gives:
    a read of [c1] bytes followed, at the position it left, by a read of
    [c2] bytes copies the bytes and reaches the position of one read of
    [c1 + c2] bytes, also when the end of the memory cuts one of them; and
    no read asks the memory for a byte outside [0, avail). *)
Theorem mem_read_split (mem : Z -> Z) (t4_memory_rw : Z -> Z -> Z + list Z)
  (avail pos c1 c2 : Z) :
  (forall pos count,
     0 <= pos -> 0 <= count -> pos + count <= avail ->
     t4_memory_rw pos count = inr (Flash.bytes_at mem pos count)) ->
  0 <= pos -> 0 <= c1 -> 0 <= c2 ->
  let o1 := Flash.mem_read t4_memory_rw avail pos c1 in
  let o2 := Flash.mem_read t4_memory_rw avail (Flash.ppos o1) c2 in
  let o := Flash.mem_read t4_memory_rw avail pos (c1 + c2) in
  Flash.copied o = Flash.copied o1 ++ Flash.copied o2
  /\ Flash.ppos o = Flash.ppos o2
  /\ Flash.ret o = Flash.ret o1 + Flash.ret o2.
Proof.
  intros Hrw Hpos Hc1 Hc2 o1 o2 o. subst o1 o2 o.
  destruct (Z.lt_ge_cases pos avail) as [Hin|Hout].
  - rewrite !(mem_read_bytes mem t4_memory_rw avail Hrw pos) by lia.
    cbn [Flash.ppos Flash.copied Flash.ret].
    destruct (Z.lt_ge_cases (pos + Z.min c1 (avail - pos)) avail) as [H1|H1].
    + rewrite (mem_read_bytes mem t4_memory_rw avail Hrw) by lia.
      cbn [Flash.ppos Flash.copied Flash.ret]. rewrite <- bytes_at_app by lia.
      split; [f_equal; lia|]. split; lia.
    + unfold Flash.mem_read at 1 2 3.
      destruct (Z.ltb_spec (pos + Z.min c1 (avail - pos)) 0); [lia|].
      destruct (Z.geb_spec (pos + Z.min c1 (avail - pos)) avail); [|lia].
      cbn [Flash.ppos Flash.copied Flash.ret]. rewrite app_nil_r.
      split; [f_equal; lia|]. split; lia.
  - unfold Flash.mem_read.
    destruct (Z.ltb_spec pos 0); [lia|].
    destruct (Z.geb_spec pos avail); [|lia].
    cbn [Flash.ppos Flash.copied Flash.ret].
    destruct (Z.ltb_spec pos 0); [lia|].
    destruct (Z.geb_spec pos avail); [|lia]. repeat split.
Qed.

Lemma mem_read_split_witness :
  let rw := fun pos count => inr (Flash.bytes_at id pos count) in
  Flash.copied (Flash.mem_read rw 100 90 (4 + 20))
  = Flash.copied (Flash.mem_read rw 100 90 4)
    ++ Flash.copied (Flash.mem_read rw 100
                       (Flash.ppos (Flash.mem_read rw 100 90 4)) 20).
Proof.
  apply (mem_read_split id (fun pos count => inr (Flash.bytes_at id pos count))
           100 90 4 20); [reflexivity|lia..].
Defined.

(** X21.  Read through [flash_read], the flash gives the bytes a single
    read of the whole range gives, as [mem_read] makes it: for a flash and a
    memory that hold the same bytes the two functions copy the same bytes,
    return the same value and leave the same position. *)
Theorem flash_read_as_mem_read (mem : Z -> Z)
  (t4_read_flash t4_memory_rw : Z -> Z -> Z + list Z)
  (avail pos count : Z) :
  (forall addr nwords,
     0 <= addr -> addr mod 4 = 0 -> 0 < nwords <= 64 ->
     t4_read_flash addr nwords = inr (Flash.bytes_at mem addr (4 * nwords))) ->
  (forall pos count,
     0 <= pos -> 0 <= count -> pos + count <= avail ->
     t4_memory_rw pos count = inr (Flash.bytes_at mem pos count)) ->
  0 <= count ->
  Flash.flash_read t4_read_flash avail pos count
  = Some (Flash.mem_read t4_memory_rw avail pos count).
Proof.
  intros Hflash Hrw Hcount.
  destruct (Z.lt_ge_cases pos 0) as [Hneg|Hpos];
    [|destruct (Z.lt_ge_cases pos avail) as [Hin|Hout]].
  - unfold Flash.flash_read, Flash.mem_read.
    destruct (Z.ltb_spec pos 0); [reflexivity|lia].
  - rewrite (mem_read_bytes mem t4_memory_rw avail Hrw) by lia.
    unfold Flash.flash_read.
    destruct (Z.ltb_spec pos 0); [lia|].
    destruct (Z.geb_spec pos avail); [lia|]. cbv zeta.
    assert (Hn : (if count >? avail - pos then avail - pos else count)
                 = Z.min count (avail - pos))
      by (destruct (Z.gtb_spec count (avail - pos)); lia).
    rewrite Hn, (flash_loop_bytes mem t4_read_flash Hflash) by lia.
    cbn [app]. f_equal. f_equal. lia.
  - unfold Flash.flash_read, Flash.mem_read.
    destruct (Z.ltb_spec pos 0); [lia|].
    destruct (Z.geb_spec pos avail); [reflexivity|lia].
Qed.

Lemma flash_read_as_mem_read_witness :
  Flash.flash_read (fun addr n => inr (Flash.bytes_at id addr (4 * n)))
    1000 254 700
  = Some (Flash.mem_read (fun pos count => inr (Flash.bytes_at id pos count))
            1000 254 700).
Proof.
  apply (flash_read_as_mem_read id); [reflexivity|reflexivity|lia].
Defined.
